(** * Astro language tools: positions, embedded tags and the TSX mappings

    The development follows the TypeScript sources of the language server:
    - [Utils]      : core/documents/utils.ts ([getLineOffsets], [positionAt],
                     [offsetAt], [walk], [extractTags]);
    - [Astro2tsx]  : core/astro2tsx.ts ([safeConvertToTSX], [patchTSX],
                     [getVirtualFileTSX], [astro2tsx]);
    - [Core]       : core/index.ts (what the Astro file reads of the two);
    - [JSText] and [DocumentUtils] : the string methods and the other
                     helpers of core/documents/utils.ts (words, braces,
                     the frontmatter around an offset, start tags);
    - [Snapshots]  : the document snapshots of plugins/typescript, which
                     call [positionAt] and [offsetAt];
    - [ParseAstro], [SourceMap] and [EmbeddedBlocks] : the frontmatter
                     scan, the offset translators and the extraction of
                     the embedded blocks, which the sources use and do
                     not define.

    Then come the sample inputs ([Samples]), the vocabulary of the
    statements ([Properties]), the functions evaluated on the samples
    ([Examples]) and the proofs.

    Numbers are integers of [Z]; a string is the list of its UTF-16 code
    units, so that [length], [substring] and indexing count what JavaScript
    counts.  What the sources import from other packages (the compiler, the
    source-map codec, the text document, the TypeScript parser) is a
    parameter of the functions that call it. *)

From Stdlib Require Import ZArith List Lia Bool String Ascii Sorted.
From Equations Require Import Equations.
Import ListNotations.
Local Open Scope Z_scope.
#[local] Set Warnings "-register-all".

(* ===================================================================== *)
(** ** JavaScript strings *)
(* ===================================================================== *)

Module JS.

(** One UTF-16 code unit, by its numeric value. *)
Definition code_unit := Z.

Definition jsstring := list code_unit.

(** A string literal of the sources: each character of an ASCII literal
    is one code unit. *)
Definition lit (s : string) : jsstring :=
  List.map (fun a => Z.of_N (N_of_ascii a)) (list_ascii_of_string s).

Definition CR : code_unit := 13.
Definition LF : code_unit := 10.

(** [s.length] *)
Definition length (s : jsstring) : Z := Z.of_nat (List.length s).

(** [s[i]]: [None] is JavaScript's [undefined]. *)
Definition index {A : Type} (l : list A) (i : Z) : option A :=
  if i <? 0 then None else nth_error l (Z.to_nat i).

(** An index argument of [substring], confined to [0, s.length]. *)
Definition toIndex (s : jsstring) (i : Z) : Z :=
  Z.min (Z.max i 0) (length s).

(** [s.substring(a, b)]: both arguments are confined to the string, and
    swapped when the first is the larger one. *)
Definition substring (s : jsstring) (a b : Z) : jsstring :=
  let a' := toIndex s a in
  let b' := toIndex s b in
  let from := Z.min a' b' in
  let to := Z.max a' b' in
  firstn (Z.to_nat (to - from)) (skipn (Z.to_nat from) s).

(** [x === y] on code units that may be [undefined]. *)
Definition strictEq (x y : option code_unit) : bool :=
  match x, y with
  | Some a, Some b => a =? b
  | None, None => true
  | _, _ => false
  end.

(** [s === t] on strings. *)
Fixpoint eqb (s t : jsstring) : bool :=
  match s, t with
  | [], [] => true
  | a :: s', b :: t' => (a =? b) && eqb s' t'
  | _, _ => false
  end.

End JS.

Import JS.

(** [Position.create(line, character)] of vscode-languageserver. *)
Record Position := { line : Z; character : Z }.

(* ===================================================================== *)
(** ** core/documents/utils.ts *)
(* ===================================================================== *)

Module Utils.

(** Modelled from the spec: the helper [clamp] of utils.ts is imported by
    the sources but is not one of them.  [positionAt] and [offsetAt] use
    it to keep a number inside [min, max]; when the bounds cross, as they
    do in [offsetAt] for a negative character, the lower bound is kept. *)
Definition clamp (num min max : Z) : Z := Z.max min (Z.min max num).

(** The loop of [getLineOffsets]: [i] is the index of the head of
    [rest], [len] is [text.length].  A carriage return followed by a
    line feed moves the index by two. *)
Fixpoint lineOffsetsFrom (len i : Z) (isLineStart : bool) (rest : jsstring)
  : list Z :=
  match rest with
  | [] => if isLineStart && (0 <? len) then [len] else []
  | ch :: rest' =>
      let pushed := if isLineStart then [i] else [] in
      if ch =? CR then
        match rest' with
        | ch' :: rest'' =>
            if ch' =? LF
            then pushed ++ lineOffsetsFrom len (i + 2) true rest''
            else pushed ++ lineOffsetsFrom len (i + 1) true rest'
        | [] => pushed ++ lineOffsetsFrom len (i + 1) true rest'
        end
      else pushed ++ lineOffsetsFrom len (i + 1) (ch =? LF) rest'
  end.

Definition getLineOffsets (text : jsstring) : list Z :=
  lineOffsetsFrom (JS.length text) 0 true text.

(** What one round of the binary search of [positionAt] decides.  A
    probe past the end of the array reads [undefined], for which both
    [===] and [>] are false: the search goes left. *)
Inductive Probe := Hit | GoRight | GoLeft.

Definition probe (lineOffsets : list Z) (mid offset : Z) : Probe :=
  match index lineOffsets mid with
  | Some lineOffset =>
      if lineOffset =? offset then Hit
      else if offset >? lineOffset then GoRight
      else GoLeft
  | None => GoLeft
  end.

(** The [while (low <= high)] loop of [positionAt]: [inl] is the early
    return, [inr] the value of [low] when the loop ends. *)
Equations? positionAtLoop (lineOffsets : list Z) (offset low high : Z)
  : Position + Z by wf (Z.to_nat (high - low + 1)) lt :=
  positionAtLoop lineOffsets offset low high with Z_le_gt_dec low high := {
    | left _ with probe lineOffsets ((low + high) / 2) offset := {
        | Hit := inl {| line := (low + high) / 2; character := 0 |}
        | GoRight :=
            positionAtLoop lineOffsets offset ((low + high) / 2 + 1) high
        | GoLeft :=
            positionAtLoop lineOffsets offset low ((low + high) / 2 - 1) }
    | right _ := inr low }.
Proof.
  all: assert (low <= (low + high) / 2 <= high)
    by (split; [apply Z.div_le_lower_bound | apply Z.div_le_upper_bound]; lia);
    lia.
Qed.

(** [positionAt(offset, text, lineOffsets)].  The result is [None] when
    the last line reads [lineOffsets[line]] outside the array, where
    JavaScript computes the character [NaN]. *)
Definition positionAtIn (offset : Z) (text : jsstring) (lineOffsets : list Z)
  : option Position :=
  let offset := clamp offset 0 (JS.length text) in
  let low := 0 in
  let high := Z.of_nat (List.length lineOffsets) in
  if high =? 0 then Some {| line := 0; character := offset |}
  else
    match positionAtLoop lineOffsets offset low high with
    | inl position => Some position
    | inr low =>
        let line := low - 1 in
        match index lineOffsets line with
        | Some lineOffset =>
            Some {| line := line; character := offset - lineOffset |}
        | None => None
        end
    end.

(** [positionAt(offset, text)], the line offsets computed from the text. *)
Definition positionAt (offset : Z) (text : jsstring) : option Position :=
  positionAtIn offset text (getLineOffsets text).

(** [offsetAt(position, text, lineOffsets)].  Both array reads are inside
    the array by the tests before them. *)
Definition offsetAtIn (position : Position) (text : jsstring)
  (lineOffsets : list Z) : Z :=
  let n := Z.of_nat (List.length lineOffsets) in
  if line position >=? n then JS.length text
  else if line position <? 0 then 0
  else
    let lineOffset := nth (Z.to_nat (line position)) lineOffsets 0 in
    let nextLineOffset :=
      if line position + 1 <? n
      then nth (Z.to_nat (line position + 1)) lineOffsets 0
      else JS.length text in
    clamp nextLineOffset lineOffset (lineOffset + character position).

Definition offsetAt (position : Position) (text : jsstring) : Z :=
  offsetAtIn position text (getLineOffsets text).

(** A node of vscode-html-languageservice.  [tag], [startTagEnd],
    [endTagStart] and [attributes] may be [undefined]; an attribute
    without a value is [null]. *)
Inductive Node := mkNode {
  tag : option jsstring;
  start : Z;
  end_ : Z;
  startTagEnd : option Z;
  endTagStart : option Z;
  attributes : option (list (jsstring * option jsstring));
  closed : bool;
  children : list Node }.

Record HTMLDocument := { roots : list Node }.

Record Container := { container_start : Z; container_end : Z }.

Record TagInformation := {
  content : jsstring;
  tag_attributes : list (jsstring * jsstring);
  tag_start : Z;
  tag_end : Z;
  startPos : option Position;
  endPos : option Position;
  container : Container;
  tag_closed : bool }.

(** The generator [walk]: the children first, each walked in turn, then
    the node itself. *)
Fixpoint walk (node : Node) : list Node :=
  flat_map walk (children node) ++ [node].

Inductive TagName := script | style | template.

Definition tagLiteral (t : TagName) : jsstring :=
  match t with
  | script => lit "script"
  | style => lit "style"
  | template => lit "template"
  end.

(** [node.tag === tag] *)
Definition hasTag (t : TagName) (node : Node) : bool :=
  match tag node with
  | Some name => JS.eqb name (tagLiteral t)
  | None => false
  end.

Definition QUOTE : code_unit := 34.
Definition APOSTROPHE : code_unit := 39.

Definition startsWith (c : code_unit) (s : jsstring) : bool :=
  match s with
  | a :: _ => a =? c
  | [] => false
  end.

Definition endsWith (c : code_unit) (s : jsstring) : bool :=
  match rev s with
  | a :: _ => a =? c
  | [] => false
  end.

(** [attrValue.slice(1, attrValue.length - 1)] *)
Definition sliceInner (s : jsstring) : jsstring :=
  firstn (List.length s - 2) (skipn 1 s).

Definition removeOuterQuotes (attrValue : jsstring) : jsstring :=
  if (startsWith QUOTE attrValue && endsWith QUOTE attrValue)
     || (startsWith APOSTROPHE attrValue && endsWith APOSTROPHE attrValue)
  then sliceInner attrValue
  else attrValue.

Definition parseAttributes
  (rawAttrs : option (list (jsstring * option jsstring)))
  : list (jsstring * jsstring) :=
  match rawAttrs with
  | None => []
  | Some raw =>
      List.map
        (fun kv =>
           match snd kv with
           | None => (fst kv, fst kv)
           | Some attrValue => (fst kv, removeOuterQuotes attrValue)
           end)
        raw
  end.

Definition transformToTagInfo (text : jsstring) (matchedNode : Node)
  : TagInformation :=
  let start_ := match startTagEnd matchedNode with
                | Some e => e
                | None => start matchedNode
                end in
  let end' := match endTagStart matchedNode with
              | Some e => e
              | None => end_ matchedNode
              end in
  {| content := substring text start_ end';
     tag_attributes := parseAttributes (attributes matchedNode);
     tag_start := start_;
     tag_end := end';
     startPos := positionAt start_ text;
     endPos := positionAt end' text;
     container := {| container_start := start matchedNode;
                     container_end := end_ matchedNode |};
     tag_closed := closed matchedNode |}.

Section ExtractTags.

(** [parseHtml] of ./parseHtml, the parser used when no parsed
    document is passed. *)
Variable parseHtml : jsstring -> HTMLDocument.

(** The nodes [extractTags] keeps: the roots with the tag, and, for
    [style] only, when no root has the tag, the [style] nodes found by
    walking the first root. *)
Definition matchedNodes (text : jsstring) (t : TagName)
  (html : option HTMLDocument) : list Node :=
  let rootNodes := match html with
                   | Some h => roots h
                   | None => roots (parseHtml text)
                   end in
  let matched := filter (hasTag t) rootNodes in
  match t, matched, rootNodes with
  | style, [], root0 :: _ => matched ++ filter (hasTag style) (walk root0)
  | _, _, _ => matched
  end.

Definition extractTags (text : jsstring) (t : TagName)
  (html : option HTMLDocument) : list TagInformation :=
  List.map (transformToTagInfo text) (matchedNodes text t html).

Definition extractStyleTags (source : jsstring)
  (html : option HTMLDocument) : list TagInformation :=
  let styles := extractTags source style html in
  match styles with
  | [] => []
  | _ => styles
  end.

End ExtractTags.

End Utils.

(* ===================================================================== *)
(** ** core/astro2tsx.ts *)
(* ===================================================================== *)

Module Astro2tsx.

(** *** The types of @astrojs/compiler and @volar/language-core *)

Record DiagnosticLocation := {
  loc_file : option jsstring;
  loc_line : Z;
  loc_column : Z;
  loc_length : Z }.

Record DiagnosticMessage := {
  diag_code : Z;
  location : DiagnosticLocation;
  severity : Z;
  diag_text : jsstring }.

Record RawSourceMap := {
  map_file : jsstring;
  sources : list jsstring;
  sourcesContent : list jsstring;
  names : list jsstring;
  mappings : jsstring;
  version : Z }.

Record TSXResult := {
  code : jsstring;
  map : RawSourceMap;
  diagnostics : list DiagnosticMessage }.

Record ConvertToTSXOptions := { filename : option jsstring }.

(** A decoded segment of a source map: the generated column alone, or
    with the source index, the source line and the source column, or
    with a name index as well. *)
Inductive SourceMapSegment :=
| Seg1 (genColumn : Z)
| Seg4 (genColumn sourcesIndex sourceLine sourceColumn : Z)
| Seg5 (genColumn sourcesIndex sourceLine sourceColumn namesIndex : Z).

(** [segment[0]] *)
Definition segment0 (segment : SourceMapSegment) : Z :=
  match segment with
  | Seg1 g => g
  | Seg4 g _ _ _ => g
  | Seg5 g _ _ _ _ => g
  end.

(** [segment[2]] and [segment[3]], when neither is [undefined]. *)
Definition segment23 (segment : SourceMapSegment) : option (Z * Z) :=
  match segment with
  | Seg1 _ => None
  | Seg4 _ _ l c => Some (l, c)
  | Seg5 _ _ l c _ => Some (l, c)
  end.

(** The [data] object of a mapping; it is created empty. *)
Record MappingData := { formattingEdits : option bool }.

Record Mapping := {
  sourceRange : Z * Z;
  generatedRange : Z * Z;
  data : MappingData }.

Inductive ScriptKind := TSX.

Record VirtualFile := {
  id : jsstring;
  languageId : jsstring;
  scriptKind : ScriptKind;
  isLanguageServiceSourceFile : bool;
  snapshot : jsstring;
  vf_mappings : list Mapping;
  embeddedFiles : list unit }.

(** [snapshot.getText(start, end)] and [snapshot.getLength()] *)
Definition getText (f : VirtualFile) (a b : Z) : jsstring :=
  substring (snapshot f) a b.
Definition getLength (f : VirtualFile) : Z := JS.length (snapshot f).

(** *** The collaborators *)

(** A call that returns or throws; the exception is kept as the text
    a template literal prints for it. *)
Inductive Outcome (A : Type) :=
| Returned (a : A)
| Threw (e : jsstring).
Arguments Returned {A} a.
Arguments Threw {A} e.

(** The modules astro2tsx.ts imports: the compiler, the source-map
    codec, node's path, the text document, and the upper-casing of the
    JavaScript runtime. *)
Class External := {
  convertToTSX : jsstring -> ConvertToTSXOptions -> Outcome TSXResult;
  decode : jsstring -> list (list SourceMapSegment);
  path_extname : jsstring -> jsstring;
  path_basename : jsstring -> jsstring -> jsstring;
  toUpperCase : jsstring -> jsstring;
  (** [TextDocument.create(uri, languageId, 0, text).offsetAt(position)] *)
  TextDocument_offsetAt : jsstring -> Position -> Z }.

(** The [ts] argument: the source file [createSourceFile] parses, by the
    start offsets [getStart] gives for its statements. *)
Record Statement := { getStart : Z }.
Record SourceFile := { statements : list Statement }.
Record TypeScript := {
  createSourceFile : jsstring -> jsstring -> SourceFile }.

(** *** patchTSX and its regular expression

    The expression is global: a word boundary, a greedy group of
    non-space code units, then the marker [__AstroComponent_]. *)

(** [\w] without the unicode flag: ASCII letters, digits and [_]. *)
Definition isWordChar (c : code_unit) : bool :=
  ((48 <=? c) && (c <=? 57)) || ((65 <=? c) && (c <=? 90))
  || ((97 <=? c) && (c <=? 122)) || (c =? 95).

(** [\s]: the white space and line terminators of ECMAScript. *)
Definition isSpace (c : code_unit) : bool :=
  ((9 <=? c) && (c <=? 13)) || (c =? 32) || (c =? 160) || (c =? 5760)
  || ((8192 <=? c) && (c <=? 8202)) || (c =? 8232) || (c =? 8233)
  || (c =? 8239) || (c =? 8287) || (c =? 12288) || (c =? 65279).

(** [\b] between the code unit before the position and the one at it. *)
Definition wordBoundary (prev : option code_unit) (s : jsstring) : bool :=
  xorb (match prev with Some c => isWordChar c | None => false end)
       (match s with c :: _ => isWordChar c | [] => false end).

Definition marker : jsstring := lit "__AstroComponent_".

Fixpoint isPrefix (p s : jsstring) : bool :=
  match p, s with
  | [], _ => true
  | a :: p', b :: s' => (a =? b) && isPrefix p' s'
  | _ :: _, [] => false
  end.

(** How many code units the greedy group takes at first. *)
Fixpoint nonSpaceRun (s : jsstring) : nat :=
  match s with
  | c :: s' => if isSpace c then O else S (nonSpaceRun s')
  | [] => O
  end.

(** The group gives code units back one at a time until the marker
    follows it. *)
Fixpoint backtrack (k : nat) (s : jsstring) : option nat :=
  if isPrefix marker (skipn k s) then Some k
  else match k with
       | O => None
       | S k' => backtrack k' s
       end.

(** A match that starts at the head of [s]: the length of group 1. *)
Definition matchAt (prev : option code_unit) (s : jsstring) : option nat :=
  if wordBoundary prev s then backtrack (nonSpaceRun s) s else None.

(** [s.replace(re, replacer)] for the global expression: the leftmost
    match is replaced by [replacer(fullMatch, m1)] and the search goes
    on after it; code units no match covers are copied. *)
Equations? replaceMarker (replacer : jsstring -> jsstring -> jsstring)
  (prev : option code_unit) (s : jsstring) : jsstring
  by wf (List.length s) lt :=
  replaceMarker replacer prev [] := [];
  replaceMarker replacer prev (c :: s') with matchAt prev (c :: s') := {
    | Some k :=
        replacer (firstn (k + List.length marker) (c :: s')) (firstn k (c :: s'))
        ++ replaceMarker replacer
             (nth_error (c :: s') (k + List.length marker - 1))
             (skipn (k + List.length marker) (c :: s'))
    | None := c :: replaceMarker replacer (Some c) s' }.
Proof.
  rewrite length_skipn. cbn [List.length]. lia.
Qed.

(** The length of the longest common prefix of two strings, for the
    comparison with the length [getVirtualFileTSX] keeps when the two
    texts differ. *)
Fixpoint longestCommonPrefix (s t : jsstring) : nat :=
  match s, t with
  | a :: s', b :: t' => if a =? b then S (longestCommonPrefix s' t') else O
  | _, _ => O
  end.

Definition LBRACKET : code_unit := 91.
Definition RBRACKET : code_unit := 93.
Definition UNDERSCORE : code_unit := 95.

Section WithExternal.

Context {E : External}.

Definition patchTSX (code : jsstring) (fileName : jsstring) : jsstring :=
  let basename := path_basename fileName (path_extname fileName) in
  let isDynamic :=
    Utils.startsWith LBRACKET basename && Utils.endsWith RBRACKET basename in
  replaceMarker
    (fun fullMatch m1 =>
       match m1 with
       | [] => if JS.eqb basename (lit "404") then lit "FourOhFour"
               else fullMatch
       | m1_0 :: m1_rest =>
           if isDynamic then [UNDERSCORE] ++ m1 ++ [UNDERSCORE]
           else toUpperCase [m1_0] ++ m1_rest
       end)
    None code.

(** *** safeConvertToTSX *)

Definition unknownErrorText : jsstring :=
  lit "The Astro compiler encountered an unknown error while parsing this file. Please create an issue with your code and the error shown in the server's logs: https://github.com/withastro/language-tools/issues".

(** What a template literal prints for [options.filename]. *)
Definition printFilename (options : ConvertToTSXOptions) : jsstring :=
  match filename options with
  | Some f => f
  | None => lit "undefined"
  end.

Definition transformErrorLog (options : ConvertToTSXOptions) (e : jsstring)
  : jsstring :=
  lit "There was an error transforming " ++ printFilename options
  ++ lit " to TSX. An empty file will be returned instead. Please create an issue: https://github.com/withastro/language-tools/issues"
  ++ [LF] ++ lit "Error: " ++ e ++ lit ".".

(** The result, and the lines written with [console.error]. *)
Definition safeConvertToTSX (content : jsstring)
  (options : ConvertToTSXOptions) : TSXResult * list jsstring :=
  match convertToTSX content {| filename := filename options |} with
  | Returned tsx => (tsx, [])
  | Threw e =>
      ({| code := [];
          map := {| map_file := match filename options with
                                | Some f => f
                                | None => []
                                end;
                    sources := [];
                    sourcesContent := [];
                    names := [];
                    mappings := [];
                    version := 0 |};
          diagnostics :=
            [ {| diag_code := 1000;
                 location := {| loc_file := filename options;
                                loc_line := 1;
                                loc_column := 1;
                                loc_length := JS.length content |};
                 severity := 1;
                 diag_text := unknownErrorText |} ] |},
       [transformErrorLog options e])
  end.

(** *** getVirtualFileTSX *)

(** The pending start of a run: [current]. *)
Record Current := { cur_genOffset : Z; cur_sourceOffset : Z }.

(** The inner [for] loop: [rounds] rounds are left, [i] is the loop
    index, [length] the length found so far. *)
Fixpoint commonPrefixLoop (rounds : nat) (i length : Z)
  (sourceText genText : jsstring) : Z :=
  match rounds with
  | O => length
  | S rounds' =>
      if strictEq (index sourceText i) (index genText i)
      then commonPrefixLoop rounds' (i + 1) (i + 1) sourceText genText
      else length
  end.

(** The value of [length] when the test [length > 0] is reached. *)
Definition matchedLength (input code : jsstring) (current : Current)
  (genOffset : Z) : Z :=
  let length := genOffset - cur_genOffset current in
  let sourceText :=
    substring input (cur_sourceOffset current)
              (cur_sourceOffset current + length) in
  let genText :=
    substring code (cur_genOffset current) (cur_genOffset current + length) in
  if negb (JS.eqb sourceText genText)
  then commonPrefixLoop (Z.to_nat (genOffset - cur_genOffset current)) 0 0
                        sourceText genText
  else length.

Definition emptyData : MappingData := {| formattingEdits := None |}.

(** [mappings.length ? mappings[mappings.length - 1] : undefined] *)
Definition lastMapping (mappings : list Mapping) : option Mapping :=
  match rev mappings with
  | m :: _ => Some m
  | [] => None
  end.

(** The body of [if (length > 0)]: the last mapping grows when the run
    continues it on both sides, else a new mapping is pushed. *)
Definition addMapping (mappings : list Mapping) (current : Current)
  (length : Z) : list Mapping :=
  let pushed :=
    mappings ++
    [ {| sourceRange := (cur_sourceOffset current,
                         cur_sourceOffset current + length);
         generatedRange := (cur_genOffset current,
                            cur_genOffset current + length);
         data := emptyData |} ] in
  match lastMapping mappings with
  | Some last =>
      if (snd (generatedRange last) =? cur_genOffset current)
         && (snd (sourceRange last) =? cur_sourceOffset current)
      then
        removelast mappings ++
        [ {| sourceRange := (fst (sourceRange last),
                             cur_sourceOffset current + length);
             generatedRange := (fst (generatedRange last),
                                cur_genOffset current + length);
             data := data last |} ]
      else pushed
  | None => pushed
  end.

Record LoopState := {
  st_mappings : list Mapping;
  st_current : option Current }.

(** One round of the loop over the segments of a generated line. *)
Definition stepSegment (input code : jsstring) (genLine : Z)
  (st : LoopState) (segment : SourceMapSegment) : LoopState :=
  let genCharacter := segment0 segment in
  let genOffset :=
    TextDocument_offsetAt code {| line := genLine; character := genCharacter |} in
  let closed :=
    match st_current st with
    | Some current =>
        let length := matchedLength input code current genOffset in
        {| st_mappings := if 0 <? length
                          then addMapping (st_mappings st) current length
                          else st_mappings st;
           st_current := None |}
    | None => st
    end in
  match segment23 segment with
  | Some (sourceLine, sourceColumn) =>
      let sourceOffset :=
        TextDocument_offsetAt input
          {| line := sourceLine; character := sourceColumn |} in
      {| st_mappings := st_mappings closed;
         st_current := Some {| cur_genOffset := genOffset;
                               cur_sourceOffset := sourceOffset |} |}
  | None => closed
  end.

(** The loop over the generated lines, from line [genLine] on. *)
Fixpoint linesLoop (input code : jsstring) (genLine : Z) (st : LoopState)
  (v3Mappings : list (list SourceMapSegment)) : LoopState :=
  match v3Mappings with
  | [] => st
  | segments :: rest =>
      linesLoop input code (genLine + 1)
                (fold_left (stepSegment input code genLine) segments st) rest
  end.

(** The mappings when the loops end, before the whole-document entry. *)
Definition tableMappings (input code : jsstring)
  (v3Mappings : list (list SourceMapSegment)) : list Mapping :=
  st_mappings
    (linesLoop input code 0 {| st_mappings := []; st_current := None |}
               v3Mappings).

(** The entry pushed when the parsed code has a first statement. *)
Definition documentMapping (input code : jsstring) (ast : SourceFile)
  : list Mapping :=
  match statements ast with
  | statement0 :: _ =>
      [ {| sourceRange := (0, JS.length input);
           generatedRange := (getStart statement0, JS.length code);
           data := emptyData |} ]
  | [] => []
  end.

(** [mapping.data.formattingEdits = false] *)
Definition noFormatting (mapping : Mapping) : Mapping :=
  {| sourceRange := sourceRange mapping;
     generatedRange := generatedRange mapping;
     data := {| formattingEdits := Some false |} |}.

Definition getVirtualFileTSX (input : jsstring) (tsx : TSXResult)
  (fileId : jsstring) (ts : TypeScript) : VirtualFile :=
  let code := patchTSX (code tsx) fileId in
  let v3Mappings := decode (mappings (map tsx)) in
  let mappings := tableMappings input code v3Mappings in
  let ast := createSourceFile ts (lit "/a.tsx") code in
  let mappings := mappings ++ documentMapping input code ast in
  let mappings := List.map noFormatting mappings in
  {| id := fileId ++ lit ".tsx";
     languageId := lit "typescriptreact";
     scriptKind := TSX;
     isLanguageServiceSourceFile := true;
     snapshot := code;
     vf_mappings := mappings;
     embeddedFiles := [] |}.

(** *** astro2tsx *)

Record Astro2tsxResult := {
  virtualFile : VirtualFile;
  result_diagnostics : list DiagnosticMessage }.

(** The result, and the lines written with [console.error]. *)
Definition astro2tsx (input fileName : jsstring) (ts : TypeScript)
  : Astro2tsxResult * list jsstring :=
  let (tsx, console) := safeConvertToTSX input {| filename := Some fileName |} in
  ({| virtualFile := getVirtualFileTSX input tsx fileName ts;
      result_diagnostics := diagnostics tsx |},
   console).

End WithExternal.

End Astro2tsx.

(* ===================================================================== *)
(** ** The frontmatter scan *)
(* ===================================================================== *)

Module ParseAstro.

(** Modelled from the spec: a recorded edge of a delimiter, by line,
    column and offset.  As in the test of parseAstro, lines and columns
    count from one and offsets from zero. *)
Record Point := { point_line : Z; point_column : Z; point_offset : Z }.

(** Modelled from the spec: the three structural states of the
    frontmatter.  The position the spec derives for a synthetic close of
    an open frontmatter is not part of the model. *)
Inductive FrontmatterStatus :=
| absent
| open (start : Point)
| closed (start end_ : Point).

Definition delimiter : jsstring := lit "---".

(** The first occurrence of the delimiter in [rest], whose head is at
    offset [from] of the document. *)
Fixpoint findDelimiter (from : Z) (rest : jsstring) : option Z :=
  match rest with
  | [] => None
  | _ :: rest' =>
      if Astro2tsx.isPrefix delimiter rest then Some from
      else findDelimiter (from + 1) rest'
  end.

(** The point at [offset]: [line] and [column] are those of the code
    unit read last, [seen] the offset reached in [rest]. *)
Fixpoint pointFrom (line column seen : Z) (offset : nat) (rest : jsstring)
  : Point :=
  match offset, rest with
  | S offset', ch :: rest' =>
      if ch =? LF
      then pointFrom (line + 1) 1 (seen + 1) offset' rest'
      else pointFrom line (column + 1) (seen + 1) offset' rest'
  | _, _ => {| point_line := line; point_column := column; point_offset := seen |}
  end.

Definition pointAt (text : jsstring) (offset : Z) : Point :=
  pointFrom 1 1 0 (Z.to_nat offset) text.

(** Modelled from the spec: the scan of parseAstro.ts ([getAstroMetadata]
    and its frontmatter status) is imported and tested by the sources but
    is not one of them.  It searches the literal triple dash: none found
    is [absent]; one found is [open]; two or more found is [closed], the
    first two being the opening and the closing delimiter, recorded by
    the point where the first starts and the point where the second
    ends.  The second search starts after the first delimiter. *)
Definition scan (text : jsstring) : FrontmatterStatus :=
  match findDelimiter 0 text with
  | None => absent
  | Some first =>
      let after := first + JS.length delimiter in
      match findDelimiter after (skipn (Z.to_nat after) text) with
      | None => open (pointAt text first)
      | Some second =>
          closed (pointAt text first)
                 (pointAt text (second + JS.length delimiter))
      end
  end.

End ParseAstro.

(* ===================================================================== *)
(** ** core/index.ts *)
(* ===================================================================== *)

Module Core.

Import Astro2tsx ParseAstro.

(** The getter [hasCompilationErrors] of the Astro file: a compiler
    diagnostic of severity 1 is an error. *)
Definition hasCompilationErrors (compilerDiagnostics : list DiagnosticMessage)
  : bool :=
  0 <? Z.of_nat
         (List.length
            (filter (fun diag => severity diag =? 1) compilerDiagnostics)).

(** The offset [onSnapshotUpdated] hands to [parseHTML]: the end of the
    frontmatter when it is closed, 0 when it is not. *)
Definition frontmatterEnd (frontmatter : FrontmatterStatus) : Z :=
  match frontmatter with
  | closed _ end_ => point_offset end_
  | _ => 0
  end.

End Core.

(* ===================================================================== *)
(** ** The offset translators *)
(* ===================================================================== *)

Module SourceMap.

Import Astro2tsx.

(** Modelled from the spec: the translation through one pair of
    ranges.  An offset inside [from] is carried to the same distance from
    the start of [to]; it has no image when it is outside [from] or when
    the image leaves [to]. *)
Definition translate (from to : Z * Z) (offset : Z) : option Z :=
  if (fst from <=? offset) && (offset <=? snd from) then
    let image := fst to + (offset - fst from) in
    if (fst to <=? image) && (image <=? snd to) then Some image else None
  else None.

(** Modelled from the spec: [mapToGenerated] and [mapToOriginal] belong
    to the mapping library the sources hand their mappings to.  Through
    one segment, an original offset inside [sourceRange] has the
    generated offset the linear interpolation within [generatedRange]
    gives, one generated unit per original unit; an offset outside the
    range is unmapped, which is [None], never an error. *)
Definition mapToGenerated (segment : Mapping) (offset : Z) : option Z :=
  translate (sourceRange segment) (generatedRange segment) offset.

Definition mapToOriginal (segment : Mapping) (offset : Z) : option Z :=
  translate (generatedRange segment) (sourceRange segment) offset.

End SourceMap.

(* ===================================================================== *)
(** ** More of JavaScript's strings *)
(* ===================================================================== *)

Module JSText.

Import Astro2tsx.

Definition DASH : code_unit := 45.
Definition SLASH : code_unit := 47.
Definition LBRACE : code_unit := 123.
Definition RBRACE : code_unit := 125.

(** [s.trimStart()], [s.trimEnd()] and [s.trim()]: the white space and
    the line terminators are those of [isSpace]. *)
Fixpoint trimStart (s : jsstring) : jsstring :=
  match s with
  | c :: s' => if isSpace c then trimStart s' else s
  | [] => []
  end.

Definition trimEnd (s : jsstring) : jsstring := rev (trimStart (rev s)).

Definition trim (s : jsstring) : jsstring := trimEnd (trimStart s).

(** An argument of [slice]: a negative index counts from the end. *)
Definition sliceIndex (s : jsstring) (i : Z) : Z :=
  if i <? 0 then Z.max (JS.length s + i) 0 else Z.min i (JS.length s).

(** [s.slice(a, b)] and [s.slice(a)] *)
Definition slice (s : jsstring) (a b : Z) : jsstring :=
  let from := sliceIndex s a in
  let to := sliceIndex s b in
  firstn (Z.to_nat (to - from)) (skipn (Z.to_nat from) s).

Definition sliceFrom (s : jsstring) (a : Z) : jsstring :=
  slice s a (JS.length s).

(** [s.lastIndexOf(c)] for a string [c] of one code unit: [i] is the
    index of the head, [found] the last index found so far. *)
Fixpoint lastIndexFrom (c : code_unit) (i found : Z) (s : jsstring) : Z :=
  match s with
  | [] => found
  | a :: s' => lastIndexFrom c (i + 1) (if a =? c then i else found) s'
  end.

Definition lastIndexOf (c : code_unit) (s : jsstring) : Z :=
  lastIndexFrom c 0 (-1) s.

(** Three dashes at the head. *)
Definition isFence (a b c : code_unit) : bool :=
  (a =? DASH) && (b =? DASH) && (c =? DASH).

(** [s.split('---')]: [piece] is the piece being read. *)
Fixpoint splitFences (piece : jsstring) (s : jsstring) : list jsstring :=
  match s with
  | a :: s' =>
      match s' with
      | b :: c :: s'' =>
          if isFence a b c then piece :: splitFences [] s''
          else splitFences (piece ++ [a]) s'
      | _ => splitFences (piece ++ [a]) s'
      end
  | [] => [piece]
  end.

(** [s.split('\n')] *)
Fixpoint splitLines (piece : jsstring) (s : jsstring) : list jsstring :=
  match s with
  | c :: s' =>
      if c =? LF then piece :: splitLines [] s'
      else splitLines (piece ++ [c]) s'
  | [] => [piece]
  end.

(** [s.replace(/---/g, '///')] *)
Fixpoint commentFences (s : jsstring) : jsstring :=
  match s with
  | a :: s' =>
      match s' with
      | b :: c :: s'' =>
          if isFence a b c then [SLASH; SLASH; SLASH] ++ commentFences s''
          else a :: commentFences s'
      | _ => a :: commentFences s'
      end
  | [] => []
  end.

(** [s.search(re)] for the expression of a run of non-space code units
    that ends the string: the index where the leftmost such run starts,
    or -1.  [i] is the index of the head. *)
Fixpoint searchLastWord (i : Z) (s : jsstring) : Z :=
  match s with
  | [] => -1
  | _ :: s' =>
      if forallb (fun c => negb (isSpace c)) s then i
      else searchLastWord (i + 1) s'
  end.

(** [s.search(re)] for the expression of one white space: the index of
    the first one, or -1. *)
Fixpoint searchSpace (i : Z) (s : jsstring) : Z :=
  match s with
  | [] => -1
  | c :: s' => if isSpace c then i else searchSpace (i + 1) s'
  end.

(** *** Numbers that hold an integer

    A JavaScript number is a double: every integer up to 2^53 in size
    is one, and above that only the multiples of a power of two, 53
    bits wide, are. *)

Definition TWO_53 : Z := 9007199254740992.

(** The double nearest to the integer [x], the even one of two that are
    equally near.  Integers past the largest double, which round to
    infinity, are outside the model. *)
Definition roundToDouble (x : Z) : Z :=
  let a := Z.abs x in
  if a <=? TWO_53 then x
  else
    let ulp := 2 ^ (Z.log2 a - 52) in
    let q := a / ulp in
    let r := a mod ulp in
    let q' := if 2 * r <? ulp then q
              else if ulp <? 2 * r then q + 1
              else if Z.even q then q else q + 1 in
    Z.sgn x * (q' * ulp).

(** [x++] on a number that holds an integer: the new value. *)
Definition increment (x : Z) : Z := roundToDouble (x + 1).

(** [re.test(s)] for an expression that is a literal: the literal occurs
    in the string. *)
Fixpoint occurs (literal s : jsstring) : bool :=
  isPrefix literal s
  || match s with
     | _ :: s' => occurs literal s'
     | [] => false
     end.

End JSText.

(* ===================================================================== *)
(** ** core/documents/utils.ts, the other helpers *)
(* ===================================================================== *)

Module DocumentUtils.

Import Astro2tsx JSText Utils.

(** [isInsideExpression(html, tagStart, position)] *)
Definition isInsideExpression (html : jsstring) (tagStart position : Z) : bool :=
  let charactersInNode := substring html tagStart position in
  lastIndexOf LBRACE charactersInNode >? lastIndexOf RBRACE charactersInNode.

(** [isInsideFrontmatter(text, offset)] *)
Definition isInsideFrontmatter (text : jsstring) (offset : Z) : bool :=
  let start :=
    Z.of_nat (List.length (splitFences [] (trim (slice text 0 offset)))) in
  let end_ :=
    Z.of_nat (List.length (splitFences [] (trim (sliceFrom text offset)))) in
  (start >? 1) && (start <? 3) && (end_ >=? 1).

(** The two expressions of [getWordRangeAt], by what [search] finds with
    each. *)
Record DelimiterRegex := {
  left : jsstring -> Z;
  right : jsstring -> Z }.

Definition defaultDelimiterRegex : DelimiterRegex :=
  {| left := searchLastWord 0; right := searchSpace 0 |}.

Record WordRange := { range_start : Z; range_end : Z }.

(** [getWordRangeAt(str, pos, delimiterRegex)], and the call with the
    default expressions. *)
Definition getWordRangeAtWith (delimiterRegex : DelimiterRegex)
  (str : jsstring) (pos : Z) : WordRange :=
  let start := left delimiterRegex (slice str 0 pos) in
  let start := if start <? 0 then pos else start in
  let end_ := right delimiterRegex (sliceFrom str pos) in
  let end_ := if end_ <? 0 then JS.length str else end_ + pos in
  {| range_start := start; range_end := end_ |}.

Definition getWordRangeAt (str : jsstring) (pos : Z) : WordRange :=
  getWordRangeAtWith defaultDelimiterRegex str pos.

(** [getFirstNonWhitespaceIndex(str)] *)
Definition getFirstNonWhitespaceIndex (str : jsstring) : Z :=
  JS.length str - JS.length (trimStart str).

(** [isComponentTag(node)]: the tag is there, is not empty and starts
    with a letter of A to Z. *)
Definition isComponentTag (node : Node) : bool :=
  match tag node with
  | Some (firstChar :: _) => (65 <=? firstChar) && (firstChar <=? 90)
  | _ => false
  end.

(** [!node.startTagEnd || offset < node.startTagEnd]: a missing end, or
    the end 0, counts as not there. *)
Definition beforeStartTagEnd (node : Node) (offset : Z) : bool :=
  match startTagEnd node with
  | Some e => (e =? 0) || (offset <? e)
  | None => true
  end.

Section WithDocument.

(** [html.findNodeAt(offset)] of the HTML language service, and the
    lower-casing of the JavaScript runtime. *)
Variable findNodeAt : HTMLDocument -> Z -> Node.
Variable toLowerCase : jsstring -> jsstring.

(** [getNodeIfIsInHTMLStartTag(html, offset)] *)
Definition getNodeIfIsInHTMLStartTag (html : HTMLDocument) (offset : Z)
  : option Node :=
  let node := findNodeAt html offset in
  match tag node with
  | Some (tag0 :: _) =>
      if JS.eqb [tag0] (toLowerCase [tag0]) && beforeStartTagEnd node offset
      then Some node
      else None
  | _ => None
  end.

(** [isInComponentStartTag(html, offset)] *)
Definition isInComponentStartTag (html : HTMLDocument) (offset : Z) : bool :=
  let node := findNodeAt html offset in
  isComponentTag node && beforeStartTagEnd node offset.

End WithDocument.

End DocumentUtils.

(* ===================================================================== *)
(** ** plugins/typescript: the document snapshots *)
(* ===================================================================== *)

Module Snapshots.

Import Astro2tsx JSText Utils.

Section WithDefinitions.

(** The content of astro.d.ts, read when the module is loaded. *)
Variable ASTRO_DEFINITION : jsstring.

(** [addProps(content, dtsContent)] of the Astro document snapshot. *)
Definition addProps (content dtsContent : jsstring) : jsstring :=
  let defaultExportType :=
    if occurs (lit "interface Props") content || occurs (lit "type Props") content
    then lit "Props"
    else lit "Record<string, any>" in
  dtsContent ++ [LF]
  ++ lit "export default function (props: " ++ defaultExportType
  ++ lit "): string;".

(** [transformContent(content)] of the Astro document snapshot, which is
    its [text] for the raw text [content]. *)
Definition transformContent (content : jsstring) : jsstring :=
  let raw := commentFences content in
  raw ++ addProps raw ASTRO_DEFINITION.

(** [transformContent(content)] of the document fragment snapshot. *)
Definition fragmentTransformContent (content : jsstring) : jsstring :=
  commentFences content ++ ASTRO_DEFINITION.

End WithDefinitions.

(** [getLineContainingOffset(offset)] on a snapshot of text [text]. *)
Definition getLineContainingOffset (text : jsstring) (offset : Z) : jsstring :=
  let chunks := splitLines [] (substring text 0 offset) in
  List.last chunks [].

(** The TypeScript document snapshot, by its fields that change.  The
    version is a number that holds an integer. *)
Record TypeScriptDocumentSnapshot := {
  version : Z;
  text : jsstring }.

(** A content change: with a range, or of the whole text. *)
Record TextDocumentContentChangeEvent := {
  change_range : option (Position * Position);
  change_text : jsstring }.

(** The body of the loop of [update], on the text. *)
Definition applyChange (text : jsstring)
  (change : TextDocumentContentChangeEvent) : jsstring :=
  let (start, end_) :=
    match change_range change with
    | Some (range_start, range_end) =>
        (offsetAt range_start text, offsetAt range_end text)
    | None => (0, JS.length text)
    end in
  slice text 0 start ++ change_text change ++ sliceFrom text end_.

(** [update(changes)]: the changes in turn, then [this.version++]. *)
Definition update (snapshot : TypeScriptDocumentSnapshot)
  (changes : list TextDocumentContentChangeEvent) : TypeScriptDocumentSnapshot :=
  {| version := increment (version snapshot);
     text := fold_left applyChange changes (text snapshot) |}.

End Snapshots.

(* ===================================================================== *)
(** ** The extraction of the embedded blocks *)
(* ===================================================================== *)

Module EmbeddedBlocks.

Import Utils.







End EmbeddedBlocks.

(* ===================================================================== *)
(** ** Sample inputs *)
(* ===================================================================== *)

Module Samples.

Import Astro2tsx.

(** Two lines, [ab] and [cd]. *)
Definition twoLines : jsstring := lit "ab" ++ [LF] ++ lit "cd".

(** Upper-casing of ASCII letters, enough for the samples. *)
Definition asciiUpper (s : jsstring) : jsstring :=
  List.map (fun c => if (97 <=? c) && (c <=? 122) then c - 32 else c) s.

(** Collaborators for a file [index.astro]: the compiler answers with
    [outcome], the codec decodes to [table], and text documents convert
    positions as [Utils.offsetAt] does. *)
Definition collaborators (outcome : Outcome TSXResult)
  (table : list (list SourceMapSegment)) : External :=
  {| convertToTSX := fun _ _ => outcome;
     decode := fun _ => table;
     path_extname := fun _ => lit ".astro";
     path_basename := fun _ _ => lit "index";
     toUpperCase := asciiUpper;
     TextDocument_offsetAt := fun text position => Utils.offsetAt position text |}.

(** A parser that finds no statement in an empty code, and otherwise a
    first statement at [start]. *)
Definition typescript (start : Z) : TypeScript :=
  {| createSourceFile := fun _ code =>
       {| statements := match code with
                        | [] => []
                        | _ => [ {| getStart := start |} ]
                        end |} |}.

Definition fileName : jsstring := lit "index.astro".

Definition sourceMapOf (encoded : jsstring) : RawSourceMap :=
  {| map_file := fileName;
     sources := [fileName];
     sourcesContent := [];
     names := [];
     mappings := encoded;
     version := 3 |}.

(** A heading, and a generated code that wraps it in a fragment: the
    second generated line is the heading, character for character. *)
Definition heading : jsstring := lit "<h1>Hi</h1>".

Definition headingTSX : TSXResult :=
  {| code := lit "<Fragment>" ++ [LF] ++ heading ++ [LF] ++ lit "</Fragment>";
     map := sourceMapOf (lit ";AAAA,W;");
     diagnostics := [] |}.

Definition headingTable : list (list SourceMapSegment) :=
  [ []; [Seg4 0 0 0 0; Seg1 11]; [] ].

Definition headingWorld : External := collaborators (Returned headingTSX) headingTable.

(** The same heading with an attribute the generated code rewrites. *)
Definition link : jsstring := lit "<a b>x</a>".

Definition linkTSX : TSXResult :=
  {| code := lit "<a c>x</a>";
     map := sourceMapOf (lit "AAAA,U");
     diagnostics := [] |}.

Definition linkTable : list (list SourceMapSegment) :=
  [ [Seg4 0 0 0 0; Seg1 10] ].

Definition linkWorld : External := collaborators (Returned linkTSX) linkTable.

(** A generated code shorter than the document. *)
Definition shortTSX : TSXResult :=
  {| code := lit "<h1/>";
     map := sourceMapOf [];
     diagnostics := [] |}.

Definition shortWorld : External := collaborators (Returned shortTSX) [ [] ].

(** A compiler that throws. *)
Definition failingWorld : External := collaborators (Threw (lit "panic")) [ [] ].

(** The document of the test of parseCSS: a style block at the top
    level, and one inside a [div], as the HTML parser gives it. *)
Definition twoStyles : jsstring :=
  lit "<style>h1{color: blue;}</style><div><style>h2{color: red;}</style></div>".

Definition topStyle : Utils.Node :=
  Utils.mkNode (Some (lit "style")) 0 31 (Some 7) (Some 23) None true [].

Definition nestedStyle : Utils.Node :=
  Utils.mkNode (Some (lit "style")) 36 66 (Some 43) (Some 58) None true [].

Definition divAroundStyle : Utils.Node :=
  Utils.mkNode (Some (lit "div")) 31 72 (Some 36) (Some 66) None true
               [nestedStyle].

Definition twoStylesDocument : Utils.HTMLDocument :=
  {| Utils.roots := [topStyle; divAroundStyle] |}.

(** The same [div] alone: [<div><style>h2{color: red;}</style></div>]. *)
Definition oneNestedStyle : jsstring :=
  lit "<div><style>h2{color: red;}</style></div>".

Definition oneNestedStyleDocument : Utils.HTMLDocument :=
  {| Utils.roots :=
       [ Utils.mkNode (Some (lit "div")) 0 41 (Some 5) (Some 35) None true
           [ Utils.mkNode (Some (lit "style")) 5 35 (Some 12) (Some 27)
                          None true [] ] ] |}.

(** A parser for the calls that pass no parsed document. *)
Definition noHtml (text : jsstring) : Utils.HTMLDocument :=
  {| Utils.roots := [] |}.

(** The three documents of the test of parseAstro. *)
Definition closedFrontmatter : jsstring :=
  lit "---" ++ [LF] ++ lit "--- <div>Astro!</div>".

Definition openFrontmatter : jsstring :=
  lit "---" ++ [LF] ++ lit "<div>Astro!</div>".

Definition noFrontmatter : jsstring := lit "<div>Astro!</div>".

End Samples.

(* ===================================================================== *)
(** ** Sample inputs of the other helpers *)
(* ===================================================================== *)

Module MoreSamples.

Import Astro2tsx.

(** Lower-casing of ASCII letters, enough for the samples. *)
Definition asciiLower (s : jsstring) : jsstring :=
  List.map (fun c => if (65 <=? c) && (c <=? 90) then c + 32 else c) s.

(** [<Card title="a">], a component, and [<div>], an element. *)
Definition cardNode : Utils.Node :=
  Utils.mkNode (Some (lit "Card")) 0 16 (Some 16) None
               (Some [(lit "title", Some [34; 97; 34])]) false [].

Definition divNode : Utils.Node :=
  Utils.mkNode (Some (lit "div")) 16 27 (Some 21) (Some 21) None true [].

(** A document where every offset before 16 is in the component and
    every other offset is in the element. *)
Definition findNodeAt (html : Utils.HTMLDocument) (offset : Z) : Utils.Node :=
  if offset <? 16 then cardNode else divNode.

(** A frontmatter and a first line of markup. *)
Definition page : jsstring :=
  lit "---" ++ [LF] ++ lit "const a = 1" ++ [LF] ++ lit "---" ++ [LF]
  ++ lit "<h1>{a}</h1>".

End MoreSamples.

(* ===================================================================== *)
(** ** Properties of mappings *)
(* ===================================================================== *)

Module Properties.

Import Astro2tsx.

(** The line offsets grow strictly, by index. *)
Definition increasing (l : list Z) : Prop :=
  forall i j x y, i < j -> index l i = Some x -> index l j = Some y -> x < y.

(** What [lineOffsetsFrom] pushes from index [i] on: offsets of the
    text that grow strictly, none before [i], none equal to [i] unless
    a line starts there. *)
Definition offsetsFrom (len i : Z) (isLineStart : bool) (l : list Z) : Prop :=
  increasing l
  /\ Forall (fun x => (if isLineStart then i <= x else i < x) /\ x <= len) l.

(** The two ranges of a mapping have the same length. *)
Definition sameLength (m : Mapping) : Prop :=
  snd (sourceRange m) - fst (sourceRange m)
  = snd (generatedRange m) - fst (generatedRange m).

(** The mapping is not empty, its ranges lie in the two documents, have
    the same length and cover the same text. *)
Definition sameText (input code : jsstring) (m : Mapping) : Prop :=
  sameLength m
  /\ fst (sourceRange m) < snd (sourceRange m)
  /\ 0 <= fst (sourceRange m)
  /\ snd (sourceRange m) <= JS.length input
  /\ 0 <= fst (generatedRange m)
  /\ snd (generatedRange m) <= JS.length code
  /\ substring input (fst (sourceRange m)) (snd (sourceRange m))
     = substring code (fst (generatedRange m)) (snd (generatedRange m)).

(** The generated range of [m1] ends where that of [m2] starts, or
    before. *)
Definition before (m1 m2 : Mapping) : Prop :=
  snd (generatedRange m1) <= fst (generatedRange m2).

(** [offset] is one of the generated offsets of [m], the end apart. *)
Definition covers (m : Mapping) (offset : Z) : Prop :=
  fst (generatedRange m) <= offset < snd (generatedRange m).

(** [offset] is an offset of the source range of [m], ends included. *)
Definition inSourceRange (m : Mapping) (offset : Z) : Prop :=
  fst (sourceRange m) <= offset <= snd (sourceRange m).

(** The two texts [matchedLength] compares. *)
Definition sourceTextOf (input : jsstring) (current : Current) (genOffset : Z)
  : jsstring :=
  substring input (cur_sourceOffset current)
            (cur_sourceOffset current + (genOffset - cur_genOffset current)).

Definition genTextOf (code : jsstring) (current : Current) (genOffset : Z)
  : jsstring :=
  substring code (cur_genOffset current)
            (cur_genOffset current + (genOffset - cur_genOffset current)).

(** The mapping a run pushes, and the one it makes of the last mapping
    when it continues it. *)
Definition pushedMapping (current : Current) (length : Z) : Mapping :=
  {| sourceRange := (cur_sourceOffset current, cur_sourceOffset current + length);
     generatedRange := (cur_genOffset current, cur_genOffset current + length);
     data := emptyData |}.

Definition grownMapping (last : Mapping) (current : Current) (length : Z)
  : Mapping :=
  {| sourceRange := (fst (sourceRange last), cur_sourceOffset current + length);
     generatedRange := (fst (generatedRange last), cur_genOffset current + length);
     data := data last |}.

(** An invariant of the loops: [P] holds of every mapping, [Q] of the
    pending run. *)
Definition loopInvariant (P : Mapping -> Prop) (Q : Current -> Prop)
  (st : LoopState) : Prop :=
  Forall P (st_mappings st)
  /\ (forall current, st_current st = Some current -> Q current).

(** The invariant of the loops when the generated offsets do not
    decrease: the mappings are in order, none is empty, none reaches
    past the last generated offset [frontier], where the pending run
    starts. *)
Definition orderInvariant (st : LoopState) (frontier : Z) : Prop :=
  StronglySorted before (st_mappings st)
  /\ Forall (fun m => fst (generatedRange m) < snd (generatedRange m)
                      /\ snd (generatedRange m) <= frontier)
            (st_mappings st)
  /\ (forall current,
         st_current st = Some current -> cur_genOffset current = frontier).

(** The generated lines with their numbers, in the order the two loops
    visit the segments. *)
Fixpoint numbered (genLine : Z) (v3Mappings : list (list SourceMapSegment))
  : list (Z * SourceMapSegment) :=
  match v3Mappings with
  | [] => []
  | segments :: rest =>
      List.map (fun segment => (genLine, segment)) segments
      ++ numbered (genLine + 1) rest
  end.

Section Runs.

Context {E : External}.

(** The generated offsets [genOffset] the loops compute, in order. *)
Definition genOffsets (code : jsstring)
  (v3Mappings : list (list SourceMapSegment)) : list Z :=
  List.map
    (fun ls => TextDocument_offsetAt code
                 {| line := fst ls; character := segment0 (snd ls) |})
    (numbered 0 v3Mappings).


(** The runs the two loops close, each with the generated offset that
    closes it, in order; [current] is the run pending when the visit of
    [visited] starts. *)
Fixpoint closedRuns (input code : jsstring) (current : option Current)
  (visited : list (Z * SourceMapSegment)) : list (Current * Z) :=
  match visited with
  | [] => []
  | (genLine, segment) :: rest =>
      let genOffset :=
        TextDocument_offsetAt code
          {| line := genLine; character := segment0 segment |} in
      let next :=
        match segment23 segment with
        | Some (sourceLine, sourceColumn) =>
            Some {| cur_genOffset := genOffset;
                    cur_sourceOffset :=
                      TextDocument_offsetAt input
                        {| line := sourceLine; character := sourceColumn |} |}
        | None => None
        end in
      match current with
      | Some run => (run, genOffset) :: closedRuns input code next rest
      | None => closedRuns input code next rest
      end
  end.

End Runs.

(** [offset] is a generated offset of the run that its mapping leaves
    out: after the length kept, before the offset that closes the run. *)
Definition leftOut (input code : jsstring) (run : Current * Z) (offset : Z)
  : Prop :=
  cur_genOffset (fst run)
  + Z.max 0 (matchedLength input code (fst run) (snd run)) <= offset
  /\ offset < snd run.

(** The runs closed so far end at the frontier or before, and no mapping
    covers an offset they left out. *)
Definition leftOutInvariant (input code : jsstring) (st : LoopState)
  (frontier : Z) (runs : list (Current * Z)) : Prop :=
  forall run, In run runs ->
    snd run <= frontier
    /\ (forall offset m,
           leftOut input code run offset -> In m (st_mappings st) ->
           ~ covers m offset).

End Properties.

(* ===================================================================== *)
(** ** Properties of texts, of positions and of trees *)
(* ===================================================================== *)

Module Shapes.

Import Astro2tsx JSText Utils.

(** A line break of [text] at index [k]: a line feed, or a carriage
    return that no line feed follows. *)
Definition lineBreakAt (text : jsstring) (k : Z) : Prop :=
  index text k = Some LF
  \/ (index text k = Some CR /\ index text (k + 1) <> Some LF).

(** [p] is the position of offset [o] on a line of [text]: the
    character is counted from the start of the line, and [o] is before
    the start of the next line. *)
Definition onLine (text : jsstring) (p : Position) (o : Z) : Prop :=
  exists lineOffset,
    index (getLineOffsets text) (line p) = Some lineOffset
    /\ 0 <= character p
    /\ o = lineOffset + character p
    /\ o <= JS.length text
    /\ (forall next,
           index (getLineOffsets text) (line p + 1) = Some next -> o < next).

(** The order of positions: by line, then by character. *)
Definition positionLe (p q : Position) : Prop :=
  line p < line q \/ (line p = line q /\ character p <= character q).

(** [n] is [m] or a node below it. *)
Inductive Within (n : Node) : Node -> Prop :=
| Within_self : Within n n
| Within_child (c m : Node) : In c (children m) -> Within n c -> Within n m.

(** The number of nodes of a tree. *)
Fixpoint size (node : Node) : nat :=
  S (list_sum (List.map size (children node))).

(** The triple dash. *)
Definition fence : jsstring := [DASH; DASH; DASH].

(** The triple dash occurs in [s]. *)
Definition hasFence (s : jsstring) : bool := occurs fence s.

(** No code unit of [w] is white space. *)
Definition wordOf (w : jsstring) : Prop :=
  Forall (fun c => isSpace c = false) w.

(** Every code unit of [w] is white space. *)
Definition blankOf (w : jsstring) : Prop :=
  Forall (fun c => isSpace c = true) w.

(** [s] is empty or starts with white space; [s] is empty or ends with
    white space; [s] is empty or starts with another code unit. *)
Definition spaceAhead (s : jsstring) : Prop :=
  match s with
  | c :: _ => isSpace c = true
  | [] => True
  end.

Definition spaceBehind (s : jsstring) : Prop := spaceAhead (rev s).

Definition noSpaceAhead (s : jsstring) : Prop :=
  match s with
  | c :: _ => isSpace c = false
  | [] => True
  end.

(** The mapping [m] holds the [k] code units of the run [current]: the
    span that starts at the run's generated offset lies in the generated
    range of [m], the span that starts at its source offset lies in the
    source range, and the two are at the same distance from the starts
    of the two ranges. *)
Definition holds (m : Mapping) (current : Current) (k : Z) : Prop :=
  fst (generatedRange m) <= cur_genOffset current
  /\ cur_genOffset current + k <= snd (generatedRange m)
  /\ fst (sourceRange m) <= cur_sourceOffset current
  /\ cur_sourceOffset current + k <= snd (sourceRange m)
  /\ cur_genOffset current - fst (generatedRange m)
     = cur_sourceOffset current - fst (sourceRange m).

(** The two ranges of a mapping have one length and are not empty. *)
Definition wellFormed (m : Mapping) : Prop :=
  Properties.sameLength m /\ fst (generatedRange m) < snd (generatedRange m).

(** An invariant of the loops: the mappings are well formed, and each
    run closed so far with a length kept above zero is held by one of
    them. *)
Definition keptInvariant (input code : jsstring) (st : LoopState)
  (runs : list (Current * Z)) : Prop :=
  Forall wellFormed (st_mappings st)
  /\ forall run,
       In run runs ->
       0 < matchedLength input code (fst run) (snd run) ->
       exists m,
         In m (st_mappings st)
         /\ holds m (fst run) (matchedLength input code (fst run) (snd run)).

(** The second mapping continues the first on both sides: this is the
    test [getVirtualFileTSX] makes before it pushes a mapping. *)
Definition adjacent (m1 m2 : Mapping) : Prop :=
  snd (generatedRange m1) = fst (generatedRange m2)
  /\ snd (sourceRange m1) = fst (sourceRange m2).

(** No mapping of the list continues the one before it. *)
Fixpoint separate (l : list Mapping) : Prop :=
  match l with
  | m1 :: rest =>
      match rest with
      | m2 :: _ => ~ adjacent m1 m2
      | [] => True
      end
      /\ separate rest
  | [] => True
  end.

(** The segment carries a source line and a source column. *)
Definition sourced (segment : SourceMapSegment) : bool :=
  match segment23 segment with
  | Some _ => true
  | None => false
  end.

(** The last of the segments carries a source position. *)
Definition endsSourced (segments : list SourceMapSegment) : bool :=
  match rev segments with
  | segment :: _ => sourced segment
  | [] => false
  end.

End Shapes.

(* ===================================================================== *)
(** ** The functions on the samples *)
(* ===================================================================== *)

Module Examples.

Import Utils Astro2tsx Samples.

Example getLineOffsets_twoLines : getLineOffsets twoLines = [0; 3].
Proof. reflexivity. Qed.

Example getLineOffsets_carriage_return :
  getLineOffsets ([CR; LF] ++ lit "a" ++ [CR]) = [0; 2; 4].
Proof. reflexivity. Qed.

Example positionAt_twoLines :
  positionAt 4 twoLines = Some {| line := 1; character := 1 |}.
Proof. reflexivity. Qed.

Example positionAt_past_the_end :
  positionAt 100 twoLines = Some {| line := 1; character := 2 |}.
Proof. reflexivity. Qed.

Example offsetAt_past_the_line :
  offsetAt {| line := 0; character := 100 |} twoLines = 3.
Proof. reflexivity. Qed.

Example offsetAt_negative_character :
  offsetAt {| line := 1; character := -5 |} twoLines = 3.
Proof. reflexivity. Qed.

(** The component of [index.astro] is renamed [Index]. *)
Example patchTSX_index :
  @patchTSX headingWorld
    (lit "export default function index__AstroComponent_(_props: Record<string, any>): any {}")
    fileName
  = lit "export default function Index(_props: Record<string, any>): any {}".
Proof. vm_compute. reflexivity. Qed.

(** A marker with nothing before it is left as it is. *)
Example patchTSX_bare_marker :
  @patchTSX headingWorld (lit "function __AstroComponent_() {}") fileName
  = lit "function __AstroComponent_() {}".
Proof. vm_compute. reflexivity. Qed.

(** The heading: one segment from the table, then the whole document. *)
Example mappings_heading :
  vf_mappings (@getVirtualFileTSX headingWorld heading headingTSX fileName
                 (typescript 0))
  = [ {| sourceRange := (0, 11); generatedRange := (11, 22);
         data := {| formattingEdits := Some false |} |};
      {| sourceRange := (0, 11); generatedRange := (0, 34);
         data := {| formattingEdits := Some false |} |} ].
Proof. vm_compute. reflexivity. Qed.

(** The link: the run of ten code units is cut to the three on which the
    two texts agree. *)
Example mappings_link :
  vf_mappings (@getVirtualFileTSX linkWorld link linkTSX fileName
                 (typescript 0))
  = [ {| sourceRange := (0, 3); generatedRange := (0, 3);
         data := {| formattingEdits := Some false |} |};
      {| sourceRange := (0, 10); generatedRange := (0, 10);
         data := {| formattingEdits := Some false |} |} ].
Proof. vm_compute. reflexivity. Qed.

(** Two runs that follow each other on both sides make one mapping. *)
Example mappings_merged :
  @tableMappings headingWorld (lit "abcdef") (lit "abcdef")
    [ [Seg4 0 0 0 0; Seg4 3 0 0 3; Seg1 6] ]
  = [ {| sourceRange := (0, 6); generatedRange := (0, 6);
         data := {| formattingEdits := None |} |} ].
Proof. vm_compute. reflexivity. Qed.

End Examples.

(* ===================================================================== *)
(** ** Positions and offsets *)
(* ===================================================================== *)

Module UtilsFacts.

Import Utils Properties.

Lemma index_Some {A : Type} (l : list A) (i : Z) (x : A) :
  index l i = Some x <-> 0 <= i /\ nth_error l (Z.to_nat i) = Some x.
Proof.
  unfold index. destruct (Z.ltb_spec i 0); split; intros H1.
  - discriminate.
  - lia.
  - split; [lia | exact H1].
  - apply H1.
Qed.

Lemma index_in_range {A : Type} (l : list A) (i : Z) :
  0 <= i < Z.of_nat (List.length l) -> exists x, index l i = Some x.
Proof.
  intros H. destruct (nth_error l (Z.to_nat i)) as [x|] eqn:Hx.
  - exists x. apply index_Some. split; [lia | exact Hx].
  - apply nth_error_None in Hx. lia.
Qed.

Lemma index_range {A : Type} (l : list A) (i : Z) (x : A) :
  index l i = Some x -> 0 <= i < Z.of_nat (List.length l).
Proof.
  intros H. apply index_Some in H. destruct H as [H0 H].
  assert (Hn : nth_error l (Z.to_nat i) <> None) by congruence.
  apply nth_error_Some in Hn. lia.
Qed.

Lemma index_nth (l : list Z) (i x : Z) :
  index l i = Some x -> nth (Z.to_nat i) l 0 = x.
Proof.
  intros H. apply index_Some in H. destruct H as [_ H].
  now apply nth_error_nth.
Qed.


Lemma increasing_cons (a : Z) (l : list Z) :
  Forall (fun x => a < x) l -> increasing l -> increasing (a :: l).
Proof.
  intros Ha Hl i j x y Hij Hi Hj.
  apply index_Some in Hi, Hj. destruct Hi as [Hi0 Hi], Hj as [Hj0 Hj].
  destruct (Z.to_nat j) as [|j'] eqn:Ej; [lia|].
  simpl in Hj.
  destruct (Z.to_nat i) as [|i'] eqn:Ei; simpl in Hi.
  - injection Hi as <-. apply nth_error_In in Hj.
    rewrite Forall_forall in Ha. now apply Ha.
  - apply (Hl (Z.of_nat i') (Z.of_nat j')); [lia | |];
      apply index_Some; rewrite Nat2Z.id; split; (lia || assumption).
Qed.

Lemma increasing_nil : increasing [].
Proof.
  intros i j x y _ Hi _. apply index_range in Hi. simpl in Hi. lia.
Qed.


Lemma offsetsFrom_weaken len i j b l :
  offsetsFrom len j true l -> i < j -> offsetsFrom len i b l.
Proof.
  intros [Hinc Hall] Hij. split; [exact Hinc|].
  eapply Forall_impl; [|exact Hall]. simpl. intros x [H1 H2].
  destruct b; lia.
Qed.

Lemma offsetsFrom_push len i j l :
  offsetsFrom len j true l -> i < j -> i <= len ->
  offsetsFrom len i true (i :: l).
Proof.
  intros [Hinc Hall] Hij Hlen. split.
  - apply increasing_cons; [|exact Hinc].
    eapply Forall_impl; [|exact Hall]. simpl. lia.
  - constructor; [lia|].
    eapply Forall_impl; [|exact Hall]. simpl. lia.
Qed.

Lemma lineOffsetsFrom_end len b :
  offsetsFrom len len b (lineOffsetsFrom len len b []).
Proof.
  simpl. destruct (b && (0 <? len)) eqn:Hb.
  - apply andb_true_iff in Hb. destruct Hb as [-> _]. split.
    + apply increasing_cons; [constructor | apply increasing_nil].
    + constructor; [lia | constructor].
  - split; [apply increasing_nil | constructor].
Qed.

Lemma lineOffsetsFrom_offsets (n : nat) :
  forall rest len i b,
    (List.length rest <= n)%nat ->
    i + JS.length rest = len -> 0 <= i ->
    offsetsFrom len i b (lineOffsetsFrom len i b rest).
Proof.
  unfold JS.length.
  induction n as [|n IH]; intros rest len i b Hn Hlen Hi.
  - destruct rest; [|simpl in Hn; lia]. simpl in Hlen.
    replace i with len by lia. apply lineOffsetsFrom_end.
  - destruct rest as [|ch rest'].
    + simpl in Hlen. replace i with len by lia. apply lineOffsetsFrom_end.
    + cbn [lineOffsetsFrom]. cbn [List.length] in Hn, Hlen.
      assert (Hnext : forall b', offsetsFrom len (i + 1) b'
                 (lineOffsetsFrom len (i + 1) b' rest')).
      { intros b'. apply IH; lia. }
      assert (Hstep : forall b' l,
                 offsetsFrom len (i + 1) b' l ->
                 offsetsFrom len i b ((if b then [i] else []) ++ l)).
      { intros b' l [Hinc Hall].
        assert (Hl : offsetsFrom len (i + 1) true l).
        { split; [exact Hinc|]. eapply Forall_impl; [|exact Hall].
          simpl. intros x [H1 H2]. destruct b'; lia. }
        destruct b; simpl.
        - apply (offsetsFrom_push len i (i + 1)); [exact Hl | lia | lia].
        - apply (offsetsFrom_weaken len i (i + 1)); [exact Hl | lia]. }
      destruct (ch =? CR).
      * destruct rest' as [|ch' rest''].
        -- apply (Hstep true), Hnext.
        -- destruct (ch' =? LF).
           ++ cbn [List.length] in Hn, Hlen.
              assert (H2 : offsetsFrom len (i + 2) true
                        (lineOffsetsFrom len (i + 2) true rest'')).
              { apply IH; lia. }
              apply (Hstep true).
              apply (offsetsFrom_weaken len (i + 1) (i + 2) true); [exact H2 | lia].
           ++ apply (Hstep true), Hnext.
      * apply (Hstep (ch =? LF)), Hnext.
Qed.

(** A text that is not empty has a first line, at offset 0. *)
Lemma getLineOffsets_head (ch : code_unit) (rest : jsstring) :
  exists tl, getLineOffsets (ch :: rest) = 0 :: tl.
Proof.
  unfold getLineOffsets. cbn [lineOffsetsFrom].
  destruct (ch =? CR); [destruct rest as [|ch' rest']; [|destruct (ch' =? LF)]|];
    simpl; eexists; reflexivity.
Qed.

Lemma getLineOffsets_offsets (text : jsstring) :
  offsetsFrom (JS.length text) 0 true (getLineOffsets text).
Proof.
  apply (lineOffsetsFrom_offsets (List.length text)); lia.
Qed.

(** What the three answers of a probe say. *)
Lemma probe_Hit l mid offset :
  probe l mid offset = Hit -> index l mid = Some offset.
Proof.
  unfold probe. destruct (index l mid) as [x|]; [|discriminate].
  destruct (Z.eqb_spec x offset); [congruence|].
  destruct (offset >? x); discriminate.
Qed.

Lemma probe_GoRight l mid offset :
  probe l mid offset = GoRight -> exists x, index l mid = Some x /\ x < offset.
Proof.
  unfold probe. destruct (index l mid) as [x|]; [|discriminate].
  destruct (Z.eqb_spec x offset); [discriminate|].
  destruct (offset >? x) eqn:Hgt; [|discriminate].
  intros _. exists x. split; [reflexivity | apply Z.gtb_lt in Hgt; lia].
Qed.

Lemma probe_GoLeft l mid offset :
  probe l mid offset = GoLeft ->
  index l mid = None \/ exists x, index l mid = Some x /\ offset < x.
Proof.
  unfold probe. destruct (index l mid) as [x|]; [|now left].
  destruct (Z.eqb_spec x offset); [discriminate|].
  destruct (offset >? x) eqn:Hgt; [discriminate|].
  intros _. right. exists x. split; [reflexivity|].
  rewrite Z.gtb_ltb in Hgt. apply Z.ltb_ge in Hgt. lia.
Qed.

(** The invariant of the binary search: the offsets before [low] are
    smaller than [offset], those after [high] are larger. *)
Lemma positionAtLoop_spec (lineOffsets : list Z) (offset low high : Z) :
  increasing lineOffsets ->
  0 <= low <= Z.of_nat (List.length lineOffsets) ->
  low <= high + 1 ->
  high <= Z.of_nat (List.length lineOffsets) ->
  (forall i x, i < low -> index lineOffsets i = Some x -> x < offset) ->
  (forall i x, high < i -> index lineOffsets i = Some x -> offset < x) ->
  match positionAtLoop lineOffsets offset low high with
  | inl position =>
      index lineOffsets (line position) = Some offset
      /\ character position = 0
  | inr low' =>
      0 <= low' <= Z.of_nat (List.length lineOffsets)
      /\ (forall i x, i < low' -> index lineOffsets i = Some x -> x < offset)
      /\ (forall i x, low' <= i -> index lineOffsets i = Some x -> offset < x)
  end.
Proof.
  intros Hinc. funelim (positionAtLoop lineOffsets offset low high);
    intros Hlow Hlh Hhigh Hbefore Hafter.
  - repeat split; try lia; [exact Hbefore|].
    intros i x Hi. apply Hafter. lia.
  - split; [|reflexivity]. now apply probe_Hit.
  - match goal with H : probe _ _ _ = GoRight |- _ =>
      apply probe_GoRight in H; destruct H as (m & Hm & Hlt) end.
    pose proof (index_range _ _ _ Hm) as Hr.
    assert (Hmid : low <= (low + high) / 2 <= high)
      by (split; [apply Z.div_le_lower_bound | apply Z.div_le_upper_bound]; lia).
    match goal with IH : _ -> _ |- _ => apply IH end; try lia; try assumption.
    intros i x Hi Hx.
    destruct (Z.eq_dec i ((low + high) / 2)) as [->|Hne]; [congruence|].
    assert (x < m) by (apply (Hinc i ((low + high) / 2)); (lia || assumption)).
    lia.
  - assert (Hmid : low <= (low + high) / 2 <= high)
      by (split; [apply Z.div_le_lower_bound | apply Z.div_le_upper_bound]; lia).
    match goal with IH : _ -> _ |- _ => apply IH end; try lia; try assumption.
    intros i x Hi Hx.
    match goal with H : probe _ _ _ = GoLeft |- _ =>
      apply probe_GoLeft in H; destruct H as [Hnone | (m & Hm & Hlt)] end.
    + pose proof (index_range _ _ _ Hx) as Hr.
      destruct (index_in_range lineOffsets ((low + high) / 2)) as [y Hy];
        [lia | congruence].
    + destruct (Z.eq_dec i ((low + high) / 2)) as [->|Hne];
        [assert (x = m) by congruence; lia|].
      assert (m < x) by (apply (Hinc ((low + high) / 2) i); (lia || assumption)).
      lia.
Qed.

Lemma getLineOffsets_bounds (text : jsstring) (i x : Z) :
  index (getLineOffsets text) i = Some x -> 0 <= x <= JS.length text.
Proof.
  intros H. apply index_Some in H. destruct H as [_ H].
  apply nth_error_In in H.
  destruct (getLineOffsets_offsets text) as [_ Hall].
  rewrite Forall_forall in Hall. apply Hall in H. lia.
Qed.

(** [offsetAt] at a line of the text: the line's offset plus the
    character, kept between the line's offset and the next one. *)
Lemma offsetAtIn_line (text : jsstring) (l : list Z) (p : Position) (lo : Z) :
  index l (line p) = Some lo ->
  offsetAtIn p text l =
  clamp (match index l (line p + 1) with
         | Some next => next
         | None => JS.length text
         end) lo (lo + character p).
Proof.
  intros Hlo. pose proof (index_range _ _ _ Hlo) as Hr.
  unfold offsetAtIn.
  destruct (Z.geb_spec (line p) (Z.of_nat (List.length l))); [lia|].
  destruct (Z.ltb_spec (line p) 0); [lia|].
  rewrite (index_nth _ _ _ Hlo).
  destruct (Z.ltb_spec (line p + 1) (Z.of_nat (List.length l))) as [Hn|Hn].
  - destruct (index_in_range l (line p + 1)) as [y Hy]; [lia|].
    rewrite Hy, (index_nth _ _ _ Hy). reflexivity.
  - destruct (index l (line p + 1)) as [y|] eqn:Hy; [|reflexivity].
    apply index_range in Hy. lia.
Qed.

(** [offsetAt] never leaves the text. *)
Lemma offsetAt_bounds (p : Position) (text : jsstring) :
  0 <= offsetAt p text <= JS.length text.
Proof.
  unfold offsetAt.
  assert (Hlen : 0 <= JS.length text) by (unfold JS.length; lia).
  destruct (index (getLineOffsets text) (line p)) as [lo|] eqn:Hlo.
  - rewrite (offsetAtIn_line _ _ _ _ Hlo).
    pose proof (getLineOffsets_bounds _ _ _ Hlo) as Hb.
    unfold clamp.
    destruct (index (getLineOffsets text) (line p + 1)) as [next|] eqn:Hnext.
    + pose proof (getLineOffsets_bounds _ _ _ Hnext). lia.
    + lia.
  - unfold offsetAtIn.
    destruct (Z.geb_spec (line p) (Z.of_nat (List.length (getLineOffsets text))));
      [lia|].
    destruct (Z.ltb_spec (line p) 0); [lia|].
    destruct (index_in_range (getLineOffsets text) (line p)) as [y Hy];
      [lia | congruence].
Qed.

(** [positionAt] answers for every offset, and [offsetAt] takes its
    answer back to the offset confined to the text. *)
Lemma positionAt_offsetAt (offset : Z) (text : jsstring) :
  exists p, positionAt offset text = Some p
            /\ offsetAt p text = clamp offset 0 (JS.length text).
Proof.
  unfold positionAt, offsetAt, positionAtIn.
  assert (Hlen : 0 <= JS.length text) by (unfold JS.length; lia).
  set (o := clamp offset 0 (JS.length text)).
  assert (Ho : 0 <= o <= JS.length text) by (unfold o, clamp; lia).
  destruct text as [|ch rest].
  - exists {| line := 0; character := o |}. split; [reflexivity|].
    unfold JS.length in Ho. simpl in Ho.
    unfold offsetAtIn, JS.length. simpl. lia.
  - set (text := ch :: rest) in *.
    destruct (getLineOffsets_head ch rest) as [tl Hhead]. fold text in Hhead.
    pose proof (getLineOffsets_offsets text) as [Hinc _].
    set (l := getLineOffsets text) in *.
    assert (H0 : index l 0 = Some 0) by (rewrite Hhead; reflexivity).
    destruct (Z.eqb_spec (Z.of_nat (List.length l)) 0) as [He|_];
      [rewrite Hhead in He; simpl in He; lia|].
    pose proof (positionAtLoop_spec l o 0 (Z.of_nat (List.length l)) Hinc) as Hs.
    destruct (positionAtLoop l o 0 (Z.of_nat (List.length l))) as [p|low].
    + destruct Hs as [Hline Hchar]; try lia.
      * intros i x Hi Hx. apply index_range in Hx. lia.
      * intros i x Hi Hx. apply index_range in Hx. lia.
      * exists p. split; [reflexivity|].
        rewrite (offsetAtIn_line _ _ _ _ Hline), Hchar. unfold clamp.
        destruct (index l (line p + 1)) as [next|] eqn:Hnext.
        -- assert (o < next) by (apply (Hinc (line p) (line p + 1)); (lia || assumption)).
           lia.
        -- lia.
    + destruct Hs as (Hlow & Hbefore & Hafter); try lia.
      * intros i x Hi Hx. apply index_range in Hx. lia.
      * intros i x Hi Hx. apply index_range in Hx. lia.
      * assert (0 < low).
        { destruct (Z.le_gt_cases low 0) as [Hle|]; [|lia].
          specialize (Hafter 0 0 Hle H0). lia. }
        destruct (index_in_range l (low - 1)) as [lo Hlo]; [lia|].
        rewrite Hlo. eexists. split; [reflexivity|].
        rewrite (offsetAtIn_line _ _ _ lo); [|exact Hlo].
        cbn [line character]. unfold clamp.
        assert (lo < o) by (apply (Hbefore (low - 1)); (lia || assumption)).
        replace (low - 1 + 1) with low by lia.
        destruct (index l low) as [next|] eqn:Hnext.
        -- assert (o < next) by (apply (Hafter low); (lia || assumption)). lia.
        -- lia.
Qed.

Lemma clamp_inside (o lo hi : Z) : lo <= o <= hi -> clamp o lo hi = o.
Proof. unfold clamp. lia. Qed.

Lemma clamp_clamp (o lo hi : Z) :
  lo <= hi -> clamp (clamp o lo hi) lo hi = clamp o lo hi.
Proof. unfold clamp. lia. Qed.

(** C10.  For every text and every offset [o] with
    [0 <= o <= text.length], [offsetAt(positionAt(o, text), text)] is
    [o].  Both functions answer on every input: [positionAt] confines
    any offset to [0, text.length] before it converts it (it answers as
    it does for the confined offset, and [offsetAt] takes the answer
    back to the confined offset), and [offsetAt] gives an offset of
    [0, text.length] for every position, whatever its line and
    character. *)
Theorem offsetAt_positionAt_roundtrip (text : jsstring) (o : Z) :
  0 <= o <= JS.length text ->
  (exists p, positionAt o text = Some p /\ offsetAt p text = o)
  /\ (forall o', exists p,
        positionAt o' text = Some p
        /\ positionAt (clamp o' 0 (JS.length text)) text = Some p
        /\ offsetAt p text = clamp o' 0 (JS.length text)
        /\ 0 <= clamp o' 0 (JS.length text) <= JS.length text)
  /\ (forall p, 0 <= offsetAt p text <= JS.length text).
Proof.
  intros Ho.
  assert (Hlen : 0 <= JS.length text) by (unfold JS.length; lia).
  split; [|split].
  - destruct (positionAt_offsetAt o text) as (p & Hp & Hback).
    exists p. split; [exact Hp|]. now rewrite Hback, clamp_inside.
  - intros o'. destruct (positionAt_offsetAt o' text) as (p & Hp & Hback).
    exists p. repeat split; try assumption; try (unfold clamp; lia).
    unfold positionAt, positionAtIn in *.
    rewrite clamp_clamp by assumption. exact Hp.
  - intros p. apply offsetAt_bounds.
Qed.

Lemma offsetAt_positionAt_roundtrip_witness :
  exists p, positionAt 4 Samples.twoLines = Some p /\ offsetAt p Samples.twoLines = 4.
Proof.
  apply (offsetAt_positionAt_roundtrip Samples.twoLines 4).
  vm_compute. split; discriminate.
Defined.

End UtilsFacts.

(* ===================================================================== *)
(** ** Style blocks *)
(* ===================================================================== *)

Module ExtractTagsFacts.

Import Utils Samples.

(** The helper [extractTags] of documents/utils.ts, which keeps the
    roots first: on the document of two style blocks, one at the top
    level and one inside a [div], it keeps the top-level block, since
    it walks the first root only when no root is a style block.  A walk
    of the roots meets both blocks. *)
Lemma extractTags_two_styles :
  List.map (fun info => (tag_start info, tag_end info))
           (extractStyleTags noHtml twoStyles (Some twoStylesDocument))
  = [(7, 23)]
  /\ List.length (extractTags noHtml twoStyles style (Some twoStylesDocument))
     = 1%nat
  /\ List.length (filter (hasTag style) (flat_map walk (roots twoStylesDocument)))
     = 2%nat.
Proof. vm_compute. repeat split. Qed.

(** With no style block at the top level, the walk of the first root
    finds the nested block. *)
Lemma extractTags_one_nested_style :
  List.map (fun info => (tag_start info, tag_end info, content info))
           (extractStyleTags noHtml oneNestedStyle (Some oneNestedStyleDocument))
  = [(12, 27, lit "h2{color: red;}")].
Proof. vm_compute. reflexivity. Qed.

End ExtractTagsFacts.

(* ===================================================================== *)
(** ** The frontmatter scan *)
(* ===================================================================== *)

Module ParseAstroFacts.

Import ParseAstro Samples.

Lemma findDelimiter_range (rest : jsstring) :
  forall from found,
    findDelimiter from rest = Some found ->
    from <= found /\ found + JS.length delimiter <= from + JS.length rest.
Proof.
  induction rest as [|ch rest IH]; intros from found H.
  - discriminate.
  - cbn [findDelimiter] in H.
    destruct (Astro2tsx.isPrefix delimiter (ch :: rest)) eqn:Hp.
    + injection H as <-. split; [lia|].
      assert (Hlen : forall p s, Astro2tsx.isPrefix p s = true ->
                       (List.length p <= List.length s)%nat).
      { induction p as [|a p IHp]; intros [|b s0] Hps; simpl in *;
          try lia; try discriminate.
        apply andb_true_iff in Hps. destruct Hps as [_ Hps].
        apply IHp in Hps. lia. }
      apply Hlen in Hp. unfold JS.length. lia.
    + apply IH in H. unfold JS.length in *. cbn [List.length]. lia.
Qed.

Lemma pointFrom_offset (rest : jsstring) :
  forall line column seen offset,
    (offset <= List.length rest)%nat ->
    point_offset (pointFrom line column seen offset rest)
    = seen + Z.of_nat offset.
Proof.
  induction rest as [|ch rest IH]; intros line column seen [|offset] H;
    simpl in *; try lia.
  destruct (ch =? LF); rewrite IH; lia.
Qed.

Lemma pointAt_offset (text : jsstring) (offset : Z) :
  0 <= offset <= JS.length text -> point_offset (pointAt text offset) = offset.
Proof.
  intros H. unfold pointAt. rewrite pointFrom_offset; unfold JS.length in *; lia.
Qed.

(** C6.  The scan answers on every text with one of the three states.
    When it answers [closed], the offset recorded for the closing
    delimiter is larger than the one recorded for the opening
    delimiter.  On the three documents of the test it answers
    [closed], from offset 0 to offset 7 (line 2, column 4), which is the
    offset the markup parser starts from, then [open], then [absent]. *)
Theorem scan_states (text : jsstring) :
  (scan text = absent
   \/ (exists start, scan text = open start)
   \/ (exists start end_, scan text = closed start end_))
  /\ (forall start end_,
         scan text = closed start end_ ->
         point_offset start < point_offset end_)
  /\ scan closedFrontmatter
     = closed {| point_line := 1; point_column := 1; point_offset := 0 |}
              {| point_line := 2; point_column := 4; point_offset := 7 |}
  /\ Core.frontmatterEnd (scan closedFrontmatter) = 7
  /\ (exists start, scan openFrontmatter = open start)
  /\ scan noFrontmatter = absent.
Proof.
  split; [|split; [|split; [|split; [|split]]]].
  - destruct (scan text) as [|start|start end_]; eauto.
  - unfold scan. intros start end_.
    destruct (findDelimiter 0 text) as [first|] eqn:Hfirst; [|discriminate].
    destruct (findDelimiter (first + JS.length delimiter) _) as [second|] eqn:Hsecond;
      [|discriminate].
    intros [= <- <-].
    apply findDelimiter_range in Hfirst, Hsecond.
    assert (Hskip : first + JS.length delimiter
                    + JS.length (skipn (Z.to_nat (first + JS.length delimiter)) text)
                    = JS.length text).
    { unfold JS.length in *. rewrite length_skipn. lia. }
    assert (Hd : JS.length delimiter = 3) by reflexivity.
    rewrite !pointAt_offset; lia.
  - vm_compute. reflexivity.
  - vm_compute. reflexivity.
  - eexists. vm_compute. reflexivity.
  - vm_compute. reflexivity.
Qed.

Lemma scan_states_witness :
  point_offset {| point_line := 1; point_column := 1; point_offset := 0 |}
  < point_offset {| point_line := 2; point_column := 4; point_offset := 7 |}.
Proof.
  apply (proj1 (proj2 (scan_states closedFrontmatter))).
  vm_compute. reflexivity.
Defined.

End ParseAstroFacts.

(* ===================================================================== *)
(** ** The mappings of getVirtualFileTSX *)
(* ===================================================================== *)

Module StringFacts.

Lemma eqb_eq (s t : jsstring) : JS.eqb s t = true <-> s = t.
Proof.
  revert t. induction s as [|a s IH]; intros [|b t]; simpl;
    try (split; (discriminate || reflexivity)).
  rewrite andb_true_iff, Z.eqb_eq, IH. split.
  - intros [-> ->]. reflexivity.
  - intros H. injection H as -> ->. split; reflexivity.
Qed.

Lemma eqb_neq (s t : jsstring) : JS.eqb s t = false <-> s <> t.
Proof.
  rewrite <- eqb_eq. destruct (JS.eqb s t); split; congruence.
Qed.

(** [substring] between two ordered indices of the string. *)
Lemma substring_inside (s : jsstring) (a b : Z) :
  0 <= a <= b -> b <= JS.length s ->
  substring s a b = firstn (Z.to_nat (b - a)) (skipn (Z.to_nat a) s).
Proof.
  intros Ha Hb. unfold substring, toIndex.
  replace (Z.min (Z.max a 0) (JS.length s)) with a by lia.
  replace (Z.min (Z.max b 0) (JS.length s)) with b by lia.
  replace (Z.min a b) with a by lia. replace (Z.max a b) with b by lia.
  reflexivity.
Qed.

(** [substring] from an index of the string to an index that may lie
    after its end. *)
Lemma substring_from (s : jsstring) (a b : Z) :
  0 <= a <= JS.length s -> a <= b ->
  substring s a b = firstn (Z.to_nat (b - a)) (skipn (Z.to_nat a) s).
Proof.
  intros Ha Hb. destruct (Z.le_gt_cases b (JS.length s)) as [Hle|Hgt].
  - apply substring_inside; lia.
  - unfold substring, toIndex.
    replace (Z.min (Z.max a 0) (JS.length s)) with a by lia.
    replace (Z.min (Z.max b 0) (JS.length s)) with (JS.length s) by lia.
    replace (Z.min a (JS.length s)) with a by lia.
    replace (Z.max a (JS.length s)) with (JS.length s) by lia.
    unfold JS.length in *.
    rewrite !firstn_all2; try reflexivity; rewrite length_skipn; lia.
Qed.

Lemma firstn_plus {A : Type} (m n : nat) (l : list A) :
  firstn (m + n) l = firstn m l ++ firstn n (skipn m l).
Proof.
  revert l. induction m as [|m IH]; intros [|a l]; simpl;
    try reflexivity.
  - now rewrite firstn_nil.
  - now rewrite IH.
Qed.

(** A substring is no longer than the distance of its two indices. *)
Lemma substring_length_le (s : jsstring) (a b : Z) :
  (List.length (substring s a b) <= Z.to_nat (Z.abs (b - a)))%nat.
Proof.
  unfold substring, toIndex. rewrite length_firstn.
  assert (0 <= JS.length s) by (unfold JS.length; lia). lia.
Qed.

(** Two adjoining substrings make one. *)
Lemma substring_app (s : jsstring) (a b c : Z) :
  0 <= a <= b -> b <= c -> c <= JS.length s ->
  substring s a b ++ substring s b c = substring s a c.
Proof.
  intros Ha Hb Hc. rewrite !substring_inside by lia.
  replace (Z.to_nat (c - a)) with (Z.to_nat (b - a) + Z.to_nat (c - b))%nat by lia.
  rewrite firstn_plus. f_equal. rewrite skipn_skipn.
  do 2 f_equal. lia.
Qed.

Lemma skipn_step {A : Type} (l : list A) (i : nat) (a : A) (rest : list A) :
  skipn i l = a :: rest -> skipn (S i) l = rest.
Proof.
  intros H. change (S i) with (1 + i)%nat. rewrite <- skipn_skipn, H. reflexivity.
Qed.

End StringFacts.

Module Astro2tsxFacts.

Import Astro2tsx StringFacts Properties.

(** *** The longest common prefix *)

Lemma longestCommonPrefix_le (s t : jsstring) :
  (longestCommonPrefix s t <= List.length s)%nat
  /\ (longestCommonPrefix s t <= List.length t)%nat.
Proof.
  revert t. induction s as [|a s IH]; intros [|b t]; simpl; try lia.
  destruct (a =? b); [specialize (IH t)|]; lia.
Qed.

Lemma longestCommonPrefix_firstn (s t : jsstring) :
  firstn (longestCommonPrefix s t) s = firstn (longestCommonPrefix s t) t.
Proof.
  revert t. induction s as [|a s IH]; intros [|b t]; simpl; try reflexivity.
  destruct (Z.eqb_spec a b) as [->|]; [|reflexivity].
  simpl. now rewrite IH.
Qed.

(** It is the longest: the two strings end there, or differ at the
    next index. *)
Lemma longestCommonPrefix_stops (s t : jsstring) :
  s <> t ->
  strictEq (nth_error s (longestCommonPrefix s t))
           (nth_error t (longestCommonPrefix s t)) = false.
Proof.
  revert t. induction s as [|a s IH]; intros [|b t] Hne; simpl;
    try reflexivity; try congruence.
  destruct (Z.eqb_spec a b) as [->|Hab]; simpl.
  - apply IH. congruence.
  - now apply Z.eqb_neq.
Qed.

(** The inner loop, started at [i] with [length = i], on two texts that
    differ from [i] on: it stops at their longest common prefix, or
    when its rounds are spent. *)
Lemma commonPrefixLoop_spec (sourceText genText : jsstring) (rounds i : nat) :
  skipn i sourceText <> skipn i genText ->
  commonPrefixLoop rounds (Z.of_nat i) (Z.of_nat i) sourceText genText =
  Z.of_nat
    (i + Nat.min rounds
           (longestCommonPrefix (skipn i sourceText) (skipn i genText))).
Proof.
  revert i. induction rounds as [|rounds IH]; intros i Hne; simpl.
  - f_equal. lia.
  - unfold index. destruct (Z.ltb_spec (Z.of_nat i) 0); [lia|].
    rewrite Nat2Z.id, <- !hd_error_skipn.
    destruct (skipn i sourceText) as [|a s'] eqn:Hs;
      destruct (skipn i genText) as [|b t'] eqn:Ht; simpl;
      try congruence; try (f_equal; lia).
    destruct (Z.eqb_spec a b) as [->|Hab]; [|f_equal; lia].
    replace (Z.of_nat i + 1) with (Z.of_nat (S i)) by lia.
    rewrite IH; rewrite (skipn_step _ _ _ _ Hs), (skipn_step _ _ _ _ Ht).
    + f_equal. lia.
    + congruence.
Qed.

(** *** The length of a run *)

Lemma matchedLength_equal input code current genOffset :
  sourceTextOf input current genOffset = genTextOf code current genOffset ->
  matchedLength input code current genOffset
  = genOffset - cur_genOffset current.
Proof.
  unfold matchedLength, sourceTextOf, genTextOf. intros H.
  apply eqb_eq in H. now rewrite H.
Qed.

Lemma matchedLength_diverge input code current genOffset :
  sourceTextOf input current genOffset <> genTextOf code current genOffset ->
  matchedLength input code current genOffset
  = Z.of_nat
      (Nat.min (Z.to_nat (genOffset - cur_genOffset current))
               (longestCommonPrefix (sourceTextOf input current genOffset)
                                    (genTextOf code current genOffset))).
Proof.
  unfold matchedLength, sourceTextOf, genTextOf. intros H.
  pose proof H as Hb. apply eqb_neq in Hb. rewrite Hb. simpl.
  apply (commonPrefixLoop_spec _ _ _ 0%nat). exact H.
Qed.

(** A run never reaches past the generated offset that closes it. *)
Lemma matchedLength_le input code current genOffset :
  0 < matchedLength input code current genOffset ->
  matchedLength input code current genOffset
  <= genOffset - cur_genOffset current.
Proof.
  destruct (list_eq_dec Z.eq_dec (sourceTextOf input current genOffset)
              (genTextOf code current genOffset)) as [Heq|Hne].
  - rewrite (matchedLength_equal _ _ _ _ Heq). lia.
  - rewrite (matchedLength_diverge _ _ _ _ Hne). lia.
Qed.

(** Between offsets of the two documents, a run maps equal texts. *)
Lemma matchedLength_aligned input code current genOffset :
  0 <= cur_sourceOffset current <= JS.length input ->
  0 <= cur_genOffset current ->
  genOffset <= JS.length code ->
  0 < matchedLength input code current genOffset ->
  let k := matchedLength input code current genOffset in
  cur_sourceOffset current + k <= JS.length input
  /\ substring input (cur_sourceOffset current) (cur_sourceOffset current + k)
     = substring code (cur_genOffset current) (cur_genOffset current + k).
Proof.
  intros Hs Hg Hend Hpos k.
  pose proof (matchedLength_le _ _ _ _ Hpos) as Hle. fold k in Hle, Hpos.
  set (cs := cur_sourceOffset current) in *.
  set (cg := cur_genOffset current) in *.
  set (L := genOffset - cg) in *.
  assert (Hsrc : sourceTextOf input current genOffset
                 = firstn (Z.to_nat L) (skipn (Z.to_nat cs) input)).
  { unfold sourceTextOf. fold cs cg L. rewrite substring_from by lia.
    do 2 f_equal. lia. }
  assert (Hgen : genTextOf code current genOffset
                 = firstn (Z.to_nat L) (skipn (Z.to_nat cg) code)).
  { unfold genTextOf. fold cs cg L. rewrite substring_inside by lia.
    do 2 f_equal. lia. }
  assert (Hgenlen : List.length (genTextOf code current genOffset) = Z.to_nat L).
  { rewrite Hgen, length_firstn, length_skipn. unfold JS.length in Hend. lia. }
  assert (Hkey : (Z.to_nat k <= List.length (sourceTextOf input current genOffset))%nat
                 /\ firstn (Z.to_nat k) (sourceTextOf input current genOffset)
                    = firstn (Z.to_nat k) (genTextOf code current genOffset)).
  { destruct (list_eq_dec Z.eq_dec (sourceTextOf input current genOffset)
                (genTextOf code current genOffset)) as [Heq|Hne].
    - rewrite Heq. split; [lia | reflexivity].
    - unfold k. rewrite (matchedLength_diverge _ _ _ _ Hne), Nat2Z.id.
      set (s := sourceTextOf input current genOffset) in *.
      set (t := genTextOf code current genOffset) in *.
      pose proof (longestCommonPrefix_le s t) as [Hl1 Hl2].
      split; [lia|].
      pose proof (longestCommonPrefix_firstn s t) as Hf.
      apply (f_equal (firstn (Nat.min (Z.to_nat L) (longestCommonPrefix s t)))) in Hf.
      rewrite !firstn_firstn in Hf.
      replace (Nat.min (Nat.min (Z.to_nat L) (longestCommonPrefix s t))
                       (longestCommonPrefix s t))
        with (Nat.min (Z.to_nat L) (longestCommonPrefix s t)) in Hf by lia.
      exact Hf. }
  destruct Hkey as [Hklen Hkeq].
  assert (Hin : cs + k <= JS.length input).
  { rewrite Hsrc, length_firstn, length_skipn in Hklen.
    unfold JS.length in *. lia. }
  split; [exact Hin|].
  rewrite !substring_inside by lia.
  replace (cs + k - cs) with k by lia. replace (cg + k - cg) with k by lia.
  rewrite Hsrc, Hgen, !firstn_firstn in Hkeq.
  replace (Nat.min (Z.to_nat k) (Z.to_nat L)) with (Z.to_nat k) in Hkeq by lia.
  exact Hkeq.
Qed.

(** *** Adding a mapping *)

Lemma lastMapping_cases (mappings : list Mapping) :
  (mappings = [] /\ lastMapping mappings = None)
  \/ (exists front last,
        mappings = front ++ [last]
        /\ lastMapping mappings = Some last
        /\ removelast mappings = front).
Proof.
  induction mappings as [|last front _] using rev_ind.
  - left. split; reflexivity.
  - right. exists front, last. unfold lastMapping.
    rewrite rev_unit, removelast_last. repeat split.
Qed.


Lemma addMapping_cases (mappings : list Mapping) (current : Current) (length : Z) :
  addMapping mappings current length = mappings ++ [pushedMapping current length]
  \/ (exists front last,
        mappings = front ++ [last]
        /\ snd (generatedRange last) = cur_genOffset current
        /\ snd (sourceRange last) = cur_sourceOffset current
        /\ addMapping mappings current length
           = front ++ [grownMapping last current length]).
Proof.
  unfold addMapping.
  destruct (lastMapping_cases mappings) as [[-> ->] | (front & last & Hm & -> & Hr)].
  - left. reflexivity.
  - destruct (Z.eqb_spec (snd (generatedRange last)) (cur_genOffset current));
      destruct (Z.eqb_spec (snd (sourceRange last)) (cur_sourceOffset current));
      simpl; try (left; reflexivity).
    right. exists front, last. rewrite Hr. repeat split; assumption.
Qed.

(** A property of every mapping survives [addMapping] when the pushed
    mapping has it and the grown mapping keeps it. *)
Lemma addMapping_Forall (P : Mapping -> Prop) mappings current length :
  Forall P mappings ->
  P (pushedMapping current length) ->
  (forall last,
      P last ->
      snd (generatedRange last) = cur_genOffset current ->
      snd (sourceRange last) = cur_sourceOffset current ->
      P (grownMapping last current length)) ->
  Forall P (addMapping mappings current length).
Proof.
  intros Hall Hpush Hgrow.
  destruct (addMapping_cases mappings current length)
    as [-> | (front & last & -> & Hg & Hs & ->)].
  - apply Forall_app. split; [exact Hall | constructor; [exact Hpush | constructor]].
  - apply Forall_app in Hall. destruct Hall as [Hfront Hlast].
    apply Forall_app. split; [exact Hfront|].
    constructor; [|constructor]. apply Hgrow; try assumption.
    now inversion Hlast.
Qed.

(** *** The two loops *)

Section Loops.

Context {E : External}.

Lemma linesLoop_fold (input code : jsstring) v3Mappings :
  forall genLine st,
    linesLoop input code genLine st v3Mappings
    = fold_left
        (fun st ls => stepSegment input code (fst ls) st (snd ls))
        (numbered genLine v3Mappings) st.
Proof.
  induction v3Mappings as [|segments rest IH]; intros genLine st; simpl.
  - reflexivity.
  - rewrite fold_left_app, IH. f_equal.
    generalize st. induction segments as [|segment segments IHs];
      intros st0; simpl; [reflexivity | apply IHs].
Qed.


Lemma stepSegment_invariant (P : Mapping -> Prop) (Q : Current -> Prop)
  (input code : jsstring) :
  (forall genPosition sourcePosition,
      Q {| cur_genOffset := TextDocument_offsetAt code genPosition;
           cur_sourceOffset := TextDocument_offsetAt input sourcePosition |}) ->
  (forall mappings current genPosition,
      Forall P mappings -> Q current ->
      let length :=
        matchedLength input code current
                      (TextDocument_offsetAt code genPosition) in
      0 < length -> Forall P (addMapping mappings current length)) ->
  forall genLine st segment,
    loopInvariant P Q st ->
    loopInvariant P Q (stepSegment input code genLine st segment).
Proof.
  intros HQ Hadd genLine st segment [Hall Hcur].
  unfold stepSegment.
  set (genPosition := {| line := genLine; character := segment0 segment |}).
  assert (Hclosed :
    loopInvariant P Q
      match st_current st with
      | Some current =>
          {| st_mappings :=
               if 0 <? matchedLength input code current
                         (TextDocument_offsetAt code genPosition)
               then addMapping (st_mappings st) current
                      (matchedLength input code current
                         (TextDocument_offsetAt code genPosition))
               else st_mappings st;
             st_current := None |}
      | None => st
      end).
  { destruct (st_current st) as [current|] eqn:Hc.
    - split; [|discriminate]. simpl.
      destruct (Z.ltb_spec 0 (matchedLength input code current
                                (TextDocument_offsetAt code genPosition)));
        [|exact Hall].
      apply Hadd; auto.
    - split; [exact Hall|]. intros current Hcurrent. apply Hcur.
      congruence. }
  destruct (segment23 segment) as [[sourceLine sourceColumn]|].
  - destruct Hclosed as [Hall' _]. split; [exact Hall'|].
    simpl. intros current [= <-]. apply HQ.
  - exact Hclosed.
Qed.

Lemma tableMappings_Forall (P : Mapping -> Prop) (Q : Current -> Prop)
  (input code : jsstring) :
  (forall genPosition sourcePosition,
      Q {| cur_genOffset := TextDocument_offsetAt code genPosition;
           cur_sourceOffset := TextDocument_offsetAt input sourcePosition |}) ->
  (forall mappings current genPosition,
      Forall P mappings -> Q current ->
      let length :=
        matchedLength input code current
                      (TextDocument_offsetAt code genPosition) in
      0 < length -> Forall P (addMapping mappings current length)) ->
  forall v3Mappings, Forall P (tableMappings input code v3Mappings).
Proof.
  intros HQ Hadd v3Mappings. unfold tableMappings.
  rewrite linesLoop_fold.
  assert (Hinit : loopInvariant P Q {| st_mappings := []; st_current := None |})
    by (split; [constructor | discriminate]).
  revert Hinit. generalize {| st_mappings := []; st_current := None |}.
  induction (numbered 0 v3Mappings) as [|[genLine segment] rest IH];
    intros st Hst; simpl.
  - apply Hst.
  - apply IH. now apply stepSegment_invariant.
Qed.

(** The mappings of the virtual file: those of the table, then the
    whole-document entry when there is one, all without formatting. *)
Lemma vf_mappings_parts input tsx fileId ts :
  let vf := getVirtualFileTSX input tsx fileId ts in
  vf_mappings vf
  = List.map noFormatting
      (tableMappings input (snapshot vf) (decode (mappings (map tsx))))
    ++ List.map noFormatting
         (documentMapping input (snapshot vf)
            (createSourceFile ts (lit "/a.tsx") (snapshot vf))).
Proof. simpl. apply map_app. Qed.

(** **** Equal lengths *)

Lemma tableMappings_sameLength input code v3Mappings :
  Forall sameLength (tableMappings input code v3Mappings).
Proof.
  apply (tableMappings_Forall sameLength (fun _ => True)); [trivial|].
  intros mappings current genPosition Hall _ length _.
  apply addMapping_Forall; [exact Hall | |]; unfold sameLength; simpl.
  - lia.
  - intros last Hlast Hg Hs. lia.
Qed.

(** **** Equal texts *)

Lemma tableMappings_sameText input code v3Mappings :
  (forall text position,
      0 <= TextDocument_offsetAt text position <= JS.length text) ->
  Forall (sameText input code) (tableMappings input code v3Mappings).
Proof.
  intros Hbounds.
  apply (tableMappings_Forall (sameText input code)
           (fun current =>
              0 <= cur_sourceOffset current <= JS.length input
              /\ 0 <= cur_genOffset current <= JS.length code)).
  - intros genPosition sourcePosition. simpl. split; apply Hbounds.
  - intros mappings current genPosition Hall [Hs Hg] length Hpos.
    pose proof (Hbounds code genPosition) as [_ Hend].
    pose proof (matchedLength_le _ _ _ _ Hpos) as Hle.
    destruct (matchedLength_aligned input code current _ Hs (proj1 Hg) Hend Hpos)
      as [Hin Htext].
    fold length in Hle, Hin, Htext.
    apply addMapping_Forall; [exact Hall | |]; unfold sameText, sameLength; simpl.
    + repeat split; try lia. exact Htext.
    + intros last (Hlen & Hne & Hs0 & Hs1 & Hg0 & Hg1 & Hlast) Hgl Hsl.
      repeat split; try lia.
      rewrite <- (substring_app input _ (snd (sourceRange last))) by lia.
      rewrite <- (substring_app code _ (snd (generatedRange last))) by lia.
      rewrite Hlast, Hgl, Hsl, Htext. reflexivity.
Qed.

(** **** Order of the generated ranges *)

Lemma StronglySorted_snoc {A : Type} (R : A -> A -> Prop) (l : list A) (x : A) :
  StronglySorted R (l ++ [x])
  <-> StronglySorted R l /\ Forall (fun y => R y x) l.
Proof.
  induction l as [|a l IH]; simpl.
  - split; [intros _; split; constructor | intros _; repeat constructor].
  - split.
    + intros H. inversion H as [|? ? Hs Ha]; subst.
      apply IH in Hs. destruct Hs as [Hs Hx].
      apply Forall_app in Ha. destruct Ha as [Ha Hax].
      split; constructor; try assumption. now inversion Hax.
    + intros [H Hx]. inversion H as [|? ? Hs Ha]; subst.
      inversion Hx as [|? ? Hax Hx']; subst.
      constructor; [apply IH; now split|].
      apply Forall_app. split; [exact Ha | repeat constructor; exact Hax].
Qed.

Lemma StronglySorted_nth {A : Type} (R : A -> A -> Prop) (l : list A) :
  StronglySorted R l ->
  forall i j a b,
    (i < j)%nat -> nth_error l i = Some a -> nth_error l j = Some b -> R a b.
Proof.
  induction 1 as [|x l Hs IH Hx]; intros i j a b Hij Hi Hj.
  - destruct i; discriminate.
  - destruct j as [|j]; [lia|]. simpl in Hj.
    destruct i as [|i]; simpl in Hi.
    + injection Hi as <-. rewrite Forall_forall in Hx.
      apply Hx. eapply nth_error_In, Hj.
    + apply (IH i j); (lia || assumption).
Qed.


Lemma addMapping_order mappings current length frontier genOffset :
  StronglySorted before mappings ->
  Forall (fun m => fst (generatedRange m) < snd (generatedRange m)
                   /\ snd (generatedRange m) <= frontier) mappings ->
  cur_genOffset current = frontier ->
  0 < length -> frontier + length <= genOffset ->
  StronglySorted before (addMapping mappings current length)
  /\ Forall (fun m => fst (generatedRange m) < snd (generatedRange m)
                      /\ snd (generatedRange m) <= genOffset)
            (addMapping mappings current length).
Proof.
  intros Hs Hall Hc Hpos Hle.
  assert (Hall' : Forall (fun m => fst (generatedRange m) < snd (generatedRange m)
                                   /\ snd (generatedRange m) <= genOffset)
                         mappings).
  { eapply Forall_impl; [|exact Hall]. simpl. lia. }
  destruct (addMapping_cases mappings current length)
    as [-> | (front & last & -> & Hg & _ & ->)].
  - split.
    + apply StronglySorted_snoc. split; [exact Hs|].
      eapply Forall_impl; [|exact Hall]. unfold before. simpl. lia.
    + apply Forall_app. split; [exact Hall'|].
      repeat constructor; simpl; lia.
  - apply StronglySorted_snoc in Hs. destruct Hs as [Hs Hlast].
    apply Forall_app in Hall'. destruct Hall' as [Hfront Hl].
    apply Forall_app in Hall. destruct Hall as [_ Hl0].
    inversion Hl0 as [|? ? [Hl1 Hl2] _]; subst.
    split.
    + apply StronglySorted_snoc. split; [exact Hs|].
      eapply Forall_impl; [|exact Hlast]. unfold before. simpl. trivial.
    + apply Forall_app. split; [exact Hfront|].
      repeat constructor; simpl; lia.
Qed.

Lemma stepSegment_order input code genLine st segment frontier :
  orderInvariant st frontier ->
  frontier
  <= TextDocument_offsetAt code
       {| line := genLine; character := segment0 segment |} ->
  orderInvariant
    (stepSegment input code genLine st segment)
    (TextDocument_offsetAt code
       {| line := genLine; character := segment0 segment |}).
Proof.
  intros (Hs & Hall & Hcur) Hle. unfold stepSegment.
  set (genOffset := TextDocument_offsetAt code
                      {| line := genLine; character := segment0 segment |}) in *.
  assert (Hclosed :
    let closed :=
      match st_current st with
      | Some current =>
          {| st_mappings :=
               if 0 <? matchedLength input code current genOffset
               then addMapping (st_mappings st) current
                      (matchedLength input code current genOffset)
               else st_mappings st;
             st_current := None |}
      | None => st
      end in
    StronglySorted before (st_mappings closed)
    /\ Forall (fun m => fst (generatedRange m) < snd (generatedRange m)
                        /\ snd (generatedRange m) <= genOffset)
              (st_mappings closed)
    /\ st_current closed = None).
  { assert (Hall' : Forall (fun m => fst (generatedRange m) < snd (generatedRange m)
                                     /\ snd (generatedRange m) <= genOffset)
                           (st_mappings st)).
    { eapply Forall_impl; [|exact Hall]. simpl. lia. }
    destruct (st_current st) as [current|] eqn:Hc; simpl.
    - destruct (Z.ltb_spec 0 (matchedLength input code current genOffset))
        as [Hpos|_].
      + pose proof (matchedLength_le _ _ _ _ Hpos) as Hk.
        rewrite (Hcur current eq_refl) in Hk.
        destruct (addMapping_order (st_mappings st) current
                    (matchedLength input code current genOffset)
                    frontier genOffset) as [H1 H2]; auto; try lia.
      + auto.
    - auto. }
  destruct Hclosed as (Hs' & Hall' & Hc').
  destruct (segment23 segment) as [[sourceLine sourceColumn]|]; simpl.
  - repeat split; try assumption. intros current [= <-]. reflexivity.
  - repeat split; try assumption. intros current Hcurrent. congruence.
Qed.

Lemma tableMappings_order input code v3Mappings :
  Sorted Z.le (genOffsets code v3Mappings) ->
  StronglySorted before (tableMappings input code v3Mappings)
  /\ Forall (fun m => fst (generatedRange m) < snd (generatedRange m))
            (tableMappings input code v3Mappings).
Proof.
  unfold genOffsets, tableMappings. rewrite linesLoop_fold.
  intros Hsorted.
  assert (Hgoal : forall ls st frontier,
             orderInvariant st frontier ->
             Sorted Z.le
               (frontier ::
                List.map (fun ls => TextDocument_offsetAt code
                            {| line := fst ls; character := segment0 (snd ls) |}) ls) ->
             exists frontier',
               orderInvariant
                 (fold_left (fun st ls => stepSegment input code (fst ls) st (snd ls))
                            ls st) frontier').
  { induction ls as [|[genLine segment] ls IH]; intros st frontier Hinv Hs; simpl.
    - now exists frontier.
    - simpl in Hs. inversion Hs as [|? ? Hrest Hhd]; subst.
      inversion Hhd as [|? ? Hle]; subst.
      eapply IH; [|exact Hrest].
      apply (stepSegment_order input code genLine st segment frontier Hinv Hle). }
  set (first := match genOffsets code v3Mappings with g :: _ => g | [] => 0 end).
  destruct (Hgoal (numbered 0 v3Mappings)
                  {| st_mappings := []; st_current := None |} first)
    as (frontier' & Hs & Hall & _).
  - repeat split; try constructor. discriminate.
  - unfold first, genOffsets.
    destruct (List.map _ (numbered 0 v3Mappings)) as [|g rest] eqn:Hmap.
    + repeat constructor.
    + constructor; [exact Hsorted | constructor; lia].
  - split; [exact Hs|]. eapply Forall_impl; [|exact Hall]. simpl. tauto.
Qed.

(** **** What a run leaves out stays unmapped *)

Lemma stepSegment_current input code genLine st segment :
  st_current (stepSegment input code genLine st segment)
  = match segment23 segment with
    | Some (sourceLine, sourceColumn) =>
        Some {| cur_genOffset :=
                  TextDocument_offsetAt code
                    {| line := genLine; character := segment0 segment |};
                cur_sourceOffset :=
                  TextDocument_offsetAt input
                    {| line := sourceLine; character := sourceColumn |} |}
    | None => None
    end.
Proof.
  unfold stepSegment.
  destruct (segment23 segment) as [[sourceLine sourceColumn]|]; [reflexivity|].
  destruct (st_current st) eqn:Hc; [reflexivity | exact Hc].
Qed.

Lemma stepSegment_mappings input code genLine st segment :
  st_mappings (stepSegment input code genLine st segment)
  = match st_current st with
    | Some current =>
        let length :=
          matchedLength input code current
            (TextDocument_offsetAt code
               {| line := genLine; character := segment0 segment |}) in
        if 0 <? length then addMapping (st_mappings st) current length
        else st_mappings st
    | None => st_mappings st
    end.
Proof.
  unfold stepSegment.
  destruct (segment23 segment) as [[sourceLine sourceColumn]|];
    destruct (st_current st); reflexivity.
Qed.

Lemma stepSegment_leftOut input code genLine st segment frontier runs :
  orderInvariant st frontier ->
  leftOutInvariant input code st frontier runs ->
  let genOffset :=
    TextDocument_offsetAt code
      {| line := genLine; character := segment0 segment |} in
  frontier <= genOffset ->
  leftOutInvariant input code (stepSegment input code genLine st segment)
    genOffset
    (runs ++ match st_current st with
             | Some current => [(current, genOffset)]
             | None => []
             end).
Proof.
  intros (Hs & Hall & Hcur) Hruns genOffset Hle run Hrun.
  rewrite stepSegment_mappings. fold genOffset.
  rewrite Forall_forall in Hall.
  destruct (st_current st) as [current|] eqn:Hc.
  - specialize (Hcur current eq_refl).
    set (k := matchedLength input code current genOffset).
    assert (Hk : 0 < k -> k <= genOffset - frontier).
    { intros Hpos. unfold k. rewrite <- Hcur. now apply matchedLength_le. }
    assert (Hnew : forall m,
               In m (if 0 <? k then addMapping (st_mappings st) current k
                     else st_mappings st) ->
               In m (st_mappings st)
               \/ (0 < k /\ snd (generatedRange m) = frontier + k
                   /\ forall offset,
                        covers m offset -> offset < frontier ->
                        exists m', In m' (st_mappings st) /\ covers m' offset)).
    { intros m Hm. destruct (Z.ltb_spec 0 k) as [Hpos|_]; [|now left].
      destruct (addMapping_cases (st_mappings st) current k)
        as [Heq | (front & last & Hms & Hg & _ & Heq)];
        rewrite Heq in Hm; apply in_app_iff in Hm; destruct Hm as [Hm | [<- | []]].
      - now left.
      - right. split; [exact Hpos|]. split; [simpl; lia|].
        intros offset [Hc1 _] Hlt. simpl in Hc1. lia.
      - left. rewrite Hms. apply in_app_iff. now left.
      - right. split; [exact Hpos|]. split; [simpl; lia|].
        intros offset [Hc1 _] Hlt. simpl in Hc1.
        exists last. split; [rewrite Hms; apply in_app_iff; right; now left|].
        unfold covers. lia. }
    apply in_app_iff in Hrun. destruct Hrun as [Hold | [<- | []]].
    + destruct (Hruns run Hold) as [Hend Hout].
      split; [lia|]. intros offset m Hleft Hm Hcov.
      destruct (Hnew m Hm) as [Hin | (_ & _ & Hbefore)].
      * exact (Hout offset m Hleft Hin Hcov).
      * pose proof Hleft as Hleft'. destruct Hleft as [_ Hlt].
        destruct (Hbefore offset Hcov) as (m' & Hin' & Hcov'); [lia|].
        exact (Hout offset m' Hleft' Hin' Hcov').
    + split; [simpl; lia|]. intros offset m [Hfrom Hto] Hm [Hc1 Hc2].
      cbn [fst snd] in Hfrom, Hto. fold k in Hfrom. rewrite Hcur in Hfrom.
      destruct (Hnew m Hm) as [Hin | (Hpos & Hend & _)].
      * apply Hall in Hin. lia.
      * lia.
  - rewrite app_nil_r in Hrun. destruct (Hruns run Hrun) as [Hend Hout].
    split; [lia | exact Hout].
Qed.

Lemma tableMappings_leftOut input code v3Mappings :
  Sorted Z.le (genOffsets code v3Mappings) ->
  forall run offset m,
    In run (closedRuns input code None (numbered 0 v3Mappings)) ->
    leftOut input code run offset ->
    In m (tableMappings input code v3Mappings) ->
    ~ covers m offset.
Proof.
  unfold genOffsets, tableMappings. rewrite linesLoop_fold.
  intros Hsorted.
  assert (Hgoal : forall ls st frontier runs,
             orderInvariant st frontier ->
             leftOutInvariant input code st frontier runs ->
             Sorted Z.le
               (frontier ::
                List.map (fun ls => TextDocument_offsetAt code
                            {| line := fst ls; character := segment0 (snd ls) |}) ls) ->
             exists frontier',
               leftOutInvariant input code
                 (fold_left (fun st ls => stepSegment input code (fst ls) st (snd ls))
                            ls st)
                 frontier'
                 (runs ++ closedRuns input code (st_current st) ls)).
  { induction ls as [|[genLine segment] ls IH]; intros st frontier runs Hinv Hruns Hs.
    - exists frontier. simpl. now rewrite app_nil_r.
    - simpl in Hs. inversion Hs as [|? ? Hrest Hhd]; subst.
      inversion Hhd as [|? ? Hle]; subst.
      pose proof (stepSegment_order input code genLine st segment frontier Hinv Hle)
        as Hinv'.
      pose proof (stepSegment_leftOut input code genLine st segment frontier runs
                    Hinv Hruns Hle) as Hruns'.
      destruct (IH _ _ _ Hinv' Hruns' Hrest) as [frontier' Hfinal].
      exists frontier'. cbn [fold_left closedRuns fst snd].
      rewrite stepSegment_current in Hfinal.
      destruct (st_current st) as [current|];
        [rewrite <- app_assoc in Hfinal | rewrite app_nil_r in Hfinal];
        exact Hfinal. }
  set (first := match genOffsets code v3Mappings with g :: _ => g | [] => 0 end).
  destruct (Hgoal (numbered 0 v3Mappings)
                  {| st_mappings := []; st_current := None |} first [])
    as [frontier' Hfinal].
  - repeat split; try constructor. discriminate.
  - intros run [].
  - unfold first, genOffsets.
    destruct (List.map _ (numbered 0 v3Mappings)) as [|g rest] eqn:Hmap.
    + repeat constructor.
    + constructor; [exact Hsorted | constructor; lia].
  - intros run offset m Hrun Hleft Hm.
    destruct (Hfinal run Hrun) as [_ Hout]. exact (Hout offset m Hleft Hm).
Qed.

End Loops.

End Astro2tsxFacts.

(* ===================================================================== *)
(** ** Every run with a length kept is mapped *)
(* ===================================================================== *)

Module RunFacts.

Import Astro2tsx StringFacts Properties Shapes Astro2tsxFacts.

(** The mapping a run adds or grows holds the run, and what the
    mappings held before is still held. *)
Lemma addMapping_holds (mappings : list Mapping) (current : Current) (k : Z) :
  Forall wellFormed mappings -> 0 < k ->
  Forall wellFormed (addMapping mappings current k)
  /\ (exists m, In m (addMapping mappings current k) /\ holds m current k)
  /\ (forall m run length,
         In m mappings -> holds m run length ->
         exists m', In m' (addMapping mappings current k) /\ holds m' run length).
Proof.
  intros Hwf Hk.
  destruct (addMapping_cases mappings current k)
    as [-> | (front & last & -> & Hg & Hs & ->)].
  - split; [|split].
    + apply Forall_app. split; [exact Hwf|]. constructor; [|constructor].
      unfold wellFormed, sameLength, pushedMapping. cbn. lia.
    + exists (pushedMapping current k). split; [apply in_app_iff; right; now left|].
      unfold holds, pushedMapping. cbn. lia.
    + intros m run length Hm Hheld. exists m. split; [|exact Hheld].
      apply in_app_iff. now left.
  - apply Forall_app in Hwf. destruct Hwf as [Hfront Hlast].
    inversion Hlast as [|? ? [Hsame Hpos] _]; subst.
    unfold sameLength in Hsame.
    split; [|split].
    + apply Forall_app. split; [exact Hfront|]. constructor; [|constructor].
      unfold wellFormed, sameLength, grownMapping. cbn. lia.
    + exists (grownMapping last current k).
      split; [apply in_app_iff; right; now left|].
      unfold holds, grownMapping. cbn. lia.
    + intros m run length Hm Hheld. apply in_app_iff in Hm.
      destruct Hm as [Hm | [<- | []]].
      * exists m. split; [apply in_app_iff; now left | exact Hheld].
      * exists (grownMapping last current k).
        split; [apply in_app_iff; right; now left|].
        unfold holds, grownMapping in *. cbn. lia.
Qed.

Section Runs.

Context {E : External}.

Lemma stepSegment_kept input code genLine st segment runs :
  keptInvariant input code st runs ->
  keptInvariant input code (stepSegment input code genLine st segment)
    (runs ++ match st_current st with
             | Some current =>
                 [(current,
                   TextDocument_offsetAt code
                     {| line := genLine; character := segment0 segment |})]
             | None => []
             end).
Proof.
  intros [Hwf Hruns]. unfold keptInvariant. rewrite stepSegment_mappings.
  destruct (st_current st) as [current|].
  - cbn zeta.
    set (genOffset := TextDocument_offsetAt code
                        {| line := genLine; character := segment0 segment |}).
    set (k := matchedLength input code current genOffset).
    destruct (Z.ltb_spec 0 k) as [Hpos|Hnone].
    + destruct (addMapping_holds (st_mappings st) current k Hwf Hpos)
        as (Hwf' & Hnew & Hold).
      split; [exact Hwf'|]. intros run Hrun Hlen.
      apply in_app_iff in Hrun. destruct Hrun as [Hrun | [<- | []]].
      * destruct (Hruns run Hrun Hlen) as (m & Hm & Hheld).
        exact (Hold m _ _ Hm Hheld).
      * exact Hnew.
    + split; [exact Hwf|]. intros run Hrun Hlen.
      apply in_app_iff in Hrun. destruct Hrun as [Hrun | [<- | []]].
      * exact (Hruns run Hrun Hlen).
      * cbn [fst snd] in Hlen. fold k in Hlen. lia.
  - split; [exact Hwf|]. intros run Hrun. rewrite app_nil_r in Hrun.
    now apply Hruns.
Qed.

Lemma fold_stepSegment_kept input code (ls : list (Z * SourceMapSegment)) :
  forall st runs,
    keptInvariant input code st runs ->
    keptInvariant input code
      (fold_left (fun st ls => stepSegment input code (fst ls) st (snd ls)) ls st)
      (runs ++ closedRuns input code (st_current st) ls).
Proof.
  induction ls as [|[genLine segment] ls IH]; intros st runs Hinv.
  - cbn. now rewrite app_nil_r.
  - cbn [fold_left closedRuns fst snd].
    pose proof (stepSegment_kept input code genLine st segment runs Hinv) as Hstep.
    apply IH in Hstep. rewrite stepSegment_current in Hstep.
    destruct (st_current st) as [current|];
      [rewrite <- app_assoc in Hstep | rewrite app_nil_r in Hstep];
      exact Hstep.
Qed.

(** Every run of the table closed with a length kept above zero is held
    by a mapping of the table. *)
Lemma tableMappings_kept input code v3Mappings :
  Forall wellFormed (tableMappings input code v3Mappings)
  /\ forall run,
       In run (closedRuns input code None (numbered 0 v3Mappings)) ->
       0 < matchedLength input code (fst run) (snd run) ->
       exists m,
         In m (tableMappings input code v3Mappings)
         /\ holds m (fst run) (matchedLength input code (fst run) (snd run)).
Proof.
  unfold tableMappings. rewrite linesLoop_fold.
  apply (fold_stepSegment_kept input code (numbered 0 v3Mappings)
           {| st_mappings := []; st_current := None |} []).
  split; [constructor | intros run []].
Qed.

(** When the generated offsets do not decrease, the mapping that holds
    a run cut short ends where the length kept ends, on both sides. *)
Lemma tableMappings_cut input code v3Mappings :
  Sorted Z.le (genOffsets code v3Mappings) ->
  forall run,
    In run (closedRuns input code None (numbered 0 v3Mappings)) ->
    let k := matchedLength input code (fst run) (snd run) in
    0 < k -> cur_genOffset (fst run) + k < snd run ->
    exists m,
      In m (tableMappings input code v3Mappings)
      /\ holds m (fst run) k
      /\ snd (generatedRange m) = cur_genOffset (fst run) + k
      /\ snd (sourceRange m) = cur_sourceOffset (fst run) + k.
Proof.
  intros Hsorted run Hrun k Hpos Hcut.
  destruct (tableMappings_kept input code v3Mappings) as [Hwf Hkept].
  destruct (Hkept run Hrun Hpos) as (m & Hm & Hheld). fold k in Hheld.
  exists m. split; [exact Hm|]. split; [exact Hheld|].
  rewrite Forall_forall in Hwf. destruct (Hwf m Hm) as [Hsame _].
  unfold sameLength in Hsame.
  destruct Hheld as (Hg1 & Hg2 & Hs1 & Hs2 & Hal).
  assert (Hend : snd (generatedRange m) = cur_genOffset (fst run) + k).
  { destruct (Z.eq_dec (snd (generatedRange m)) (cur_genOffset (fst run) + k))
      as [Heq|Hne]; [exact Heq|].
    exfalso.
    apply (tableMappings_leftOut input code v3Mappings Hsorted run
             (cur_genOffset (fst run) + k) m Hrun); [|exact Hm|].
    - unfold leftOut. fold k. lia.
    - unfold covers. lia. }
  split; [exact Hend | lia].
Qed.

End Runs.

End RunFacts.

(* ===================================================================== *)
(** ** The generated file and its mappings *)
(* ===================================================================== *)

Module Astro2tsxClaims.

Import Astro2tsx StringFacts Properties Astro2tsxFacts SourceMap Samples.

(** *** The translators through one segment *)

Lemma translate_back (from to : Z * Z) (offset image : Z) :
  translate from to offset = Some image -> translate to from image = Some offset.
Proof.
  unfold translate.
  destruct ((fst from <=? offset) && (offset <=? snd from)) eqn:Hin;
    [|discriminate].
  destruct ((fst to <=? fst to + (offset - fst from))
            && (fst to + (offset - fst from) <=? snd to)) eqn:Hout;
    [|discriminate].
  intros [= <-]. rewrite Hout.
  replace (fst from + (fst to + (offset - fst from) - fst to)) with offset by lia.
  now rewrite Hin.
Qed.

Lemma translate_sameLength (from to : Z * Z) (offset : Z) :
  snd from - fst from = snd to - fst to ->
  fst from <= offset <= snd from ->
  translate from to offset = Some (fst to + (offset - fst from)).
Proof.
  intros Hlen Hin. unfold translate.
  destruct (Z.leb_spec (fst from) offset); [|lia].
  destruct (Z.leb_spec offset (snd from)); [|lia].
  destruct (Z.leb_spec (fst to) (fst to + (offset - fst from))); [|lia].
  destruct (Z.leb_spec (fst to + (offset - fst from)) (snd to)); [|lia].
  reflexivity.
Qed.

Lemma Forall_noFormatting (P : Mapping -> Prop) (l : list Mapping) :
  (forall m, P m -> P (noFormatting m)) ->
  Forall P l -> Forall P (List.map noFormatting l).
Proof.
  intros HP Hall. apply Forall_map. eapply Forall_impl; [|exact Hall].
  exact HP.
Qed.

Section Claims.

Context {E : External}.

(** C1, as amended.  The mappings of the virtual file are the segments
    built from the line-mapping table, then the whole-document entry
    when there is one.  Through any of them, an original offset that
    has a generated image is given back exactly by the way back.
    Through a segment of the table every offset of the source range
    has an image, the way back gives the offset itself, and the image
    of what comes back is the same image. *)
Theorem segment_roundtrip input tsx fileId ts :
  let vf := getVirtualFileTSX input tsx fileId ts in
  let table :=
    List.map noFormatting
      (tableMappings input (snapshot vf) (decode (mappings (map tsx)))) in
  let whole :=
    List.map noFormatting
      (documentMapping input (snapshot vf)
         (createSourceFile ts (lit "/a.tsx") (snapshot vf))) in
  vf_mappings vf = table ++ whole
  /\ (forall m o g,
         In m (vf_mappings vf) -> inSourceRange m o ->
         mapToGenerated m o = Some g -> mapToOriginal m g = Some o)
  /\ (forall m o,
         In m table -> inSourceRange m o ->
         exists g,
           mapToGenerated m o = Some g
           /\ mapToOriginal m g = Some o
           /\ (forall o', mapToOriginal m g = Some o' ->
                          o' = o /\ mapToGenerated m o' = Some g)).
Proof.
  intros vf table whole. split; [apply vf_mappings_parts|]. split.
  - intros m o g _ _. apply translate_back.
  - intros m o Hm Ho.
    assert (Hlen : sameLength m).
    { pose proof (tableMappings_sameLength input (snapshot vf)
                    (decode (mappings (map tsx)))) as Hall.
      apply (Forall_noFormatting sameLength) in Hall; [|trivial].
      rewrite Forall_forall in Hall. now apply Hall. }
    assert (Hg : mapToGenerated m o
                 = Some (fst (generatedRange m) + (o - fst (sourceRange m))))
      by (apply translate_sameLength; assumption).
    eexists. split; [exact Hg|].
    pose proof (translate_back _ _ _ _ Hg) as Hback.
    split; [exact Hback|].
    intros o' Ho'. unfold mapToOriginal in Hback, Ho'.
    rewrite Hback in Ho'. injection Ho' as <-. split; [reflexivity | exact Hg].
Qed.

(** C2, as amended.  When the text documents convert positions to
    offsets of their text, every segment built from the line-mapping
    table (every mapping but the whole-document entry) is not empty,
    lies in the two documents, has a source range and a generated range
    of one length, and the original text over the one is the generated
    text over the other.  When a run is closed and its two texts differ,
    the length kept is that of their longest common prefix (the texts
    agree up to it and differ, or one of them ends, right after it): the
    segment the run adds or grows ends there on both sides, and no
    mapping is added when the prefix is empty.  This holds of the runs
    of the table: each run closed with a length kept above zero is held
    by a segment of the table, at the same distance from the starts of
    its two ranges; a run whose two texts are equal is kept whole, a run
    whose texts differ is kept up to their longest common prefix.  When
    the generated offsets of the table do not decrease, the segment that
    holds a run cut short ends where the length kept ends, on both
    sides, and no segment of the table covers a generated offset that a
    run left out.  The whole-document entry is not one of these
    segments. *)
Theorem table_segments_same_text input tsx fileId ts :
  (forall text position,
      0 <= TextDocument_offsetAt text position <= JS.length text) ->
  let vf := getVirtualFileTSX input tsx fileId ts in
  let code := snapshot vf in
  let table :=
    List.map noFormatting
      (tableMappings input code (decode (mappings (map tsx)))) in
  let whole :=
    List.map noFormatting
      (documentMapping input code (createSourceFile ts (lit "/a.tsx") code)) in
  vf_mappings vf = table ++ whole
  /\ (forall m, In m table -> sameText input code m)
  /\ (forall st current genLine segment,
         st_current st = Some current ->
         let genOffset :=
           TextDocument_offsetAt code
             {| line := genLine; character := segment0 segment |} in
         let sourceText := sourceTextOf input current genOffset in
         let genText := genTextOf code current genOffset in
         cur_genOffset current <= genOffset ->
         sourceText <> genText ->
         let k := Z.of_nat (longestCommonPrefix sourceText genText) in
         matchedLength input code current genOffset = k
         /\ firstn (Z.to_nat k) sourceText = firstn (Z.to_nat k) genText
         /\ strictEq (index sourceText k) (index genText k) = false
         /\ st_mappings (stepSegment input code genLine st segment)
            = (if 0 <? k then addMapping (st_mappings st) current k
               else st_mappings st)
         /\ (0 < k ->
             exists front m,
               addMapping (st_mappings st) current k = front ++ [m]
               /\ snd (sourceRange m) = cur_sourceOffset current + k
               /\ snd (generatedRange m) = cur_genOffset current + k))
  /\ (Sorted Z.le (genOffsets code (decode (mappings (map tsx)))) ->
      forall run offset m,
        In run (closedRuns input code None
                  (numbered 0 (decode (mappings (map tsx))))) ->
        leftOut input code run offset ->
        In m table -> ~ covers m offset)
  /\ (forall run,
        In run (closedRuns input code None
                  (numbered 0 (decode (mappings (map tsx))))) ->
        let sourceText := sourceTextOf input (fst run) (snd run) in
        let genText := genTextOf code (fst run) (snd run) in
        let k := matchedLength input code (fst run) (snd run) in
        (sourceText = genText -> k = snd run - cur_genOffset (fst run))
        /\ (sourceText <> genText -> cur_genOffset (fst run) <= snd run ->
            k = Z.of_nat (longestCommonPrefix sourceText genText))
        /\ (0 < k -> exists m, In m table /\ Shapes.holds m (fst run) k)
        /\ (Sorted Z.le (genOffsets code (decode (mappings (map tsx)))) ->
            0 < k -> cur_genOffset (fst run) + k < snd run ->
            exists m,
              In m table
              /\ Shapes.holds m (fst run) k
              /\ snd (generatedRange m) = cur_genOffset (fst run) + k
              /\ snd (sourceRange m) = cur_sourceOffset (fst run) + k)).
Proof.
  intros Hbounds vf code table whole.
  split; [apply vf_mappings_parts|]. split; [|split; [|split]].
  - intros m Hm.
    pose proof (tableMappings_sameText input code
                  (decode (mappings (map tsx))) Hbounds) as Hall.
    apply (Forall_noFormatting (sameText input code)) in Hall; [|trivial].
    rewrite Forall_forall in Hall. now apply Hall.
  - intros st current genLine segment Hcur genOffset sourceText genText
           Hle Hne k.
    assert (Hk : matchedLength input code current genOffset = k).
    { rewrite (matchedLength_diverge _ _ _ _ Hne). unfold k. f_equal.
      fold sourceText genText.
      pose proof (longestCommonPrefix_le sourceText genText) as [_ Hl].
      pose proof (substring_length_le code (cur_genOffset current)
                    (cur_genOffset current
                     + (genOffset - cur_genOffset current))) as Hg.
      fold (genTextOf code current genOffset) in Hg. fold genText in Hg.
      lia. }
    split; [exact Hk|]. split; [|split; [|split]].
    + unfold k. rewrite Nat2Z.id. apply longestCommonPrefix_firstn.
    + unfold k, index.
      destruct (Z.ltb_spec (Z.of_nat (longestCommonPrefix sourceText genText)) 0);
        [lia|].
      rewrite Nat2Z.id. now apply longestCommonPrefix_stops.
    + unfold stepSegment. fold genOffset. rewrite Hcur, Hk.
      destruct (segment23 segment) as [[sourceLine sourceColumn]|];
        reflexivity.
    + intros _.
      destruct (addMapping_cases (st_mappings st) current k)
        as [-> | (front & last & _ & _ & _ & ->)];
        eexists; eexists; (split; [reflexivity|]); split; reflexivity.
  - intros Hsorted run offset m Hrun Hleft Hm Hcov.
    apply in_map_iff in Hm. destruct Hm as (m0 & <- & Hm0).
    exact (tableMappings_leftOut input code _ Hsorted run offset m0
             Hrun Hleft Hm0 Hcov).
  - intros run Hrun sourceText genText k.
    split; [|split; [|split]].
    + intros Heq. now apply matchedLength_equal.
    + intros Hne Hle. unfold k.
      rewrite (matchedLength_diverge _ _ _ _ Hne). f_equal.
      fold sourceText genText.
      pose proof (longestCommonPrefix_le sourceText genText) as [_ Hl].
      pose proof (substring_length_le code (cur_genOffset (fst run))
                    (cur_genOffset (fst run)
                     + (snd run - cur_genOffset (fst run)))) as Hg.
      fold (genTextOf code (fst run) (snd run)) in Hg. fold genText in Hg.
      lia.
    + intros Hpos.
      destruct (RunFacts.tableMappings_kept input code
                  (decode (mappings (map tsx)))) as [_ Hkept].
      destruct (Hkept run Hrun Hpos) as (m0 & Hm0 & Hheld).
      exists (noFormatting m0). split; [now apply in_map | exact Hheld].
    + intros Hsorted Hpos Hcut.
      destruct (RunFacts.tableMappings_cut input code
                  (decode (mappings (map tsx))) Hsorted run Hrun Hpos Hcut)
        as (m0 & Hm0 & Hheld & Hg & Hs).
      exists (noFormatting m0). split; [now apply in_map|].
      split; [exact Hheld|]. split; [exact Hg | exact Hs].
Qed.

(** C3.  When the compiler throws, [astro2tsx] still returns: the
    generated code of its virtual file is the empty string, and its
    diagnostics are one diagnostic, of severity 1 (an error, as
    [hasCompilationErrors] reads it), with code 1000, placed at the
    start of the file over its whole length, whose text reports the
    unknown error of the compiler.  The failure is written to the
    console. *)
Theorem compiler_failure_fallback input fileName ts e :
  convertToTSX input {| filename := Some fileName |} = Threw e ->
  let result := fst (astro2tsx input fileName ts) in
  snapshot (virtualFile result) = []
  /\ getLength (virtualFile result) = 0
  /\ result_diagnostics result
     = [ {| diag_code := 1000;
            location := {| loc_file := Some fileName;
                           loc_line := 1;
                           loc_column := 1;
                           loc_length := JS.length input |};
            severity := 1;
            diag_text := unknownErrorText |} ]
  /\ Core.hasCompilationErrors (result_diagnostics result) = true
  /\ snd (astro2tsx input fileName ts)
     = [ transformErrorLog {| filename := Some fileName |} e ].
Proof.
  intros Hthrow result. unfold result, astro2tsx, safeConvertToTSX.
  cbn [filename]. rewrite Hthrow. cbn [fst snd virtualFile result_diagnostics].
  unfold getLength, getVirtualFileTSX. cbn [snapshot code].
  unfold patchTSX. rewrite replaceMarker_equation_1.
  repeat split.
Qed.

(** C7, as amended.  When the parsed generated code has a first
    statement, the mappings end with one more entry, from the whole
    original document to the generated code from the start of that
    statement to its end.  When it has no statement, as for an empty
    code, no such entry is pushed: the mappings are those of the
    table. *)
Theorem whole_document_entry input tsx fileId ts :
  let vf := getVirtualFileTSX input tsx fileId ts in
  let code := snapshot vf in
  let table :=
    List.map noFormatting
      (tableMappings input code (decode (mappings (map tsx)))) in
  match statements (createSourceFile ts (lit "/a.tsx") code) with
  | statement0 :: _ =>
      vf_mappings vf
      = table ++
        [ {| sourceRange := (0, JS.length input);
             generatedRange := (getStart statement0, JS.length code);
             data := {| formattingEdits := Some false |} |} ]
  | [] => vf_mappings vf = table
  end.
Proof.
  intros vf code table. unfold vf, table, code.
  rewrite vf_mappings_parts. unfold documentMapping.
  destruct (statements _) as [|statement0 rest]; simpl.
  - apply app_nil_r.
  - reflexivity.
Qed.

(** C8, as amended.  When the generated offsets of the decoded table
    do not decrease in the order the loops visit them, the segments
    built from the table are in the order of their generated ranges:
    each range is not empty and ends where the next starts, or
    before, so a generated offset is covered by at most one of them,
    the ends apart.  The whole-document entry comes after them in the
    list and is not part of this order. *)
Theorem table_segments_ordered input tsx fileId ts :
  let vf := getVirtualFileTSX input tsx fileId ts in
  let code := snapshot vf in
  let table :=
    List.map noFormatting
      (tableMappings input code (decode (mappings (map tsx)))) in
  let whole :=
    List.map noFormatting
      (documentMapping input code (createSourceFile ts (lit "/a.tsx") code)) in
  Sorted Z.le (genOffsets code (decode (mappings (map tsx)))) ->
  vf_mappings vf = table ++ whole
  /\ StronglySorted before table
  /\ Forall (fun m => fst (generatedRange m) < snd (generatedRange m)) table
  /\ (forall i j m1 m2 offset,
         i <> j ->
         nth_error table i = Some m1 -> nth_error table j = Some m2 ->
         covers m1 offset -> ~ covers m2 offset).
Proof.
  intros vf code table whole Hsorted.
  destruct (tableMappings_order input code _ Hsorted) as [Hs Hpos].
  assert (Hs' : StronglySorted before table).
  { unfold table. clear - Hs.
    induction Hs as [|m l Hl IH Hm]; simpl; constructor; [exact IH|].
    apply Forall_map. exact Hm. }
  split; [apply vf_mappings_parts|]. split; [exact Hs'|]. split.
  - apply Forall_noFormatting; [trivial | exact Hpos].
  - intros i j m1 m2 offset Hij H1 H2 [Hc1 Hc1'] [Hc2 Hc2'].
    destruct (Nat.lt_total i j) as [Hlt | [Heq | Hgt]]; [|congruence|].
    + pose proof (StronglySorted_nth before table Hs' i j m1 m2 Hlt H1 H2) as Hb.
      unfold before in Hb. lia.
    + pose proof (StronglySorted_nth before table Hs' j i m2 m1 Hgt H2 H1) as Hb.
      unfold before in Hb. lia.
Qed.

(** C9.  Every mapping of the virtual file has its formatting flag
    set, and set to false: no segment, of original or of synthesized
    text, is open to formatting edits. *)
Theorem formatting_disabled input tsx fileId ts fileName :
  Forall (fun m => formattingEdits (data m) = Some false)
         (vf_mappings (getVirtualFileTSX input tsx fileId ts))
  /\ Forall (fun m => formattingEdits (data m) = Some false)
            (vf_mappings (virtualFile (fst (astro2tsx input fileName ts)))).
Proof.
  assert (H : forall input tsx fileId,
             Forall (fun m => formattingEdits (data m) = Some false)
                    (vf_mappings (getVirtualFileTSX input tsx fileId ts))).
  { intros input0 tsx0 fileId0. unfold getVirtualFileTSX. cbn [vf_mappings].
    apply Forall_map, Forall_forall. reflexivity. }
  split; [apply H|].
  unfold astro2tsx. destruct (safeConvertToTSX _ _) as [tsx' console].
  apply H.
Qed.

End Claims.

(** *** The claims on the samples *)

(** The heading: its segment of the table takes offset 5 to 16 and
    back. *)
Lemma segment_roundtrip_witness :
  exists g,
    mapToGenerated
      {| sourceRange := (0, 11); generatedRange := (11, 22);
         data := {| formattingEdits := Some false |} |} 5 = Some g
    /\ mapToOriginal
         {| sourceRange := (0, 11); generatedRange := (11, 22);
            data := {| formattingEdits := Some false |} |} g = Some 5
    /\ (forall o',
           mapToOriginal
             {| sourceRange := (0, 11); generatedRange := (11, 22);
                data := {| formattingEdits := Some false |} |} g = Some o' ->
           o' = 5
           /\ mapToGenerated
                {| sourceRange := (0, 11); generatedRange := (11, 22);
                   data := {| formattingEdits := Some false |} |} o' = Some g).
Proof.
  apply (proj2 (proj2 (@segment_roundtrip headingWorld heading headingTSX
                         fileName (typescript 0)))).
  - vm_compute. left. reflexivity.
  - vm_compute. split; discriminate.
Defined.

(** C1 as stated fails on the whole-document entry: with a generated
    code shorter than the document, the entry is [0, 11] to [0, 5], and
    offset 8 of its source range has no generated image. *)
Lemma whole_document_entry_not_invertible :
  ~ (forall m o,
        In m (vf_mappings (@getVirtualFileTSX shortWorld heading shortTSX
                             fileName (typescript 0))) ->
        inSourceRange m o ->
        exists g, mapToGenerated m o = Some g /\ mapToOriginal m g = Some o).
Proof.
  intros H.
  destruct (H {| sourceRange := (0, 11); generatedRange := (0, 5);
                 data := {| formattingEdits := Some false |} |} 8)
    as (g & Hg & _).
  - vm_compute. left. reflexivity.
  - vm_compute. split; discriminate.
  - vm_compute in Hg. discriminate.
Qed.

(** The link: the generated code rewrites the attribute, the two texts
    differ after three code units, and the one segment of the table is
    [0, 3] on both sides. *)
Lemma table_segments_same_text_witness :
  sameText link (lit "<a c>x</a>")
    {| sourceRange := (0, 3); generatedRange := (0, 3);
       data := {| formattingEdits := Some false |} |}.
Proof.
  apply (proj1 (proj2 (@table_segments_same_text linkWorld link linkTSX
                         fileName (typescript 0)
                         (fun text position =>
                            UtilsFacts.offsetAt_bounds position text)))).
  vm_compute. left. reflexivity.
Defined.

(** C2 as stated fails on the whole-document entry: the run of the
    link is closed at the generated offset 10 and kept up to 3, where
    the two texts differ, and the offset 5 it leaves out is covered by
    the entry [0, 10] of the whole document. *)
Lemma whole_document_entry_maps_remainder :
  ~ (forall run offset m,
        In run (@closedRuns linkWorld link (lit "<a c>x</a>") None
                  (numbered 0 linkTable)) ->
        leftOut link (lit "<a c>x</a>") run offset ->
        In m (vf_mappings (@getVirtualFileTSX linkWorld link linkTSX fileName
                             (typescript 0))) ->
        ~ covers m offset).
Proof.
  intros H.
  apply (H ({| cur_genOffset := 0; cur_sourceOffset := 0 |}, 10) 5
           {| sourceRange := (0, 10); generatedRange := (0, 10);
              data := {| formattingEdits := Some false |} |}).
  - vm_compute. left. reflexivity.
  - unfold leftOut. vm_compute. split; [discriminate | reflexivity].
  - vm_compute. right. left. reflexivity.
  - unfold covers. simpl. lia.
Qed.

Lemma compiler_failure_fallback_witness :
  snapshot (virtualFile (fst (@astro2tsx failingWorld heading fileName
                                (typescript 0)))) = []
  /\ Core.hasCompilationErrors
       (result_diagnostics (fst (@astro2tsx failingWorld heading fileName
                                   (typescript 0)))) = true.
Proof.
  destruct (@compiler_failure_fallback failingWorld heading fileName
              (typescript 0) (lit "panic") eq_refl)
    as (Hcode & _ & _ & Herr & _).
  split; assumption.
Defined.

(** C7 as stated fails in the fallback: the code is empty, the parser
    finds no statement in it, and the mapping list is empty. *)
Lemma fallback_has_no_whole_document_entry :
  vf_mappings (virtualFile (fst (@astro2tsx failingWorld heading fileName
                                   (typescript 0)))) = []
  /\ ~ (exists front generatedStart generatedEnd flags,
           vf_mappings (virtualFile (fst (@astro2tsx failingWorld heading
                                            fileName (typescript 0))))
           = front ++
             [ {| sourceRange := (0, JS.length heading);
                  generatedRange := (generatedStart, generatedEnd);
                  data := flags |} ]).
Proof.
  assert (Hempty :
    vf_mappings (virtualFile (fst (@astro2tsx failingWorld heading fileName
                                     (typescript 0)))) = [])
    by (vm_compute; reflexivity).
  split; [exact Hempty|].
  intros (front & g0 & g1 & flags & H). rewrite Hempty in H.
  symmetry in H. apply app_eq_nil in H. destruct H as [_ H]. discriminate.
Qed.

(** The heading: the table is visited at the generated offsets 11 and
    22, and its one segment covers offset 11. *)
Lemma table_segments_ordered_witness :
  Forall (fun m => fst (generatedRange m) < snd (generatedRange m))
         (List.map noFormatting
            (@tableMappings headingWorld heading
               (snapshot (@getVirtualFileTSX headingWorld heading headingTSX
                            fileName (typescript 0)))
               headingTable)).
Proof.
  apply (@table_segments_ordered headingWorld heading headingTSX fileName
           (typescript 0)).
  vm_compute. repeat constructor. discriminate.
Defined.

(** C8 as stated fails on the whole-document entry: for the heading it
    is [0, 34] on the generated side, over the segment [11, 22] of the
    table. *)
Lemma whole_document_entry_overlaps :
  ~ (forall i j m1 m2 offset,
        i <> j ->
        nth_error (vf_mappings (@getVirtualFileTSX headingWorld heading
                                  headingTSX fileName (typescript 0))) i
        = Some m1 ->
        nth_error (vf_mappings (@getVirtualFileTSX headingWorld heading
                                  headingTSX fileName (typescript 0))) j
        = Some m2 ->
        covers m1 offset -> ~ covers m2 offset).
Proof.
  intros H.
  apply (H 0%nat 1%nat
           {| sourceRange := (0, 11); generatedRange := (11, 22);
              data := {| formattingEdits := Some false |} |}
           {| sourceRange := (0, 11); generatedRange := (0, 34);
              data := {| formattingEdits := Some false |} |}
           15);
    try (vm_compute; reflexivity); try discriminate;
    unfold covers; simpl; lia.
Qed.

End Astro2tsxClaims.

(* ===================================================================== *)
(** ** Line offsets, positions and offsets: what the answers mean *)
(* ===================================================================== *)

Module PositionFacts.

Import Astro2tsx Utils Properties Shapes UtilsFacts StringFacts.

Lemma index_head {A : Type} (a : A) (l : list A) : index (a :: l) 0 = Some a.
Proof. reflexivity. Qed.

Lemma index_tail {A : Type} (a : A) (l : list A) (k : Z) :
  0 < k -> index (a :: l) k = index l (k - 1).
Proof.
  intros Hk. unfold index.
  destruct (Z.ltb_spec k 0); [lia|].
  destruct (Z.ltb_spec (k - 1) 0); [lia|].
  replace (Z.to_nat k) with (S (Z.to_nat (k - 1))) by lia. reflexivity.
Qed.

Lemma index_negative {A : Type} (l : list A) (k : Z) : k < 0 -> index l k = None.
Proof. intros Hk. unfold index. destruct (Z.ltb_spec k 0); [reflexivity | lia]. Qed.

Lemma lineBreakAt_range (text : jsstring) (k : Z) :
  lineBreakAt text k -> 0 <= k < JS.length text.
Proof.
  intros [H | [H _]]; apply index_range in H; unfold JS.length; lia.
Qed.

Lemma lineBreakAt_tail (a : code_unit) (l : jsstring) (k : Z) :
  0 < k -> (lineBreakAt (a :: l) k <-> lineBreakAt l (k - 1)).
Proof.
  intros Hk. unfold lineBreakAt.
  rewrite (index_tail a l k Hk), (index_tail a l (k + 1)) by lia.
  replace (k + 1 - 1) with (k - 1 + 1) by lia. reflexivity.
Qed.

(** What the loop of [getLineOffsets] pushes from index [i] on: [i]
    itself when a line starts there, and the index after each line
    break of the rest. *)
Lemma lineOffsetsFrom_In (n : nat) :
  forall rest len i b x,
    (List.length rest <= n)%nat ->
    i + JS.length rest = len -> 0 <= i ->
    (In x (lineOffsetsFrom len i b rest)
     <-> (b = true /\ x = i /\ 0 < len)
         \/ lineBreakAt rest (x - i - 1)).
Proof.
  induction n as [|n IH]; intros rest len i b x Hn Hlen Hi.
  - destruct rest; [|simpl in Hn; lia].
    unfold JS.length in Hlen. simpl in Hlen. simpl.
    split.
    + destruct b; simpl; [|tauto].
      destruct (Z.ltb_spec 0 len); simpl; [|tauto].
      intros [<-|[]]. left. repeat split; lia.
    + intros [(-> & -> & Hpos) | Hbreak].
      * simpl. destruct (Z.ltb_spec 0 len); [left; lia | lia].
      * apply lineBreakAt_range in Hbreak. unfold JS.length in Hbreak.
        simpl in Hbreak. lia.
  - destruct rest as [|ch rest']; [apply (IH [] len i b x); simpl; lia || assumption|].
    assert (Hlen' : i + 1 + JS.length rest' = len)
      by (unfold JS.length in *; simpl List.length in Hlen; lia).
    assert (Hpos : 0 < len)
      by (unfold JS.length in *; simpl List.length in Hlen; lia).
    simpl in Hn.
    assert (Hpushed : forall l,
               In x ((if b then [i] else []) ++ l)
               <-> (b = true /\ x = i /\ 0 < len) \/ In x l).
    { intros l. rewrite in_app_iff. destruct b; simpl; intuition (try lia; try discriminate). }
    assert (Hhead : x - i - 1 = 0 -> x = i + 1) by lia.
    cbn [lineOffsetsFrom].
    destruct (Z.eqb_spec ch CR) as [Hcr|Hcr].
    + subst ch. destruct rest' as [|ch' rest''].
      * rewrite Hpushed, (IH [] len (i + 1) true x) by (simpl; lia || assumption).
        unfold lineBreakAt.
        split; (intros [H|H]; [now left | right]).
        -- destruct H as [(_ & -> & _) | H].
           ++ replace (i + 1 - i - 1) with 0 by lia. right. split; [reflexivity | discriminate].
           ++ destruct H as [H | [H _]]; apply index_range in H; simpl in H; lia.
        -- left. destruct H as [H | [H _]];
             pose proof (index_range _ _ _ H) as Hr; simpl in Hr;
             assert (x = i + 1) by lia; auto.
      * destruct (Z.eqb_spec ch' LF) as [Hlf|Hlf].
        -- subst ch'.
           assert (Hlen'' : i + 2 + JS.length rest'' = len)
             by (unfold JS.length in *; simpl List.length in Hlen'; lia).
           rewrite Hpushed, (IH rest'' len (i + 2) true x)
             by (simpl in Hn; lia || assumption).
           split; (intros [H|H]; [now left | right]).
           ++ destruct H as [(_ & -> & _) | H].
              ** replace (i + 2 - i - 1) with 1 by lia. left. reflexivity.
              ** pose proof (lineBreakAt_range _ _ H) as Hr.
                 apply lineBreakAt_tail; [lia|].
                 apply lineBreakAt_tail; [lia|].
                 replace (x - i - 1 - 1 - 1) with (x - (i + 2) - 1) by lia.
                 exact H.
           ++ pose proof (lineBreakAt_range _ _ H) as Hr.
              destruct (Z.eq_dec (x - i - 1) 0) as [H0|H0].
              { rewrite H0 in H. destruct H as [H | [_ H]]; [discriminate H|].
                exfalso. apply H. reflexivity. }
              destruct (Z.eq_dec (x - i - 1) 1) as [H1|H1].
              { left. repeat split; lia. }
              right. apply lineBreakAt_tail in H; [|lia].
              apply lineBreakAt_tail in H; [|lia].
              replace (x - (i + 2) - 1) with (x - i - 1 - 1 - 1) by lia.
              exact H.
        -- rewrite Hpushed, (IH (ch' :: rest'') len (i + 1) true x)
             by (simpl in *; lia || assumption).
           split; (intros [H|H]; [now left | right]).
           ++ destruct H as [(_ & -> & _) | H].
              ** replace (i + 1 - i - 1) with 0 by lia. right.
                 split; [reflexivity|].
                 intros Hx. vm_compute in Hx. injection Hx as Hx. contradiction.
              ** pose proof (lineBreakAt_range _ _ H) as Hr.
                 apply lineBreakAt_tail; [lia|].
                 replace (x - i - 1 - 1) with (x - (i + 1) - 1) by lia.
                 exact H.
           ++ pose proof (lineBreakAt_range _ _ H) as Hr.
              destruct (Z.eq_dec (x - i - 1) 0) as [H0|H0].
              { left. repeat split; lia. }
              right. apply lineBreakAt_tail in H; [|lia].
              replace (x - (i + 1) - 1) with (x - i - 1 - 1) by lia.
              exact H.
    + rewrite Hpushed, (IH rest' len (i + 1) (ch =? LF) x)
        by (lia || assumption).
      split; (intros [H|H]; [now left | right]).
      * destruct H as [(Hb & -> & _) | H].
        -- replace (i + 1 - i - 1) with 0 by lia. left.
           apply Z.eqb_eq in Hb. subst ch. reflexivity.
        -- pose proof (lineBreakAt_range _ _ H) as Hr.
           apply lineBreakAt_tail; [lia|].
           replace (x - i - 1 - 1) with (x - (i + 1) - 1) by lia.
           exact H.
      * pose proof (lineBreakAt_range _ _ H) as Hr.
        destruct (Z.eq_dec (x - i - 1) 0) as [H0|H0].
        -- left. rewrite H0 in H.
           destruct H as [H | [H _]]; cbn in H; injection H as H; [|contradiction].
           subst ch. repeat split; lia.
        -- right. apply lineBreakAt_tail in H; [|lia].
           replace (x - (i + 1) - 1) with (x - i - 1 - 1) by lia.
           exact H.
Qed.

(** X1.  The line offsets [getLineOffsets] returns are exactly the
    starts of the lines: offset 0 when the text is not empty, and the
    offset after each line break, where a carriage return followed by a
    line feed is one break that ends after the line feed.  They come in
    strictly increasing order, so none is listed twice, and none leaves
    the text. *)
Theorem getLineOffsets_line_starts (text : jsstring) :
  (forall x, In x (getLineOffsets text)
             <-> (x = 0 /\ text <> []) \/ lineBreakAt text (x - 1))
  /\ increasing (getLineOffsets text)
  /\ (forall x, In x (getLineOffsets text) -> 0 <= x <= JS.length text).
Proof.
  split; [|split].
  - intros x. unfold getLineOffsets.
    rewrite (lineOffsetsFrom_In (List.length text) text (JS.length text) 0 true x)
      by lia.
    replace (x - 0 - 1) with (x - 1) by lia.
    split; (intros [H|H]; [left | now right]).
    + destruct H as (_ & -> & Hpos). split; [reflexivity|].
      intros ->. unfold JS.length in Hpos. simpl in Hpos. lia.
    + destruct H as [-> Hne]. repeat split.
      destruct text; [contradiction|]. unfold JS.length. simpl. lia.
  - apply getLineOffsets_offsets.
  - intros x Hx. destruct (getLineOffsets_offsets text) as [_ Hall].
    rewrite Forall_forall in Hall. apply Hall in Hx. lia.
Qed.

(** [positionAt] on a text that is not empty: the answer is on a line,
    at the offset confined to the text. *)
Lemma positionAt_onLine (ch : code_unit) (rest : jsstring) (offset : Z) :
  exists p, positionAt offset (ch :: rest) = Some p
            /\ onLine (ch :: rest) p (clamp offset 0 (JS.length (ch :: rest))).
Proof.
  unfold positionAt, positionAtIn, onLine.
  set (text := ch :: rest).
  assert (Hlen : 0 <= JS.length text) by (unfold JS.length; lia).
  set (o := clamp offset 0 (JS.length text)).
  assert (Ho : 0 <= o <= JS.length text) by (unfold o, clamp; lia).
  destruct (getLineOffsets_head ch rest) as [tl Hhead]. fold text in Hhead.
  pose proof (getLineOffsets_offsets text) as [Hinc _].
  set (l := getLineOffsets text) in *.
  assert (H0 : index l 0 = Some 0) by (rewrite Hhead; reflexivity).
  destruct (Z.eqb_spec (Z.of_nat (List.length l)) 0) as [He|_];
    [rewrite Hhead in He; simpl in He; lia|].
  pose proof (positionAtLoop_spec l o 0 (Z.of_nat (List.length l)) Hinc) as Hs.
  destruct (positionAtLoop l o 0 (Z.of_nat (List.length l))) as [p|low].
  - destruct Hs as [Hline Hchar]; try lia.
    + intros i x Hi Hx. apply index_range in Hx. lia.
    + intros i x Hi Hx. apply index_range in Hx. lia.
    + exists p. split; [reflexivity|]. exists o. rewrite Hchar.
      repeat split; try lia; [exact Hline|].
      intros next Hnext. apply (Hinc (line p) (line p + 1)); (lia || assumption).
  - destruct Hs as (Hlow & Hbefore & Hafter); try lia.
    + intros i x Hi Hx. apply index_range in Hx. lia.
    + intros i x Hi Hx. apply index_range in Hx. lia.
    + assert (0 < low).
      { destruct (Z.le_gt_cases low 0) as [Hle|]; [|lia].
        specialize (Hafter 0 0 Hle H0). lia. }
      destruct (index_in_range l (low - 1)) as [lo Hlo]; [lia|].
      rewrite Hlo. eexists. split; [reflexivity|].
      exists lo. cbn [line character].
      assert (lo < o) by (apply (Hbefore (low - 1)); (lia || assumption)).
      repeat split; try lia; [exact Hlo|].
      replace (low - 1 + 1) with low by lia.
      intros next Hnext. apply (Hafter low); (lia || assumption).
Qed.

(** An offset has one position on a line. *)
Lemma onLine_unique (text : jsstring) (p q : Position) (o : Z) :
  onLine text p o -> onLine text q o -> p = q.
Proof.
  intros (lp & Hlp & Hcp & Hop & _ & Hnp) (lq & Hlq & Hcq & Hoq & _ & Hnq).
  pose proof (getLineOffsets_offsets text) as [Hinc _].
  assert (Hline : line p = line q).
  { destruct (Z.lt_trichotomy (line p) (line q)) as [Hlt | [Heq | Hgt]];
      [exfalso | exact Heq | exfalso].
    - pose proof (index_range _ _ _ Hlp). pose proof (index_range _ _ _ Hlq).
      destruct (index_in_range (getLineOffsets text) (line p + 1)) as [next Hnext];
        [lia|].
      specialize (Hnp next Hnext).
      destruct (Z.eq_dec (line p + 1) (line q)) as [He|He].
      + rewrite He in Hnext. assert (next = lq) by congruence. lia.
      + assert (next < lq)
          by (apply (Hinc (line p + 1) (line q)); (lia || assumption)).
        lia.
    - pose proof (index_range _ _ _ Hlp). pose proof (index_range _ _ _ Hlq).
      destruct (index_in_range (getLineOffsets text) (line q + 1)) as [next Hnext];
        [lia|].
      specialize (Hnq next Hnext).
      destruct (Z.eq_dec (line q + 1) (line p)) as [He|He].
      + rewrite He in Hnext. assert (next = lp) by congruence. lia.
      + assert (next < lp)
          by (apply (Hinc (line q + 1) (line p)); (lia || assumption)).
        lia. }
  destruct p as [pl pc], q as [ql qc]. cbn [line character] in *. subst ql.
  assert (lp = lq) by congruence. f_equal. lia.
Qed.

(** [offsetAt] of a position on a line is its offset. *)
Lemma offsetAt_onLine (text : jsstring) (p : Position) (o : Z) :
  onLine text p o -> offsetAt p text = o.
Proof.
  intros (lo & Hlo & Hc & Ho & Hlen & Hnext).
  unfold offsetAt. rewrite (offsetAtIn_line _ _ _ _ Hlo). unfold clamp.
  destruct (index (getLineOffsets text) (line p + 1)) as [next|] eqn:Hn.
  - specialize (Hnext next eq_refl). lia.
  - lia.
Qed.

(** X2.  On a text that is not empty, [positionAt] answers with the one
    position that is on a line at the offset confined to the text: its
    line is a line of the text, its character is counted from the start
    of that line and stops before the start of the next line. *)
Theorem positionAt_is_the_position_on_a_line
  (ch : code_unit) (rest : jsstring) (offset : Z) (p : Position) :
  positionAt offset (ch :: rest) = Some p
  <-> onLine (ch :: rest) p (clamp offset 0 (JS.length (ch :: rest))).
Proof.
  destruct (positionAt_onLine ch rest offset) as (q & Hq & Hon).
  split.
  - intros Hp. assert (q = p) by congruence. subst q. exact Hon.
  - intros Hp. rewrite Hq. f_equal. exact (onLine_unique _ _ _ _ Hon Hp).
Qed.

(** X3.  The round trip from a position: for a position on a line of the
    text, [offsetAt] is the line's offset plus the character, and
    [positionAt] of that offset is the position again. *)
Theorem positionAt_offsetAt_roundtrip
  (text : jsstring) (p : Position) (o : Z) :
  onLine text p o ->
  offsetAt p text = o /\ positionAt (offsetAt p text) text = Some p.
Proof.
  intros Hon. pose proof (offsetAt_onLine _ _ _ Hon) as Hoff.
  split; [exact Hoff|]. rewrite Hoff.
  destruct text as [|ch rest].
  - destruct Hon as (lo & Hlo & _). apply index_range in Hlo.
    simpl in Hlo. lia.
  - destruct (positionAt_onLine ch rest o) as (q & Hq & Hq').
    rewrite Hq. f_equal.
    rewrite clamp_inside in Hq'.
    + exact (onLine_unique _ _ _ _ Hq' Hon).
    + destruct Hon as (lo & Hlo & Hc & Ho & Hlen & _).
      pose proof (getLineOffsets_bounds _ _ _ Hlo). lia.
Qed.

Lemma positionAt_offsetAt_roundtrip_witness :
  offsetAt {| line := 1; character := 1 |} Samples.twoLines = 4
  /\ positionAt (offsetAt {| line := 1; character := 1 |} Samples.twoLines)
                Samples.twoLines
     = Some {| line := 1; character := 1 |}.
Proof.
  apply (positionAt_offsetAt_roundtrip Samples.twoLines
           {| line := 1; character := 1 |} 4).
  exists 3. vm_compute. repeat split; discriminate.
Defined.

Lemma lineOffsetsFrom_from (rest : jsstring) (len i low : Z) (b : bool) :
  i + JS.length rest = len -> 0 <= i -> low <= i ->
  Forall (fun x => low <= x) (lineOffsetsFrom len i b rest).
Proof.
  intros Hlen Hi Hlow.
  destruct (lineOffsetsFrom_offsets (List.length rest) rest len i b (le_n _) Hlen Hi)
    as [_ Hall].
  eapply Forall_impl; [|exact Hall]. intros x [Hx _]. destruct b; lia.
Qed.

(** The line offsets of a text followed by more text: the offsets
    before the end of the text are those of the text alone, in the same
    places. *)
Lemma lineOffsetsFrom_app (n : nat) :
  forall s extra len len' i b,
    (List.length s <= n)%nat ->
    i + JS.length s = len -> len + JS.length extra = len' -> 0 <= i ->
    exists common tailO tailE,
      lineOffsetsFrom len i b s = common ++ tailO
      /\ lineOffsetsFrom len' i b (s ++ extra) = common ++ tailE
      /\ Forall (fun x => x < len) common
      /\ Forall (fun x => len <= x) tailO
      /\ Forall (fun x => len <= x) tailE.
Proof.
  induction n as [|n IH]; intros s extra len len' i b Hn Hlen Hlen' Hi.
  - destruct s; [|simpl in Hn; lia].
    exists [], (lineOffsetsFrom len i b []), (lineOffsetsFrom len' i b extra).
    assert (i = len) by (unfold JS.length in Hlen; simpl in Hlen; lia). subst i.
    repeat split; try constructor.
    + apply lineOffsetsFrom_from; unfold JS.length; simpl; lia.
    + apply lineOffsetsFrom_from; lia.
  - destruct s as [|ch rest]; [apply (IH [] extra len len' i b); simpl; lia || assumption|].
    assert (Hlen1 : i + 1 + JS.length rest = len)
      by (unfold JS.length in *; simpl List.length in Hlen; lia).
    simpl in Hn.
    assert (Hstep : forall lo le',
               (exists common tailO tailE,
                   lo = common ++ tailO /\ le' = common ++ tailE
                   /\ Forall (fun x => x < len) common
                   /\ Forall (fun x => len <= x) tailO
                   /\ Forall (fun x => len <= x) tailE) ->
               exists common tailO tailE,
                 (if b then [i] else []) ++ lo = common ++ tailO
                 /\ (if b then [i] else []) ++ le' = common ++ tailE
                 /\ Forall (fun x => x < len) common
                 /\ Forall (fun x => len <= x) tailO
                 /\ Forall (fun x => len <= x) tailE).
    { intros lo le' (common & tailO & tailE & -> & -> & Hc & Ho & He).
      exists ((if b then [i] else []) ++ common), tailO, tailE.
      rewrite !app_assoc. repeat split; try assumption.
      apply Forall_app. split; [|exact Hc].
      destruct b; constructor; [|constructor].
      unfold JS.length in Hlen1. lia. }
    cbn [app lineOffsetsFrom].
    destruct (ch =? CR).
    + destruct rest as [|ch' rest'].
      * cbn [app]. unfold JS.length in Hlen1. simpl in Hlen1.
        assert (Hown : Forall (fun x => len <= x)
                         (lineOffsetsFrom len (i + 1) true []))
          by (apply lineOffsetsFrom_from; unfold JS.length; simpl; lia).
        destruct extra as [|e extra'].
        -- apply Hstep. exists [], (lineOffsetsFrom len (i + 1) true []),
             (lineOffsetsFrom len' (i + 1) true []).
           repeat split; try constructor; [exact Hown|].
           apply lineOffsetsFrom_from; unfold JS.length in *; simpl in *; lia.
        -- assert (Hlen2 : len + 1 + JS.length extra' = len')
             by (unfold JS.length in *; simpl List.length in Hlen'; lia).
           destruct (e =? LF); apply Hstep.
           ++ exists [], (lineOffsetsFrom len (i + 1) true []),
                (lineOffsetsFrom len' (i + 2) true extra').
              repeat split; try constructor; [exact Hown|].
              apply lineOffsetsFrom_from; lia.
           ++ exists [], (lineOffsetsFrom len (i + 1) true []),
                (lineOffsetsFrom len' (i + 1) true (e :: extra')).
              repeat split; try constructor; [exact Hown|].
              apply lineOffsetsFrom_from;
                unfold JS.length in *; simpl List.length in *; lia.
      * cbn [app]. destruct (ch' =? LF); apply Hstep.
        -- apply IH; try lia; [simpl in Hn; lia|].
           unfold JS.length in *. simpl List.length in Hlen1. lia.
        -- apply (IH (ch' :: rest') extra len len' (i + 1) true); (lia || assumption).
    + apply Hstep. apply IH; (lia || assumption).
Qed.

Lemma index_app_front {A : Type} (l1 l2 : list A) (i : Z) :
  i < Z.of_nat (List.length l1) -> index (l1 ++ l2) i = index l1 i.
Proof.
  intros Hi. unfold index. destruct (Z.ltb_spec i 0); [reflexivity|].
  apply nth_error_app1. lia.
Qed.

Lemma index_app_back {A : Type} (l1 l2 : list A) (i : Z) (x : A) :
  Z.of_nat (List.length l1) <= i -> index (l1 ++ l2) i = Some x -> In x l2.
Proof.
  intros Hi Hx. apply index_Some in Hx. destruct Hx as [_ Hx].
  rewrite nth_error_app2 in Hx by lia. now apply nth_error_In in Hx.
Qed.

(** [positionAt] on a text followed by more text answers, for an
    offset before the end of the text, as on the text alone. *)
Lemma positionAt_prefix (text extra : jsstring) (o : Z) :
  0 <= o < JS.length text ->
  positionAt o (text ++ extra) = positionAt o text
  /\ exists p, positionAt o text = Some p /\ offsetAt p (text ++ extra) = o.
Proof.
  intros Ho. destruct text as [|ch rest];
    [unfold JS.length in Ho; simpl in Ho; lia|].
  set (text := ch :: rest) in *.
  assert (Hlen' : JS.length (text ++ extra) = JS.length text + JS.length extra)
    by (unfold JS.length; rewrite length_app; lia).
  assert (Hnn : 0 <= JS.length extra) by (unfold JS.length; lia).
  destruct (positionAt_onLine ch rest o) as (p & Hp & Hon). fold text in Hp, Hon.
  rewrite clamp_inside in Hon by lia.
  assert (Hon' : onLine (text ++ extra) p o).
  { destruct Hon as (lo & Hlo & Hc & Heq & _ & Hnext).
    destruct (lineOffsetsFrom_app (List.length text) text extra
                (JS.length text) (JS.length (text ++ extra)) 0 true (le_n _))
      as (common & tailO & tailE & HL & HL' & Hcommon & HtailO & HtailE);
      try lia.
    fold (getLineOffsets text) in HL. fold (getLineOffsets (text ++ extra)) in HL'.
    rewrite HL in Hlo, Hnext. rewrite Forall_forall in HtailO, HtailE.
    assert (Hfront : line p < Z.of_nat (List.length common)).
    { destruct (Z.lt_ge_cases (line p) (Z.of_nat (List.length common)))
        as [Hlt|Hge]; [exact Hlt|].
      apply (index_app_back _ _ _ _ Hge) in Hlo. apply HtailO in Hlo. lia. }
    exists lo. rewrite HL'. rewrite index_app_front in Hlo by exact Hfront.
    rewrite index_app_front by exact Hfront.
    repeat split; try assumption; try lia.
    intros next Hn.
    destruct (Z.lt_ge_cases (line p + 1) (Z.of_nat (List.length common)))
      as [Hlt|Hge].
    - apply Hnext. rewrite index_app_front in * by exact Hlt. exact Hn.
    - apply (index_app_back _ _ _ _ Hge) in Hn. apply HtailE in Hn. lia. }
  split.
  - rewrite Hp. unfold text. cbn [app].
    destruct (positionAt_onLine ch (rest ++ extra) o) as (q & Hq & Honq).
    change (ch :: rest ++ extra) with (text ++ extra) in Hq, Honq.
    rewrite clamp_inside in Honq by lia.
    change (ch :: rest ++ extra) with (text ++ extra).
    rewrite Hq. f_equal. exact (onLine_unique _ _ _ _ Honq Hon').
  - exists p. split; [exact Hp | now apply offsetAt_onLine].
Qed.

(** [offsetAt] at a line of the text stays between the start of the
    line and the start of the next one. *)
Lemma offsetAt_line_bounds (text : jsstring) (p : Position) (lo : Z) :
  index (getLineOffsets text) (line p) = Some lo ->
  lo <= offsetAt p text
  /\ (forall next, index (getLineOffsets text) (line p + 1) = Some next ->
                   offsetAt p text <= next).
Proof.
  intros Hlo. unfold offsetAt. rewrite (offsetAtIn_line _ _ _ _ Hlo).
  pose proof (getLineOffsets_offsets text) as [Hinc _].
  unfold clamp. split; [lia|].
  intros next Hnext. rewrite Hnext.
  assert (lo < next) by (apply (Hinc (line p) (line p + 1)); (lia || assumption)).
  lia.
Qed.

(** [offsetAt] keeps the order of positions. *)
Lemma offsetAt_le (text : jsstring) (p q : Position) :
  positionLe p q -> offsetAt p text <= offsetAt q text.
Proof.
  intros Hle.
  pose proof (offsetAt_bounds p text) as Hbp.
  pose proof (offsetAt_bounds q text) as Hbq.
  pose proof (getLineOffsets_offsets text) as [Hinc _].
  set (l := getLineOffsets text) in *.
  destruct (Z.ltb_spec (line p) 0) as [Hp0|Hp0].
  { assert (offsetAt p text = 0); [|lia].
    unfold offsetAt, offsetAtIn. fold l.
    destruct (Z.geb_spec (line p) (Z.of_nat (List.length l))); [lia|].
    destruct (Z.ltb_spec (line p) 0); [reflexivity | lia]. }
  destruct (Z.geb_spec (line q) (Z.of_nat (List.length l))) as [Hqn|Hqn].
  { assert (offsetAt q text = JS.length text); [|lia].
    unfold offsetAt, offsetAtIn. fold l.
    destruct (Z.geb_spec (line q) (Z.of_nat (List.length l))); [reflexivity | lia]. }
  assert (Hpr : 0 <= line p < Z.of_nat (List.length l))
    by (destruct Hle as [H | [H _]]; lia).
  assert (Hqr : 0 <= line q < Z.of_nat (List.length l))
    by (destruct Hle as [H | [H _]]; lia).
  destruct (index_in_range l (line p) Hpr) as [lp Hlp].
  destruct (index_in_range l (line q) Hqr) as [lq Hlq].
  destruct Hle as [Hlt | [Heq Hc]].
  - destruct (offsetAt_line_bounds text p lp Hlp) as [_ Hup].
    destruct (offsetAt_line_bounds text q lq Hlq) as [Hlow _].
    destruct (index_in_range l (line p + 1)) as [next Hnext]; [lia|].
    specialize (Hup next Hnext).
    destruct (Z.eq_dec (line p + 1) (line q)) as [He|He].
    + rewrite He in Hnext. assert (next = lq) by congruence. lia.
    + assert (next < lq)
        by (apply (Hinc (line p + 1) (line q)); (lia || assumption)).
      lia.
  - unfold offsetAt. fold l.
    rewrite (offsetAtIn_line _ _ _ _ Hlp), (offsetAtIn_line _ _ _ _ Hlq).
    rewrite Heq in *. assert (lp = lq) by congruence. subst lq.
    unfold clamp. destruct (index l (line q + 1)); lia.
Qed.

(** X4.  [offsetAt] keeps the order of positions: a position that is
    not after another one, by line and then by character, has an offset
    that is not after the other's.  This holds for every position, also
    with a line or a character outside the text, and both offsets are
    offsets of the text. *)
Theorem offsetAt_monotone (text : jsstring) (p q : Position) :
  positionLe p q ->
  0 <= offsetAt p text <= offsetAt q text /\ offsetAt q text <= JS.length text.
Proof.
  intros Hle. pose proof (offsetAt_le text p q Hle).
  pose proof (offsetAt_bounds p text). pose proof (offsetAt_bounds q text). lia.
Qed.

Lemma offsetAt_monotone_witness :
  0 <= offsetAt {| line := 0; character := 7 |} Samples.twoLines
    <= offsetAt {| line := 1; character := -2 |} Samples.twoLines
  /\ offsetAt {| line := 1; character := -2 |} Samples.twoLines
     <= JS.length Samples.twoLines.
Proof.
  apply (offsetAt_monotone Samples.twoLines
           {| line := 0; character := 7 |} {| line := 1; character := -2 |}).
  left. simpl. lia.
Defined.

End PositionFacts.

(* ===================================================================== *)
(** ** The tree walk, the tags kept and their attributes *)
(* ===================================================================== *)

Module TagFacts.

Import Astro2tsx Utils Shapes StringFacts.

(** Induction on a node through the list of its children. *)
Lemma Node_children_ind (P : Node -> Prop) :
  (forall node, Forall P (children node) -> P node) -> forall node, P node.
Proof.
  intros Hstep. fix IH 1. intros [t s e ste ets a c ch]. apply Hstep.
  cbn [children]. induction ch as [|child ch IHch]; constructor.
  - apply IH.
  - exact IHch.
Qed.

Lemma walk_eq (node : Node) :
  walk node = flat_map walk (children node) ++ [node].
Proof. destruct node. reflexivity. Qed.

Lemma size_eq (node : Node) :
  size node = S (list_sum (List.map size (children node))).
Proof. destruct node. reflexivity. Qed.

Lemma walk_Within (n : Node) : forall m, In n (walk m) -> Within n m.
Proof.
  induction m as [m IH] using Node_children_ind.
  rewrite walk_eq, in_app_iff, in_flat_map. intros [(c & Hc & Hn) | [<- | []]].
  - rewrite Forall_forall in IH. apply (Within_child n c m Hc). now apply IH.
  - apply Within_self.
Qed.

Lemma Within_walk (n m : Node) : Within n m -> In n (walk m).
Proof.
  induction 1 as [|c m Hc _ IH]; rewrite walk_eq, in_app_iff.
  - right. now left.
  - left. apply in_flat_map. now exists c.
Qed.

Lemma walk_length : forall m, List.length (walk m) = size m.
Proof.
  induction m as [m IH] using Node_children_ind.
  rewrite walk_eq, size_eq, length_app. cbn [List.length].
  replace (List.length (flat_map walk (children m)))
    with (list_sum (List.map size (children m))); [lia|].
  induction IH as [|c ch Hc _ IHch]; [reflexivity|].
  cbn [flat_map List.map]. rewrite length_app.
  unfold list_sum in *. cbn [fold_right]. lia.
Qed.

(** X5.  [walk] yields the nodes of the tree of its node, each as often
    as the tree has it: a node is yielded exactly when it is the node or
    below it, the number of nodes yielded is the size of the tree, the
    node itself comes last, and the whole walk of each child comes before
    it, in one piece. *)
Theorem walk_yields_the_tree (m : Node) :
  (forall n, In n (walk m) <-> Within n m)
  /\ List.length (walk m) = size m
  /\ (exists below, walk m = below ++ [m])
  /\ (forall c, In c (children m) ->
        exists before after, walk m = before ++ walk c ++ after ++ [m]).
Proof.
  repeat split.
  - apply walk_Within.
  - apply Within_walk.
  - apply walk_length.
  - exists (flat_map walk (children m)). apply walk_eq.
  - intros c Hc. rewrite walk_eq.
    apply in_split in Hc. destruct Hc as (l1 & l2 & ->).
    exists (flat_map walk l1), (flat_map walk l2).
    rewrite flat_map_app. cbn [flat_map]. now rewrite <- !app_assoc.
Qed.

Lemma filter_nil_existsb {A : Type} (f : A -> bool) (l : list A) :
  filter f l = [] <-> existsb f l = false.
Proof.
  induction l as [|a l IH]; [simpl; tauto|].
  simpl. destruct (f a); simpl; [split; discriminate | exact IH].
Qed.

(** The roots [extractTags] reads. *)
Lemma matchedNodes_cases (parseHtml : jsstring -> HTMLDocument)
  (text : jsstring) (t : TagName) (html : option HTMLDocument) :
  let rootNodes :=
    roots (match html with Some h => h | None => parseHtml text end) in
  (existsb (hasTag t) rootNodes = true \/ t <> style ->
   matchedNodes parseHtml text t html = filter (hasTag t) rootNodes)
  /\ (existsb (hasTag t) rootNodes = false -> t = style ->
      matchedNodes parseHtml text t html
      = match rootNodes with
        | root0 :: _ => filter (hasTag style) (walk root0)
        | [] => []
        end).
Proof.
  intros rootNodes. unfold matchedNodes.
  replace (match html with Some h => roots h | None => roots (parseHtml text) end)
    with rootNodes by (unfold rootNodes; now destruct html).
  split.
  - intros [Hsome | Hstyle].
    + destruct (filter (hasTag t) rootNodes) eqn:Hf.
      * apply filter_nil_existsb in Hf. congruence.
      * now destruct t.
    + destruct t; try reflexivity. contradiction.
  - intros Hnone ->. apply filter_nil_existsb in Hnone. rewrite Hnone.
    now destruct rootNodes.
Qed.

(** X6.  What [extractTags] keeps.  When a root of the document has the
    tag, or the tag is not [style], the tags kept are the roots with the
    tag, in order: a tag nested below a root is not one of them.  Only
    for [style], and only when no root is a style tag, the style tags
    of the tree of the first root are kept, in the order of the walk:
    the trees of the other roots are not visited.  In both cases every
    tag kept has the tag asked for and is in the tree of a root. *)
Theorem extractTags_roots_first (parseHtml : jsstring -> HTMLDocument)
  (text : jsstring) (t : TagName) (html : option HTMLDocument) :
  let rootNodes :=
    roots (match html with Some h => h | None => parseHtml text end) in
  (existsb (hasTag t) rootNodes = true \/ t <> style ->
   extractTags parseHtml text t html
   = List.map (transformToTagInfo text) (filter (hasTag t) rootNodes))
  /\ (existsb (hasTag t) rootNodes = false -> t = style ->
      extractTags parseHtml text t html
      = match rootNodes with
        | root0 :: _ =>
            List.map (transformToTagInfo text) (filter (hasTag style) (walk root0))
        | [] => []
        end)
  /\ (forall info, In info (extractTags parseHtml text t html) ->
        exists node root,
          info = transformToTagInfo text node
          /\ hasTag t node = true
          /\ In root rootNodes /\ Within node root).
Proof.
  intros rootNodes.
  destruct (matchedNodes_cases parseHtml text t html) as [Hroots Hwalk].
  fold rootNodes in Hroots, Hwalk. unfold extractTags.
  split; [|split].
  - intros H. now rewrite (Hroots H).
  - intros Hnone Hstyle. rewrite (Hwalk Hnone Hstyle). now destruct rootNodes.
  - intros info Hin. apply in_map_iff in Hin. destruct Hin as (node & <- & Hnode).
    exists node.
    destruct (existsb (hasTag t) rootNodes) eqn:Hex.
    + rewrite Hroots in Hnode by now left.
      apply filter_In in Hnode. destruct Hnode as [Hroot Htag].
      exists node. repeat split; try assumption. apply Within_self.
    + destruct t.
      1,3: rewrite Hroots in Hnode by (right; discriminate);
        apply filter_In in Hnode; destruct Hnode as [Hroot Htag];
        exists node; repeat split; try assumption; apply Within_self.
      rewrite (Hwalk eq_refl eq_refl) in Hnode.
      destruct rootNodes as [|root0 others]; [contradiction|].
      apply filter_In in Hnode. destruct Hnode as [Hnode Htag].
      exists root0. repeat split; try assumption; [now left|].
      now apply walk_Within.
Qed.





End TagFacts.

(* ===================================================================== *)
(** ** The embedded blocks of a document *)
(* ===================================================================== *)

Module EmbeddedBlockFacts.

Import Astro2tsx Utils EmbeddedBlocks Shapes TagFacts Samples.






End EmbeddedBlockFacts.

(* ===================================================================== *)
(** ** Words, expressions and the frontmatter around an offset *)
(* ===================================================================== *)

Module TextFacts.

Import Astro2tsx JSText DocumentUtils Utils Shapes StringFacts.

(** [slice] and [substring] from the start, and [slice] to the end. *)
Lemma slice_prefix (s : jsstring) (pos : Z) :
  0 <= pos -> slice s 0 pos = firstn (Z.to_nat pos) s.
Proof.
  intros Hpos. unfold slice, sliceIndex, JS.length.
  destruct (Z.ltb_spec pos 0); [lia|]. cbn [Z.ltb Z.compare skipn Z.to_nat].
  replace (Z.min 0 (Z.of_nat (List.length s))) with 0 by lia.
  cbn [Z.to_nat skipn]. rewrite Z.sub_0_r.
  destruct (Z.le_gt_cases pos (Z.of_nat (List.length s))) as [Hle|Hgt].
  - now rewrite Z.min_l by lia.
  - rewrite Z.min_r by lia. rewrite Nat2Z.id.
    now rewrite !firstn_all2 by lia.
Qed.

Lemma sliceFrom_suffix (s : jsstring) (pos : Z) :
  0 <= pos <= JS.length s -> sliceFrom s pos = skipn (Z.to_nat pos) s.
Proof.
  intros Hpos. unfold sliceFrom, slice, sliceIndex, JS.length in *.
  destruct (Z.ltb_spec pos 0); [lia|].
  destruct (Z.ltb_spec (Z.of_nat (List.length s)) 0); [lia|].
  rewrite Z.min_id, Z.min_l by lia.
  apply firstn_all2. rewrite length_skipn. lia.
Qed.

Lemma trimStart_split (s : jsstring) :
  exists blanks,
    s = blanks ++ trimStart s /\ blankOf blanks /\ noSpaceAhead (trimStart s).
Proof.
  induction s as [|c s IH].
  - exists []. repeat split. constructor.
  - cbn [trimStart]. destruct (isSpace c) eqn:Hc.
    + destruct IH as (blanks & Heq & Hblank & Hrest).
      exists (c :: blanks). repeat split.
      * cbn [app]. now rewrite <- Heq.
      * now constructor.
      * exact Hrest.
    + exists []. repeat split; [constructor | exact Hc].
Qed.

(** X8.  [getFirstNonWhitespaceIndex] is the length of the white space
    the string starts with: the string is that white space followed by
    a rest that is empty or starts with another code unit.  For a
    string of white space alone the index is the length of the string. *)
Theorem getFirstNonWhitespaceIndex_counts (str : jsstring) :
  exists blanks rest,
    str = blanks ++ rest
    /\ blankOf blanks
    /\ noSpaceAhead rest
    /\ getFirstNonWhitespaceIndex str = JS.length blanks
    /\ (blankOf str -> getFirstNonWhitespaceIndex str = JS.length str).
Proof.
  destruct (trimStart_split str) as (blanks & Heq & Hblank & Hrest).
  exists blanks, (trimStart str).
  assert (Hlen : JS.length str = JS.length blanks + JS.length (trimStart str)).
  { unfold JS.length. rewrite Heq at 1. rewrite length_app. lia. }
  repeat split; try assumption.
  - unfold getFirstNonWhitespaceIndex. lia.
  - intros Hall. unfold getFirstNonWhitespaceIndex.
    replace (trimStart str) with (@nil code_unit); [unfold JS.length; simpl; lia|].
    clear -Hall. induction Hall as [|c s Hc _ IH]; [reflexivity|].
    cbn [trimStart]. now rewrite Hc.
Qed.

Lemma wordOf_forallb (s : jsstring) :
  forallb (fun c => negb (isSpace c)) s = true <-> wordOf s.
Proof.
  unfold wordOf. rewrite forallb_forall, Forall_forall.
  split; intros H c Hc; specialize (H c Hc); destruct (isSpace c);
    (discriminate || reflexivity).
Qed.

Lemma spaceBehind_cons (c : code_unit) (b : jsstring) :
  b <> [] -> spaceBehind b -> spaceBehind (c :: b).
Proof.
  unfold spaceBehind. cbn [rev]. intros Hne Hb.
  destruct (rev b) as [|x r] eqn:Hr.
  - apply (f_equal (@rev _)) in Hr. rewrite rev_involutive in Hr.
    now subst b.
  - exact Hb.
Qed.

(** What [search] finds for the run of non-space code units that ends
    the string. *)
Lemma searchLastWord_spec (s : jsstring) :
  forall i, 0 <= i ->
    exists b w,
      s = b ++ w /\ wordOf w /\ spaceBehind b
      /\ ((w = [] /\ searchLastWord i s = -1)
          \/ (w <> [] /\ searchLastWord i s = i + JS.length b)).
Proof.
  induction s as [|c s IH]; intros i Hi.
  - exists [], []. repeat split; [constructor | now left].
  - cbn [searchLastWord].
    destruct (forallb (fun c0 => negb (isSpace c0)) (c :: s)) eqn:Hall.
    + exists [], (c :: s). repeat split.
      * now apply wordOf_forallb.
      * right. split; [discriminate | unfold JS.length; simpl; lia].
    + destruct (IH (i + 1)) as (b & w & Heq & Hw & Hb & Hres); [lia|].
      exists (c :: b), w. split; [cbn [app]; now rewrite <- Heq|].
      split; [exact Hw|]. split.
      * destruct b as [|x b'].
        -- cbn [app] in Heq. subst s. unfold spaceBehind. cbn.
           cbn [forallb] in Hall. apply wordOf_forallb in Hw.
           rewrite Hw, andb_true_r in Hall. now destruct (isSpace c).
        -- apply spaceBehind_cons; [discriminate | exact Hb].
      * destruct Hres as [[Hnil Hres] | [Hne Hres]]; [left | right];
          (split; [assumption|]); rewrite Hres; unfold JS.length;
          cbn [List.length]; lia.
Qed.

(** What [search] finds for one white space. *)
Lemma searchSpace_spec (s : jsstring) :
  forall i, 0 <= i ->
    exists w a,
      s = w ++ a /\ wordOf w /\ spaceAhead a
      /\ ((a = [] /\ searchSpace i s = -1)
          \/ (a <> [] /\ searchSpace i s = i + JS.length w)).
Proof.
  induction s as [|c s IH]; intros i Hi.
  - exists [], []. repeat split; [constructor | now left].
  - cbn [searchSpace]. destruct (isSpace c) eqn:Hc.
    + exists [], (c :: s). repeat split; [constructor | exact Hc |].
      right. split; [discriminate | unfold JS.length; simpl; lia].
    + destruct (IH (i + 1)) as (w & a & Heq & Hw & Ha & Hres); [lia|].
      exists (c :: w), a. split; [cbn [app]; now rewrite <- Heq|].
      split; [now constructor|]. split; [exact Ha|].
      destruct Hres as [[Hnil Hres] | [Hne Hres]]; [left | right];
        (split; [assumption|]); rewrite Hres; unfold JS.length;
        cbn [List.length]; lia.
Qed.

(** X9.  With the default expressions, [getWordRangeAt] at a position
    of the string returns the range of the word around it: the string
    is a part before, the word and a part after, where the word has no
    white space, holds the position, and cannot be made longer, since
    the part before is empty or ends with white space and the part
    after is empty or starts with white space.  Between two white
    spaces the word is empty and the range is the position itself. *)
Theorem getWordRangeAt_word (str : jsstring) (pos : Z) :
  0 <= pos <= JS.length str ->
  exists before word after,
    str = before ++ word ++ after
    /\ wordOf word /\ spaceBehind before /\ spaceAhead after
    /\ range_start (getWordRangeAt str pos) = JS.length before
    /\ range_end (getWordRangeAt str pos) = JS.length before + JS.length word
    /\ JS.length before <= pos <= JS.length before + JS.length word.
Proof.
  intros Hpos.
  unfold getWordRangeAt, getWordRangeAtWith, defaultDelimiterRegex.
  cbn [left right range_start range_end].
  rewrite slice_prefix, sliceFrom_suffix by lia.
  destruct (searchLastWord_spec (firstn (Z.to_nat pos) str) 0) as
    (b & w1 & Hbefore & Hw1 & Hb & Hstart); [lia|].
  destruct (searchSpace_spec (skipn (Z.to_nat pos) str) 0) as
    (w2 & a & Hafter & Hw2 & Ha & Hend); [lia|].
  assert (Hlb : JS.length b + JS.length w1 = pos).
  { apply (f_equal (@List.length _)) in Hbefore.
    rewrite length_firstn, length_app in Hbefore.
    unfold JS.length in *. lia. }
  assert (Hla : JS.length w2 + JS.length a = JS.length str - pos).
  { apply (f_equal (@List.length _)) in Hafter.
    rewrite length_skipn, length_app in Hafter.
    unfold JS.length in *. lia. }
  assert (Hnn : forall l : jsstring, 0 <= JS.length l)
    by (intros l; unfold JS.length; lia).
  exists b, (w1 ++ w2), a.
  assert (Hlw : JS.length (w1 ++ w2) = JS.length w1 + JS.length w2)
    by (unfold JS.length; rewrite length_app; lia).
  split.
  { rewrite <- (firstn_skipn (Z.to_nat pos) str) at 1.
    rewrite Hbefore, Hafter. now rewrite <- !app_assoc. }
  split; [apply Forall_app; now split|].
  split; [exact Hb|]. split; [exact Ha|].
  pose proof (Hnn b). pose proof (Hnn w1). pose proof (Hnn w2).
  split; [|split].
  - destruct Hstart as [[Hnil ->] | [_ ->]].
    + subst w1. cbn. unfold JS.length in *. simpl in Hlb. lia.
    + destruct (Z.ltb_spec (0 + JS.length b) 0); lia.
  - destruct Hend as [[Hnil ->] | [_ ->]].
    + subst a. cbn. unfold JS.length in *. simpl in Hla. lia.
    + destruct (Z.ltb_spec (0 + JS.length w2) 0); lia.
  - lia.
Qed.

Lemma getWordRangeAt_word_witness :
  exists before word after,
    lit "ab cd ef" = before ++ word ++ after
    /\ wordOf word /\ spaceBehind before /\ spaceAhead after
    /\ range_start (getWordRangeAt (lit "ab cd ef") 4) = JS.length before
    /\ range_end (getWordRangeAt (lit "ab cd ef") 4)
       = JS.length before + JS.length word
    /\ JS.length before <= 4 <= JS.length before + JS.length word.
Proof.
  apply (getWordRangeAt_word (lit "ab cd ef") 4). vm_compute.
  split; discriminate.
Defined.

(** The last index of a code unit: where the string splits at its last
    occurrence, or [found] when it has none. *)
Lemma lastIndexFrom_spec (c : code_unit) (s : jsstring) :
  forall i found,
    (~ In c s /\ lastIndexFrom c i found s = found)
    \/ (exists a b, s = a ++ c :: b /\ ~ In c b
                    /\ lastIndexFrom c i found s = i + JS.length a).
Proof.
  induction s as [|x s IH]; intros i found.
  - left. split; [intros [] | reflexivity].
  - cbn [lastIndexFrom].
    destruct (IH (i + 1) (if x =? c then i else found))
      as [[Hnot Hres] | (a & b & Heq & Hnot & Hres)].
    + destruct (Z.eqb_spec x c) as [->|Hne].
      * right. exists [], s. repeat split; [exact Hnot|].
        rewrite Hres. unfold JS.length. simpl. lia.
      * left. split; [|exact Hres]. intros [H|H]; [congruence | contradiction].
    + right. exists (x :: a), b. split; [cbn [app]; now rewrite <- Heq|].
      split; [exact Hnot|]. rewrite Hres. unfold JS.length.
      cbn [List.length]. lia.
Qed.

(** Two ways to split one string at a code unit: the shorter front is a
    front of the longer one. *)
Lemma split_twice (a b a' b' : jsstring) (x y : code_unit) :
  a ++ x :: b = a' ++ y :: b' ->
  (a = a' /\ x = y /\ b = b')
  \/ (exists l, a = a' ++ y :: l /\ b' = l ++ x :: b)
  \/ (exists l, a' = a ++ x :: l /\ b = l ++ y :: b').
Proof.
  intros Heq. apply app_eq_app in Heq.
  destruct Heq as [l [[Ha Hb] | [Ha Hb]]].
  - destruct l as [|z l].
    + left. rewrite app_nil_r in Ha. cbn [app] in Hb.
      injection Hb as <- <-. auto.
    + right. left. cbn [app] in Hb. injection Hb as <- ->.
      now exists l.
  - destruct l as [|z l].
    + left. rewrite app_nil_r in Ha. cbn [app] in Hb.
      injection Hb as <- <-. auto.
    + right. right. cbn [app] in Hb. injection Hb as <- ->.
      now exists l.
Qed.

(** X10.  [isInsideExpression] is true exactly when the text between
    the start of the tag and the position has an opening brace with no
    closing brace after it.  A closing brace alone, or no brace at all,
    gives false. *)
Theorem isInsideExpression_open_brace
  (html : jsstring) (tagStart position : Z) :
  isInsideExpression html tagStart position = true
  <-> exists a b,
        substring html tagStart position = a ++ LBRACE :: b
        /\ ~ In RBRACE b.
Proof.
  unfold isInsideExpression, lastIndexOf.
  set (s := substring html tagStart position).
  assert (Hnn : forall l : jsstring, 0 <= JS.length l)
    by (intros l; unfold JS.length; lia).
  assert (Hne : LBRACE <> RBRACE) by discriminate.
  assert (Hlen : forall (l1 l2 : jsstring) (x : code_unit),
             JS.length (l1 ++ x :: l2) = JS.length l1 + 1 + JS.length l2).
  { intros l1 l2 x. unfold JS.length. rewrite length_app. cbn [List.length]. lia. }
  rewrite Z.gtb_ltb, Z.ltb_lt.
  destruct (lastIndexFrom_spec LBRACE s 0 (-1))
    as [[Hno ->] | (a & b & Hs & Hnob & ->)];
    destruct (lastIndexFrom_spec RBRACE s 0 (-1))
      as [[Hno' ->] | (a' & b' & Hs' & Hnob' & ->)].
  - split; [lia|]. intros (a0 & b0 & Hs0 & _). exfalso. apply Hno.
    rewrite Hs0. apply in_elt.
  - split; [pose proof (Hnn a'); lia|].
    intros (a0 & b0 & Hs0 & _). exfalso. apply Hno.
    rewrite Hs0. apply in_elt.
  - split; [|pose proof (Hnn a); lia]. intros _. exists a, b.
    split; [exact Hs|]. intros Hin. apply Hno'. rewrite Hs.
    apply in_or_app. right. now right.
  - split.
    + intros Hlt. exists a, b. split; [exact Hs|]. intros Hin.
      rewrite Hs in Hs'.
      destruct (split_twice _ _ _ _ _ _ Hs')
        as [(_ & Hxy & _) | [(l & Ha & Hb) | (l & Ha & Hb)]].
      * contradiction.
      * apply Hnob'. rewrite Hb. apply in_or_app. right. now right.
      * rewrite Ha, Hlen in Hlt. pose proof (Hnn a). pose proof (Hnn l). lia.
    + intros (a0 & b0 & Hs0 & Hnob0).
      assert (Hfront : JS.length a0 <= JS.length a).
      { rewrite Hs in Hs0.
        destruct (split_twice _ _ _ _ _ _ Hs0)
          as [(-> & _ & _) | [(l & Ha & Hb) | (l & Ha & Hb)]].
        - lia.
        - rewrite Ha, Hlen. pose proof (Hnn a0). pose proof (Hnn l). lia.
        - exfalso. apply Hnob. rewrite Hb. apply in_elt. }
      assert (Hback : JS.length a' < JS.length a0).
      { rewrite Hs0 in Hs'.
        destruct (split_twice _ _ _ _ _ _ Hs')
          as [(_ & Hxy & _) | [(l & Ha & Hb) | (l & Ha & Hb)]].
        - contradiction.
        - rewrite Ha, Hlen. pose proof (Hnn a'). pose proof (Hnn l). lia.
        - exfalso. apply Hnob0. rewrite Hb. apply in_elt. }
      lia.
Qed.

(** The steps of [split] and of [replace] at a code unit: a fence at
    the head, or not. *)
Lemma isFence_prefix (a b c : code_unit) (s : jsstring) :
  isFence a b c = isPrefix fence (a :: b :: c :: s).
Proof.
  unfold isFence, fence. cbn [isPrefix].
  rewrite (Z.eqb_sym a), (Z.eqb_sym b), (Z.eqb_sym c), andb_true_r.
  apply eq_sym, andb_assoc.
Qed.

Lemma isPrefix_fence_short (s : jsstring) :
  (List.length s < 3)%nat -> isPrefix fence s = false.
Proof.
  destruct s as [|a [|b [|c s]]]; unfold fence; cbn [isPrefix List.length];
    intros H; try lia; rewrite ?andb_false_r; reflexivity.
Qed.

Lemma splitFences_step (piece : jsstring) (a : code_unit) (s : jsstring) :
  splitFences piece (a :: s)
  = if isPrefix fence (a :: s) then piece :: splitFences [] (skipn 2 s)
    else splitFences (piece ++ [a]) s.
Proof.
  destruct s as [|b [|c s]].
  - rewrite isPrefix_fence_short by (simpl; lia). reflexivity.
  - rewrite isPrefix_fence_short by (simpl; lia). reflexivity.
  - cbn [splitFences skipn]. now rewrite (isFence_prefix a b c s).
Qed.

Lemma hasFence_cons (a : code_unit) (s : jsstring) :
  hasFence (a :: s) = isPrefix fence (a :: s) || hasFence s.
Proof. reflexivity. Qed.

Lemma hasFence_nil : hasFence [] = false.
Proof. reflexivity. Qed.

(** A front that has no fence before the fence that follows it. *)
Lemma isPrefix_fence_front (x : code_unit) (a b : jsstring) :
  isPrefix fence (x :: a ++ [DASH; DASH]) = false ->
  isPrefix fence (x :: a ++ fence ++ b) = false.
Proof.
  destruct a as [|y [|z a]]; unfold fence; cbn [isPrefix app];
    rewrite ?andb_true_r; auto.
Qed.

Lemma splitFences_no_fence (s : jsstring) :
  forall piece, hasFence s = false -> splitFences piece s = [piece ++ s].
Proof.
  induction s as [|a s IH]; intros piece Hno.
  - cbn. now rewrite app_nil_r.
  - rewrite hasFence_cons in Hno. apply orb_false_iff in Hno.
    destruct Hno as [Hhead Hrest].
    rewrite splitFences_step, Hhead, IH by exact Hrest.
    now rewrite <- app_assoc.
Qed.

Lemma splitFences_first_fence (a : jsstring) :
  forall piece b,
    hasFence (a ++ [DASH; DASH]) = false ->
    splitFences piece (a ++ fence ++ b) = (piece ++ a) :: splitFences [] b.
Proof.
  induction a as [|x a IH]; intros piece b Hno.
  - rewrite app_nil_r. change ([] ++ fence ++ b) with (DASH :: DASH :: DASH :: b).
    rewrite splitFences_step. reflexivity.
  - cbn [app] in Hno. rewrite hasFence_cons in Hno.
    apply orb_false_iff in Hno. destruct Hno as [Hhead Hrest].
    cbn [app]. rewrite splitFences_step.
    rewrite (isPrefix_fence_front x a b Hhead).
    rewrite IH by exact Hrest. now rewrite <- app_assoc.
Qed.

(** A string has no fence, or a first one. *)
Lemma first_fence (s : jsstring) :
  hasFence s = false
  \/ exists a b, s = a ++ fence ++ b /\ hasFence (a ++ [DASH; DASH]) = false.
Proof.
  induction s as [|x s IH]; [now left|].
  destruct (isPrefix fence (x :: s)) eqn:Hhead.
  - right. exists [].
    destruct s as [|y [|z s]];
      try (rewrite isPrefix_fence_short in Hhead by (simpl; lia);
           discriminate Hhead).
    unfold fence in Hhead. cbn [isPrefix] in Hhead.
    apply andb_prop in Hhead. destruct Hhead as [Hx Hhead].
    apply andb_prop in Hhead. destruct Hhead as [Hy Hhead].
    apply andb_prop in Hhead. destruct Hhead as [Hz _].
    apply Z.eqb_eq in Hx, Hy, Hz. subst x y z.
    exists s. split; reflexivity.
  - destruct IH as [Hno | (a & b & Heq & Hfront)].
    + left. now rewrite hasFence_cons, Hhead, Hno.
    + right. exists (x :: a), b. split; [cbn [app]; now rewrite <- Heq|].
      cbn [app]. rewrite hasFence_cons, Hfront, orb_false_r.
      destruct (isPrefix fence (x :: a ++ [DASH; DASH])) eqn:Hfence;
        [|reflexivity].
      rewrite Heq in Hhead. rewrite <- Hhead. clear -Hfence.
      destruct a as [|y [|z a]]; unfold fence in *; cbn [isPrefix app] in *;
        rewrite ?andb_true_r in *; auto.
Qed.

Lemma splitFences_not_empty (s : jsstring) :
  forall piece, (1 <= List.length (splitFences piece s))%nat.
Proof.
  intros piece. destruct (first_fence s) as [Hno | (a & b & -> & Hfront)].
  - rewrite splitFences_no_fence by exact Hno. simpl. lia.
  - rewrite splitFences_first_fence by exact Hfront. simpl. lia.
Qed.

(** Two pieces: one fence, and no other after it. *)
Lemma splitFences_two (s : jsstring) :
  List.length (splitFences [] s) = 2%nat
  <-> exists a b,
        s = a ++ fence ++ b
        /\ hasFence (a ++ [DASH; DASH]) = false /\ hasFence b = false.
Proof.
  split.
  - intros Hlen. destruct (first_fence s) as [Hno | (a & b & -> & Hfront)].
    + rewrite splitFences_no_fence in Hlen by exact Hno. discriminate Hlen.
    + exists a, b. repeat split; [exact Hfront|].
      rewrite splitFences_first_fence in Hlen by exact Hfront.
      destruct (first_fence b) as [Hno | (a' & b' & -> & Hfront')];
        [exact Hno|].
      rewrite splitFences_first_fence in Hlen by exact Hfront'.
      pose proof (splitFences_not_empty b' []). simpl in Hlen. lia.
  - intros (a & b & -> & Hfront & Hno).
    rewrite splitFences_first_fence by exact Hfront.
    now rewrite splitFences_no_fence by exact Hno.
Qed.

(** X11.  [isInsideFrontmatter] looks at the text before the offset
    only: it is true exactly when that text, without the white space
    around it, has one triple dash and no second one after it.  The
    text after the offset is split as well, but the test on it always
    succeeds, so a frontmatter that is never closed counts as one, and
    so does every offset after a single triple dash anywhere in the
    text. *)
Theorem isInsideFrontmatter_one_fence_before (text : jsstring) (offset : Z) :
  0 <= offset ->
  isInsideFrontmatter text offset = true
  <-> exists a b,
        trim (firstn (Z.to_nat offset) text) = a ++ fence ++ b
        /\ hasFence (a ++ [DASH; DASH]) = false /\ hasFence b = false.
Proof.
  intros Hoffset. rewrite <- splitFences_two.
  unfold isInsideFrontmatter. rewrite slice_prefix by exact Hoffset.
  pose proof (splitFences_not_empty (trim (sliceFrom text offset)) []) as Hend.
  set (start := List.length (splitFences [] (trim (firstn (Z.to_nat offset) text)))).
  destruct (Z.geb_spec
              (Z.of_nat (List.length (splitFences [] (trim (sliceFrom text offset)))))
              1) as [_|Hlt]; [|lia].
  rewrite andb_true_r, andb_true_iff, Z.gtb_ltb, !Z.ltb_lt. lia.
Qed.

Lemma isInsideFrontmatter_one_fence_before_witness :
  isInsideFrontmatter MoreSamples.page 9 = true
  <-> exists a b,
        trim (firstn (Z.to_nat 9) MoreSamples.page) = a ++ fence ++ b
        /\ hasFence (a ++ [DASH; DASH]) = false /\ hasFence b = false.
Proof.
  apply (isInsideFrontmatter_one_fence_before MoreSamples.page 9). lia.
Defined.

Section StartTags.

Variable findNodeAt : HTMLDocument -> Z -> Node.
Variable toLowerCase : jsstring -> jsstring.

(** X12.  When lower-casing changes the letters A to Z, an offset is
    never both in the start tag of an HTML element and in the start tag
    of a component; in both cases the node is the one [findNodeAt]
    finds, its tag is not empty, and the offset is before the end of
    its start tag, or the node has no such end, or the end is 0. *)
Theorem start_tag_of_one_kind (html : HTMLDocument) (offset : Z) :
  (forall c, 65 <= c <= 90 -> toLowerCase [c] <> [c]) ->
  (forall node,
      getNodeIfIsInHTMLStartTag findNodeAt toLowerCase html offset = Some node ->
      node = findNodeAt html offset
      /\ isInComponentStartTag findNodeAt html offset = false
      /\ beforeStartTagEnd node offset = true
      /\ exists tag0 rest, tag node = Some (tag0 :: rest))
  /\ (isInComponentStartTag findNodeAt html offset = true ->
      getNodeIfIsInHTMLStartTag findNodeAt toLowerCase html offset = None
      /\ beforeStartTagEnd (findNodeAt html offset) offset = true
      /\ exists tag0 rest, tag (findNodeAt html offset) = Some (tag0 :: rest)).
Proof.
  intros Hlower.
  unfold getNodeIfIsInHTMLStartTag, isInComponentStartTag, isComponentTag.
  destruct (tag (findNodeAt html offset)) as [[|tag0 rest]|] eqn:Htag.
  1,3: split; [intros node H; discriminate H | intros H; discriminate H].
  destruct (JS.eqb [tag0] (toLowerCase [tag0])) eqn:Heq.
  - apply eqb_eq in Heq.
    assert (Hcomponent : (65 <=? tag0) && (tag0 <=? 90) = false).
    { destruct (Z.leb_spec 65 tag0); [|reflexivity].
      destruct (Z.leb_spec tag0 90); [|reflexivity].
      exfalso. apply (Hlower tag0); [lia | symmetry; exact Heq]. }
    rewrite Hcomponent. cbn [andb].
    split; [|intros H; discriminate H].
    destruct (beforeStartTagEnd (findNodeAt html offset) offset) eqn:Hb;
      [|intros node H; discriminate H].
    intros node H. injection H as <-. repeat split; try assumption.
    now exists tag0, rest.
  - cbn [andb]. split; [intros node H; discriminate H|].
    intros H. apply andb_prop in H. destruct H as [_ Hb].
    repeat split; [exact Hb|]. now exists tag0, rest.
Qed.

End StartTags.

Lemma start_tag_of_one_kind_witness :
  (forall node,
      getNodeIfIsInHTMLStartTag MoreSamples.findNodeAt MoreSamples.asciiLower
        {| roots := [MoreSamples.cardNode; MoreSamples.divNode] |} 3 = Some node ->
      node = MoreSamples.findNodeAt
               {| roots := [MoreSamples.cardNode; MoreSamples.divNode] |} 3
      /\ isInComponentStartTag MoreSamples.findNodeAt
           {| roots := [MoreSamples.cardNode; MoreSamples.divNode] |} 3 = false
      /\ beforeStartTagEnd node 3 = true
      /\ exists tag0 rest, tag node = Some (tag0 :: rest))
  /\ (isInComponentStartTag MoreSamples.findNodeAt
        {| roots := [MoreSamples.cardNode; MoreSamples.divNode] |} 3 = true ->
      getNodeIfIsInHTMLStartTag MoreSamples.findNodeAt MoreSamples.asciiLower
        {| roots := [MoreSamples.cardNode; MoreSamples.divNode] |} 3 = None
      /\ beforeStartTagEnd
           (MoreSamples.findNodeAt
              {| roots := [MoreSamples.cardNode; MoreSamples.divNode] |} 3) 3
         = true
      /\ exists tag0 rest,
           tag (MoreSamples.findNodeAt
                  {| roots := [MoreSamples.cardNode; MoreSamples.divNode] |} 3)
           = Some (tag0 :: rest)).
Proof.
  apply (start_tag_of_one_kind MoreSamples.findNodeAt MoreSamples.asciiLower
           {| roots := [MoreSamples.cardNode; MoreSamples.divNode] |} 3).
  intros c Hc. unfold MoreSamples.asciiLower. cbn [List.map].
  destruct (Z.leb_spec 65 c); [|lia]. destruct (Z.leb_spec c 90); [|lia].
  cbn [andb]. intros Hsame. injection Hsame as Hsame. lia.
Defined.

End TextFacts.

(* ===================================================================== *)
(** ** The document snapshots *)
(* ===================================================================== *)

Module SnapshotFacts.

Import Astro2tsx JSText Utils Snapshots Shapes StringFacts UtilsFacts.
Import PositionFacts TextFacts.

Lemma isPrefix_fence_true (s : jsstring) :
  isPrefix fence s = true -> exists rest, s = DASH :: DASH :: DASH :: rest.
Proof.
  intros Hhead.
  destruct s as [|x [|y [|z s]]];
    try (rewrite isPrefix_fence_short in Hhead by (simpl; lia);
         discriminate Hhead).
  unfold fence in Hhead. cbn [isPrefix] in Hhead.
  apply andb_prop in Hhead. destruct Hhead as [Hx Hhead].
  apply andb_prop in Hhead. destruct Hhead as [Hy Hhead].
  apply andb_prop in Hhead. destruct Hhead as [Hz _].
  apply Z.eqb_eq in Hx, Hy, Hz. subst x y z. now exists s.
Qed.

Lemma commentFences_step (a : code_unit) (s : jsstring) :
  commentFences (a :: s)
  = if isPrefix fence (a :: s)
    then [SLASH; SLASH; SLASH] ++ commentFences (skipn 2 s)
    else a :: commentFences s.
Proof.
  destruct s as [|b [|c s]].
  - rewrite isPrefix_fence_short by (simpl; lia). reflexivity.
  - rewrite isPrefix_fence_short by (simpl; lia). reflexivity.
  - cbn [commentFences skipn]. now rewrite (isFence_prefix a b c s).
Qed.

Lemma commentFences_fence (rest : jsstring) :
  commentFences (DASH :: DASH :: DASH :: rest)
  = SLASH :: SLASH :: SLASH :: commentFences rest.
Proof. reflexivity. Qed.

(** The code units of the result, one for one: the same, or a slash for
    a dash. *)
Lemma commentFences_units (n : nat) :
  forall s, (List.length s <= n)%nat ->
    Forall2 (fun c c' => c' = c \/ (c = DASH /\ c' = SLASH)) s (commentFences s).
Proof.
  induction n as [|n IH]; intros s Hn.
  - destruct s; [constructor | simpl in Hn; lia].
  - destruct s as [|a s]; [constructor|].
    destruct (isPrefix fence (a :: s)) eqn:Hhead.
    + destruct (isPrefix_fence_true _ Hhead) as (rest & Heq).
      rewrite Heq, commentFences_fence.
      assert (Hlen : (List.length rest <= n)%nat)
        by (rewrite Heq in Hn; simpl in Hn; lia).
      repeat (constructor; [right; split; reflexivity|]).
      now apply IH.
    + rewrite commentFences_step, Hhead. constructor; [now left|].
      apply IH. simpl in Hn. lia.
Qed.

(** A dash at the head of the result was at the head of the string. *)
Lemma commentFences_dash (s : jsstring) :
  isPrefix [DASH] (commentFences s) = true -> isPrefix [DASH] s = true.
Proof.
  destruct s as [|a s]; [intros H; exact H|].
  rewrite commentFences_step. destruct (isPrefix fence (a :: s)).
  - intros H. discriminate H.
  - intros H. exact H.
Qed.

Lemma commentFences_two_dashes (s : jsstring) :
  isPrefix [DASH; DASH] (commentFences s) = true ->
  isPrefix [DASH; DASH] s = true.
Proof.
  destruct s as [|a s]; [intros H; exact H|].
  rewrite commentFences_step. destruct (isPrefix fence (a :: s)).
  - intros H. discriminate H.
  - cbn [isPrefix]. intros H. apply andb_prop in H. destruct H as [Ha H].
    rewrite Ha. cbn [andb]. now apply commentFences_dash.
Qed.

Lemma commentFences_no_fence (n : nat) :
  forall s, (List.length s <= n)%nat -> hasFence (commentFences s) = false.
Proof.
  induction n as [|n IH]; intros s Hn.
  - destruct s; [reflexivity | simpl in Hn; lia].
  - destruct s as [|a s]; [reflexivity|].
    destruct (isPrefix fence (a :: s)) eqn:Hhead.
    + destruct (isPrefix_fence_true _ Hhead) as (rest & Heq).
      rewrite Heq, commentFences_fence.
      assert (Hlen : (List.length rest <= n)%nat)
        by (rewrite Heq in Hn; simpl in Hn; lia).
      rewrite !hasFence_cons. rewrite (IH rest Hlen).
      destruct (commentFences rest) as [|x [|y r]]; reflexivity.
    + rewrite commentFences_step, Hhead, hasFence_cons.
      rewrite IH by (simpl in Hn; lia). rewrite orb_false_r.
      destruct (isPrefix fence (a :: commentFences s)) eqn:Hfence;
        [|reflexivity].
      unfold fence in Hfence. cbn [isPrefix] in Hfence.
      apply andb_prop in Hfence. destruct Hfence as [Ha Hrest].
      assert (Htwo : isPrefix [DASH; DASH] (commentFences s) = true)
        by exact Hrest.
      apply commentFences_two_dashes in Htwo.
      rewrite <- Hhead. unfold fence. cbn [isPrefix]. rewrite Ha.
      symmetry. exact Htwo.
Qed.

Lemma commentFences_fixed (s : jsstring) :
  hasFence s = false -> commentFences s = s.
Proof.
  induction s as [|a s IH]; [reflexivity|].
  rewrite hasFence_cons. intros Hno. apply orb_false_iff in Hno.
  destruct Hno as [Hhead Hrest].
  now rewrite commentFences_step, Hhead, IH.
Qed.

(** X13.  Replacing the triple dashes by triple slashes, as the
    snapshots do with the text of a document, keeps every code unit in
    its place: the result has the length of the text and differs from it
    only where a dash became a slash.  No triple dash is left in the
    result, a text without one is returned as it is, and replacing
    twice is replacing once. *)
Theorem commentFences_in_place (s : jsstring) :
  Forall2 (fun c c' => c' = c \/ (c = DASH /\ c' = SLASH)) s (commentFences s)
  /\ JS.length (commentFences s) = JS.length s
  /\ hasFence (commentFences s) = false
  /\ (hasFence s = false -> commentFences s = s)
  /\ commentFences (commentFences s) = commentFences s.
Proof.
  pose proof (commentFences_units (List.length s) s (le_n _)) as Hunits.
  pose proof (commentFences_no_fence (List.length s) s (le_n _)) as Hno.
  repeat split.
  - exact Hunits.
  - unfold JS.length. now rewrite (Forall2_length Hunits).
  - exact Hno.
  - apply commentFences_fixed.
  - now apply commentFences_fixed.
Qed.

(** The loop of [getLineOffsets] reads of a code unit only whether it
    is a carriage return or a line feed. *)
Lemma lineOffsetsFrom_breaks (n : nat) :
  forall s t len i b,
    (List.length s <= n)%nat ->
    Forall2 (fun c c' => (c =? CR) = (c' =? CR) /\ (c =? LF) = (c' =? LF)) s t ->
    lineOffsetsFrom len i b s = lineOffsetsFrom len i b t.
Proof.
  induction n as [|n IH]; intros s t len i b Hn Hst.
  - destruct s; [|simpl in Hn; lia]. inversion Hst. reflexivity.
  - destruct Hst as [|ch ch2 rest rest2 [Hcr Hlf] Hrest]; [reflexivity|].
    simpl in Hn. cbn [lineOffsetsFrom]. rewrite <- Hcr, <- Hlf.
    destruct (ch =? CR).
    + destruct Hrest as [|ch' ch2' rest' rest2' [Hcr' Hlf'] Hrest'].
      * reflexivity.
      * rewrite <- Hlf'. simpl in Hn.
        destruct (ch' =? LF) eqn:Hch'; f_equal.
        -- apply IH; [lia | exact Hrest'].
        -- apply IH; [simpl; lia|]. constructor; [|exact Hrest'].
           split; [exact Hcr' | rewrite Hch'; exact Hlf'].
    + f_equal. apply IH; [lia | exact Hrest].
Qed.

Lemma commentFences_lines (s : jsstring) :
  JS.length (commentFences s) = JS.length s
  /\ getLineOffsets (commentFences s) = getLineOffsets s.
Proof.
  pose proof (commentFences_units (List.length s) s (le_n _)) as Hunits.
  assert (Hlen : JS.length (commentFences s) = JS.length s)
    by (unfold JS.length; now rewrite (Forall2_length Hunits)).
  split; [exact Hlen|].
  unfold getLineOffsets. rewrite Hlen. symmetry.
  apply (lineOffsetsFrom_breaks (List.length s) s (commentFences s));
    [apply le_n|].
  eapply Forall2_impl; [|exact Hunits].
  intros c c' [-> | [-> ->]]; split; reflexivity.
Qed.

(** X14.  Replacing the triple dashes moves no line: the replaced text
    has the line offsets of the text it was made from, so [positionAt]
    and [offsetAt] answer for the one as for the other. *)
Theorem commentFences_keeps_positions (s : jsstring) :
  getLineOffsets (commentFences s) = getLineOffsets s
  /\ (forall offset, positionAt offset (commentFences s) = positionAt offset s)
  /\ (forall position, offsetAt position (commentFences s) = offsetAt position s).
Proof.
  destruct (commentFences_lines s) as [Hlen Hlines].
  split; [exact Hlines|]. split.
  - intros offset. unfold positionAt, positionAtIn. now rewrite Hlines, Hlen.
  - intros position. unfold offsetAt, offsetAtIn. now rewrite Hlines, Hlen.
Qed.

(** The text of a snapshot: the replaced text of the document, then the
    definitions. *)
Lemma replaced_then_more (content more : jsstring) (o : Z) :
  0 <= o < JS.length content ->
  positionAt o (commentFences content ++ more) = positionAt o content
  /\ forall p, positionAt o content = Some p ->
               offsetAt p (commentFences content ++ more) = o.
Proof.
  intros Ho. destruct (commentFences_lines content) as [Hlen Hlines].
  destruct (positionAt_prefix (commentFences content) more o) as [Hpos Hoff];
    [lia|].
  assert (Hsame : positionAt o (commentFences content) = positionAt o content)
    by (unfold positionAt, positionAtIn; now rewrite Hlines, Hlen).
  split; [now rewrite Hpos|].
  intros p Hp. destruct Hoff as (q & Hq & Hoff).
  rewrite Hsame in Hq. assert (q = p) by congruence. now subst q.
Qed.

(** X15.  The snapshots keep the positions of the document: for an
    offset of the document before its end, [positionAt] on the text of
    the Astro snapshot, and on the text of the fragment snapshot, is
    [positionAt] on the document, and [offsetAt] takes that position
    back to the offset on the text of either snapshot.  Neither the
    replaced dashes nor the definitions added after the document move a
    position of the document, whatever the definitions start with. *)
Theorem snapshot_keeps_document_positions
  (definitions content : jsstring) (o : Z) :
  0 <= o < JS.length content ->
  positionAt o (transformContent definitions content) = positionAt o content
  /\ positionAt o (fragmentTransformContent definitions content)
     = positionAt o content
  /\ exists p,
       positionAt o content = Some p
       /\ offsetAt p (transformContent definitions content) = o
       /\ offsetAt p (fragmentTransformContent definitions content) = o.
Proof.
  intros Ho. unfold transformContent, fragmentTransformContent.
  destruct (replaced_then_more content
              (addProps (commentFences content) definitions) o Ho)
    as [Hastro Hback].
  destruct (replaced_then_more content definitions o Ho) as [Hfragment Hback'].
  split; [exact Hastro|]. split; [exact Hfragment|].
  destruct (positionAt_offsetAt o content) as (p & Hp & _).
  exists p. split; [exact Hp|]. split; [now apply Hback | now apply Hback'].
Qed.

Lemma snapshot_keeps_document_positions_witness :
  positionAt 5 (transformContent (lit "declare const x: any;") MoreSamples.page)
  = positionAt 5 MoreSamples.page
  /\ positionAt 5
       (fragmentTransformContent (lit "declare const x: any;") MoreSamples.page)
     = positionAt 5 MoreSamples.page
  /\ exists p,
       positionAt 5 MoreSamples.page = Some p
       /\ offsetAt p
            (transformContent (lit "declare const x: any;") MoreSamples.page) = 5
       /\ offsetAt p
            (fragmentTransformContent (lit "declare const x: any;")
               MoreSamples.page) = 5.
Proof.
  apply (snapshot_keeps_document_positions (lit "declare const x: any;")
           MoreSamples.page 5).
  vm_compute. split; [discriminate | reflexivity].
Defined.

Lemma splitLines_not_empty (s : jsstring) :
  forall piece, splitLines piece s <> [].
Proof.
  induction s as [|c s IH]; intros piece; cbn [splitLines].
  - discriminate.
  - destruct (c =? LF); [discriminate | apply IH].
Qed.

Lemma last_cons {A : Type} (a d : A) (l : list A) :
  l <> [] -> last (a :: l) d = last l d.
Proof. destruct l; [contradiction | reflexivity]. Qed.

(** The last chunk of [split]: what follows the last line feed. *)
Lemma splitLines_last (s : jsstring) :
  forall piece,
    ~ In LF piece ->
    exists before,
      piece ++ s = before ++ last (splitLines piece s) []
      /\ ~ In LF (last (splitLines piece s) [])
      /\ (before = [] \/ exists front, before = front ++ [LF]).
Proof.
  induction s as [|c s IH]; intros piece Hpiece; cbn [splitLines].
  - exists []. cbn [last app]. rewrite app_nil_r. repeat split; auto.
  - destruct (Z.eqb_spec c LF) as [->|Hne].
    + destruct (IH [] (fun H => H)) as (before & Heq & Hno & Hends).
      rewrite last_cons by apply splitLines_not_empty.
      exists (piece ++ [LF] ++ before). cbn [app] in Heq.
      split; [rewrite <- !app_assoc; cbn [app]; now rewrite <- Heq|].
      split; [exact Hno|]. right.
      destruct Hends as [-> | (front & ->)].
      * exists piece. now rewrite app_nil_r.
      * exists (piece ++ [LF] ++ front). now rewrite <- !app_assoc.
    + destruct (IH (piece ++ [c])) as (before & Heq & Hno & Hends).
      * rewrite in_app_iff. intros [H | [H | []]]; [contradiction | congruence].
      * exists before. rewrite <- app_assoc in Heq. now repeat split.
Qed.

(** X16.  [getLineContainingOffset] returns the line that holds the
    offset, from its start up to the offset: the text before the offset
    is a part that is empty or ends with a line feed, followed by the
    result, and the result has no line feed in it.  A carriage return
    does not end the line here. *)
Theorem getLineContainingOffset_line (text : jsstring) (offset : Z) :
  exists before,
    substring text 0 offset = before ++ getLineContainingOffset text offset
    /\ ~ In LF (getLineContainingOffset text offset)
    /\ (before = [] \/ exists front, before = front ++ [LF]).
Proof.
  unfold getLineContainingOffset.
  destruct (splitLines_last (substring text 0 offset) [] (fun H => H))
    as (before & Heq & Hno & Hends).
  exists before. now repeat split.
Qed.

Lemma applyChange_whole (text t : jsstring) :
  applyChange text {| change_range := None; change_text := t |} = t.
Proof.
  unfold applyChange. cbn [change_range change_text].
  assert (Hlen : 0 <= JS.length text) by (unfold JS.length; lia).
  rewrite slice_prefix, sliceFrom_suffix by lia.
  cbn [Z.to_nat firstn app]. unfold JS.length. rewrite Nat2Z.id.
  now rewrite skipn_all, app_nil_r.
Qed.

Lemma increment_exact (v : Z) :
  - TWO_53 <= v < TWO_53 -> increment v = v + 1.
Proof.
  intros Hv. unfold increment, roundToDouble.
  destruct (Z.leb_spec (Z.abs (v + 1)) TWO_53) as [_|Hbig]; [reflexivity|].
  unfold TWO_53 in *. lia.
Qed.

(** X17.  [update] with a change that has no range replaces the whole
    text: what the snapshot held and the changes before it play no
    part, and the changes after it are applied to the text of the
    change.  The version is incremented once for the whole list of
    changes, also when the list is empty: it grows by one as long as it
    is below 2^53 in size, as it is for the snapshots the sources make,
    which start at 0; at 2^53 the increment of a double gives 2^53
    again and the version stays there. *)
Theorem update_whole_text (snapshot : TypeScriptDocumentSnapshot)
  (before after : list TextDocumentContentChangeEvent) (t : jsstring) :
  let whole := {| change_range := None; change_text := t |} in
  text (update snapshot (before ++ whole :: after))
  = fold_left applyChange after t
  /\ text (update snapshot (before ++ [whole])) = t
  /\ (forall changes,
        version (update snapshot changes) = increment (version snapshot))
  /\ (- TWO_53 <= version snapshot < TWO_53 ->
      forall changes,
        version (update snapshot changes) = version snapshot + 1)
  /\ (version snapshot = TWO_53 ->
      forall changes, version (update snapshot changes) = TWO_53)
  /\ update snapshot []
     = {| version := increment (version snapshot); text := text snapshot |}.
Proof.
  cbn zeta. unfold update. cbn [text version].
  rewrite !fold_left_app. cbn [fold_left]. rewrite !applyChange_whole.
  repeat split.
  - intros Hsafe changes. now apply increment_exact.
  - intros -> changes. vm_compute. reflexivity.
Qed.

(** X18.  [update] with a change that has a range: the two positions
    are taken to offsets of the text, whatever they are, and the new
    text is the text before the first offset, the text of the change
    and the text from the second offset on.  When the start of the
    range is not after its end, neither is the first offset after the
    second: the change replaces the text between them and moves the
    length by the difference. *)
Theorem update_range (old : jsstring) (range_start range_end : Position)
  (t : jsstring) :
  let change := {| change_range := Some (range_start, range_end);
                   change_text := t |} in
  let start := offsetAt range_start old in
  let end_ := offsetAt range_end old in
  applyChange old change
  = firstn (Z.to_nat start) old ++ t ++ skipn (Z.to_nat end_) old
  /\ 0 <= start <= JS.length old /\ 0 <= end_ <= JS.length old
  /\ JS.length (applyChange old change)
     = start + JS.length t + (JS.length old - end_)
  /\ (positionLe range_start range_end ->
      start <= end_
      /\ old = firstn (Z.to_nat start) old
               ++ substring old start end_ ++ skipn (Z.to_nat end_) old).
Proof.
  cbn zeta.
  pose proof (offsetAt_bounds range_start old) as Hs.
  pose proof (offsetAt_bounds range_end old) as He.
  assert (Heq : applyChange old {| change_range := Some (range_start, range_end);
                                   change_text := t |}
                = firstn (Z.to_nat (offsetAt range_start old)) old ++ t
                  ++ skipn (Z.to_nat (offsetAt range_end old)) old).
  { unfold applyChange. cbn [change_range change_text].
    now rewrite slice_prefix, sliceFrom_suffix by lia. }
  split; [exact Heq|]. split; [exact Hs|]. split; [exact He|]. split.
  - rewrite Heq. unfold JS.length in *.
    rewrite !length_app, length_firstn, length_skipn. lia.
  - intros Hle. pose proof (offsetAt_le old _ _ Hle) as Hse.
    split; [exact Hse|].
    rewrite substring_inside by lia.
    rewrite <- (firstn_skipn (Z.to_nat (offsetAt range_start old)) old) at 1.
    f_equal.
    rewrite <- (firstn_skipn
                  (Z.to_nat (offsetAt range_end old - offsetAt range_start old))
                  (skipn (Z.to_nat (offsetAt range_start old)) old)) at 1.
    f_equal. rewrite skipn_skipn. f_equal. lia.
Qed.

End SnapshotFacts.

(* ===================================================================== *)
(** ** More on patchTSX and on the mappings of the table *)
(* ===================================================================== *)

Module MappingFacts.

Import Astro2tsx JSText Utils Properties Shapes StringFacts Astro2tsxFacts.

Lemma occurs_here (literal s : jsstring) :
  isPrefix literal s = true -> occurs literal s = true.
Proof. intros H. destruct s; cbn [occurs]; now rewrite H. Qed.

Lemma occurs_skipn (literal : jsstring) (k : nat) :
  forall s, isPrefix literal (skipn k s) = true -> occurs literal s = true.
Proof.
  induction k as [|k IH]; intros s H.
  - now apply occurs_here.
  - destruct s as [|a s]; [now apply occurs_here|].
    cbn [skipn] in H. cbn [occurs]. rewrite (IH s H). apply orb_true_r.
Qed.

Lemma backtrack_Some (n : nat) (s : jsstring) (k : nat) :
  backtrack n s = Some k -> isPrefix marker (skipn k s) = true.
Proof.
  induction n as [|n IH]; cbn [backtrack].
  - destruct (isPrefix marker (skipn 0 s)) eqn:H; [|discriminate].
    intros Hk. injection Hk as <-. exact H.
  - destruct (isPrefix marker (skipn (S n) s)) eqn:H; [|exact IH].
    intros Hk. injection Hk as <-. exact H.
Qed.

Lemma matchAt_occurs (prev : option code_unit) (s : jsstring) (k : nat) :
  matchAt prev s = Some k -> occurs marker s = true.
Proof.
  unfold matchAt. destruct (wordBoundary prev s); [|discriminate].
  intros H. apply backtrack_Some in H. now apply (occurs_skipn marker k).
Qed.

(** Without a marker nothing is replaced. *)
Lemma replaceMarker_no_marker (replacer : jsstring -> jsstring -> jsstring)
  (prev : option code_unit) (s : jsstring) :
  occurs marker s = false -> replaceMarker replacer prev s = s.
Proof.
  funelim (replaceMarker replacer prev s); intros Hno.
  - reflexivity.
  - match goal with H : matchAt _ _ = Some _ |- _ =>
      apply matchAt_occurs in H; congruence end.
  - f_equal. match goal with IH : _ -> _ |- _ => apply IH end.
    cbn [occurs] in Hno. apply orb_false_iff in Hno. apply Hno.
Qed.

Lemma hasCompilationErrors_exists (compilerDiagnostics : list DiagnosticMessage) :
  Core.hasCompilationErrors compilerDiagnostics = true
  <-> exists diag, In diag compilerDiagnostics /\ severity diag = 1.
Proof.
  unfold Core.hasCompilationErrors. rewrite Z.ltb_lt. split.
  - intros Hpos.
    destruct (filter (fun diag => severity diag =? 1) compilerDiagnostics)
      as [|diag rest] eqn:Hf; [simpl in Hpos; lia|].
    assert (Hin : In diag
                    (filter (fun diag => severity diag =? 1) compilerDiagnostics))
      by (rewrite Hf; now left).
    apply filter_In in Hin. destruct Hin as [Hin Hsev].
    exists diag. split; [exact Hin | now apply Z.eqb_eq].
  - intros (diag & Hin & Hsev).
    assert (Hf : In diag
                   (filter (fun diag => severity diag =? 1) compilerDiagnostics))
      by (apply filter_In; split; [exact Hin | now apply Z.eqb_eq]).
    destruct (filter (fun diag => severity diag =? 1) compilerDiagnostics);
      [contradiction | cbn [List.length]; lia].
Qed.

Section Mappings.

Context {E : External}.

(** X19.  The Astro file has compilation errors exactly when the
    compiler threw, or returned a diagnostic of severity 1 among its
    diagnostics: warnings and hints alone, of any number, do not count,
    and what [astro2tsx] writes to the console plays no part. *)
Theorem hasCompilationErrors_of_astro2tsx (input fileName : jsstring)
  (ts : TypeScript) :
  Core.hasCompilationErrors
    (result_diagnostics (fst (astro2tsx input fileName ts))) = true
  <-> match convertToTSX input {| filename := Some fileName |} with
      | Returned tsx => exists diag, In diag (diagnostics tsx) /\ severity diag = 1
      | Threw _ => True
      end.
Proof.
  rewrite hasCompilationErrors_exists.
  unfold astro2tsx, safeConvertToTSX. cbn [filename].
  destruct (convertToTSX input {| filename := Some fileName |}) as [tsx|e];
    cbn [fst result_diagnostics diagnostics]; [reflexivity|].
  split; [auto|]. intros _. eexists. split; [now left | reflexivity].
Qed.

(** X20.  [patchTSX] returns the code as it is when the code does not
    hold the marker [__AstroComponent_], whatever the name of the file:
    only the matches of the marker are rewritten. *)
Theorem patchTSX_without_marker (code fileName : jsstring) :
  occurs marker code = false -> patchTSX code fileName = code.
Proof.
  intros Hno. unfold patchTSX. now apply replaceMarker_no_marker.
Qed.

Lemma separate_grow (front : list Mapping) (last grown : Mapping) :
  fst (generatedRange grown) = fst (generatedRange last) ->
  fst (sourceRange grown) = fst (sourceRange last) ->
  separate (front ++ [last]) -> separate (front ++ [grown]).
Proof.
  intros Hg Hs. induction front as [|y front IH]; [intros _; cbn; auto|].
  cbn [app separate]. intros [Hy Hrest]. split; [|now apply IH].
  destruct front as [|z front]; [|exact Hy].
  cbn [app] in *. unfold adjacent in *. now rewrite Hg, Hs.
Qed.

Lemma separate_push (front : list Mapping) (last pushed : Mapping) :
  ~ adjacent last pushed ->
  separate (front ++ [last]) -> separate ((front ++ [last]) ++ [pushed]).
Proof.
  intros Hnot. induction front as [|y front IH].
  - intros _. cbn. auto.
  - cbn [app separate]. intros [Hy Hrest]. split; [|now apply IH].
    destruct front as [|z front]; exact Hy.
Qed.

Lemma addMapping_separate (mappings : list Mapping) (current : Current)
  (length : Z) :
  separate mappings -> separate (addMapping mappings current length).
Proof.
  intros Hsep. unfold addMapping.
  destruct (lastMapping_cases mappings)
    as [[-> ->] | (front & last & -> & -> & ->)]; [cbn; auto|].
  destruct ((snd (generatedRange last) =? cur_genOffset current)
            && (snd (sourceRange last) =? cur_sourceOffset current)) eqn:Hcont.
  - now apply (separate_grow front last).
  - apply separate_push; [|exact Hsep].
    intros [Hg Hs]. cbn [generatedRange sourceRange fst] in Hg, Hs.
    rewrite Hg, Hs, !Z.eqb_refl in Hcont. discriminate Hcont.
Qed.

Lemma stepSegment_separate input code genLine st segment :
  separate (st_mappings st) ->
  separate (st_mappings (stepSegment input code genLine st segment)).
Proof.
  intros Hsep. rewrite stepSegment_mappings.
  destruct (st_current st) as [current|]; [|exact Hsep].
  cbn zeta.
  destruct (0 <? matchedLength input code current
                   (TextDocument_offsetAt code
                      {| line := genLine; character := segment0 segment |}));
    [now apply addMapping_separate | exact Hsep].
Qed.

(** X21.  The mappings [getVirtualFileTSX] builds from the table are
    merged as far as they can be: no mapping of the list starts, in the
    generated code and in the source at once, where the mapping before
    it ends.  Two runs that continue each other on both sides always
    become one mapping. *)
Theorem tableMappings_merged (input code : jsstring)
  (v3Mappings : list (list SourceMapSegment)) :
  separate (tableMappings input code v3Mappings)
  /\ forall front m1 m2 back,
       tableMappings input code v3Mappings = front ++ m1 :: m2 :: back ->
       ~ adjacent m1 m2.
Proof.
  assert (Hsep : separate (tableMappings input code v3Mappings)).
  { unfold tableMappings. rewrite linesLoop_fold.
    assert (Hinit : separate
                      (st_mappings {| st_mappings := []; st_current := None |}))
      by exact I.
    revert Hinit. generalize {| st_mappings := []; st_current := None |}.
    induction (numbered 0 v3Mappings) as [|[genLine segment] rest IH];
      intros st Hst; cbn [fold_left].
    - exact Hst.
    - apply IH. now apply stepSegment_separate. }
  split; [exact Hsep|].
  intros front m1 m2 back Heq. rewrite Heq in Hsep. clear Heq.
  induction front as [|y front IH].
  - cbn [app separate] in Hsep. apply Hsep.
  - apply IH. cbn [app separate] in Hsep. apply Hsep.
Qed.

Lemma numbered_segments (v3Mappings : list (list SourceMapSegment)) :
  forall genLine, List.map snd (numbered genLine v3Mappings) = List.concat v3Mappings.
Proof.
  induction v3Mappings as [|segments rest IH]; intros genLine; [reflexivity|].
  cbn [numbered List.concat]. rewrite map_app, map_map, IH. cbn [snd].
  now rewrite map_id.
Qed.

Lemma addMapping_length (mappings : list Mapping) (current : Current)
  (length : Z) :
  (List.length (addMapping mappings current length)
   <= S (List.length mappings))%nat.
Proof.
  destruct (addMapping_cases mappings current length)
    as [-> | (front & last & -> & _ & _ & ->)];
    rewrite !length_app; cbn [List.length]; lia.
Qed.

Lemma sourced_count (segments : list SourceMapSegment) :
  List.length (filter sourced segments)
  = (List.length (filter sourced (removelast segments))
     + if endsSourced segments then 1 else 0)%nat.
Proof.
  destruct segments as [|s0 rest] using rev_ind; [reflexivity|].
  rewrite removelast_last, filter_app, length_app. unfold endsSourced.
  rewrite rev_app_distr. cbn [rev app filter].
  destruct (sourced s0); reflexivity.
Qed.

(** The loops after the segments [visited]: a mapping for a sourced
    segment that another segment follows, at most, and a pending run
    exactly when the last segment is sourced. *)
Lemma fold_stepSegment_count input code
  (visited : list (Z * SourceMapSegment)) :
  let st :=
    fold_left (fun st ls => stepSegment input code (fst ls) st (snd ls))
              visited {| st_mappings := []; st_current := None |} in
  (List.length (st_mappings st)
   <= List.length (filter sourced (removelast (List.map snd visited))))%nat
  /\ (match st_current st with Some _ => true | None => false end
      = endsSourced (List.map snd visited)).
Proof.
  induction visited as [|[genLine segment] visited IH] using rev_ind.
  - cbn. split; [lia | reflexivity].
  - cbn zeta in *. rewrite fold_left_app. cbn [fold_left fst snd].
    set (st := fold_left _ visited _) in *.
    destruct IH as [Hcount Hpending].
    rewrite map_app. cbn [List.map snd]. rewrite removelast_last.
    split.
    + rewrite stepSegment_mappings, sourced_count, <- Hpending.
      destruct (st_current st) as [current|]; [|lia].
      cbn zeta.
      destruct (0 <? matchedLength input code current
                       (TextDocument_offsetAt code
                          {| line := genLine; character := segment0 segment |})).
      * pose proof (addMapping_length (st_mappings st) current
                      (matchedLength input code current
                         (TextDocument_offsetAt code
                            {| line := genLine;
                               character := segment0 segment |}))).
        lia.
      * lia.
    + rewrite stepSegment_current. unfold endsSourced, sourced.
      rewrite rev_app_distr. cbn [rev app].
      now destruct (segment23 segment) as [[sourceLine sourceColumn]|].
Qed.

(** X22.  The table gives at most one mapping for each segment that
    carries a source position and is followed by another segment: a run
    is pushed only when the next segment closes it, so the run the last
    segment of the table opens is never pushed, and a table without
    source positions gives no mapping. *)
Theorem tableMappings_count (input code : jsstring)
  (v3Mappings : list (list SourceMapSegment)) :
  (List.length (tableMappings input code v3Mappings)
   <= List.length (filter sourced (removelast (List.concat v3Mappings))))%nat
  /\ (forallb (fun segment => negb (sourced segment)) (List.concat v3Mappings) = true ->
      tableMappings input code v3Mappings = [])
  /\ (forall segment,
        List.concat v3Mappings = [segment] ->
        tableMappings input code v3Mappings = []).
Proof.
  pose proof (fold_stepSegment_count input code (numbered 0 v3Mappings))
    as [Hcount _].
  rewrite numbered_segments in Hcount.
  assert (Hsame : st_mappings
                    (fold_left
                       (fun st ls => stepSegment input code (fst ls) st (snd ls))
                       (numbered 0 v3Mappings)
                       {| st_mappings := []; st_current := None |})
                  = tableMappings input code v3Mappings)
    by (unfold tableMappings; now rewrite linesLoop_fold).
  rewrite Hsame in Hcount.
  split; [exact Hcount|]. split.
  - intros Hnone.
    assert (Hzero : List.length (filter sourced (List.concat v3Mappings)) = 0%nat).
    { clear -Hnone. induction (List.concat v3Mappings) as [|s l IH]; [reflexivity|].
      cbn [forallb] in Hnone. apply andb_prop in Hnone.
      destruct Hnone as [Hs Hl]. cbn [filter].
      destruct (sourced s); [discriminate Hs | now apply IH]. }
    rewrite sourced_count in Hzero.
    destruct (tableMappings input code v3Mappings); [reflexivity|].
    cbn [List.length] in Hcount. lia.
  - intros segment Hone. rewrite Hone in Hcount. cbn in Hcount.
    destruct (tableMappings input code v3Mappings); [reflexivity|].
    cbn [List.length] in Hcount. lia.
Qed.

End Mappings.

Lemma patchTSX_without_marker_witness :
  patchTSX (E := Samples.headingWorld) (lit "<h1>Hi</h1>") Samples.fileName
  = lit "<h1>Hi</h1>".
Proof.
  apply (patchTSX_without_marker (E := Samples.headingWorld)
           (lit "<h1>Hi</h1>") Samples.fileName).
  reflexivity.
Defined.

End MappingFacts.
